(** * Void: the rule store, the engine handlers, the resolver front end,
      the atomic file write and the anchor codec

    A shallow embedding of the Go sources of [lc/void]:
    - [internal/rules/store.go]   (MemoryStore and its expiry heap),
    - [internal/engine]           (handleBlock, handleRefreshExpire, ipsEqual),
    - [internal/dnsresolver]      (LookupHost, lookupIPs, lookup, parseIPs),
    - [internal/filesys]          (AtomicWrite),
    together with Go's [container/heap], which the store drives.  The
    anchor codec of [internal/pf] is present through its tests only and is
    modelled from the component design.

    Conventions.
    - Instants ([time.Time]) are integers, the zero instant is [0];
      [Before] is [<], [After] is [>].  Durations are [int64] nanoseconds.
    - Pointers to [entry] objects are addresses into an object table
      ([mem]); the two maps and the heap hold addresses, so that an in-place
      update through one of them is seen through the others, as in Go.
    - A Go run-time panic (index out of range) is the result [None]. *)

From Stdlib Require Import ZArith Lia Ascii String.
From stdpp Require Import gmap strings list fin_maps.

Open Scope Z_scope.

(** ** Basic data *)

Definition Time := Z.

(** [time.Time{}] *)
Definition zeroTime : Time := 0.

Definition IsZero (t : Time) : bool := t =? 0.
Definition Before (t u : Time) : bool := t <? u.
Definition After (t u : Time) : bool := u <? t.

(** [net.IP] is a byte slice, [net.IPAddr] a pair of an IP and a zone. *)
Definition IP := list N.

Record IPAddr := mkIPAddr { ip_IP : IP; ip_Zone : string }.

(** [rules.Rule] *)
Record Rule := mkRule {
  ID : string;
  Domain : string;
  IPs : list IPAddr;
  Expires : Time;
  Permanent : bool;
  ResolvedAt : Time
}.

(** [rules.entry]: the rule it points to, and its index inside the heap.
    Every caller in the repository hands [Upsert] a freshly allocated
    [*Rule] that it does not write to afterwards, so the rule is kept
    inside the entry object. *)
Record entry := mkEntry { rule : Rule; heapIdx : Z }.

Definition ptr := nat.

(** [rules.MemoryStore] (the lock apart). *)
Record MemoryStore := mkStore {
  mem : list entry;          (* the entry objects, by address *)
  byID : gmap string ptr;    (* id -> entry *)
  byDom : gmap string ptr;   (* lower-cased FQDN -> entry *)
  expH : list ptr;           (* min-heap keyed by .Expires *)
  count : Z                  (* metrics: total rules *)
}.

Definition set_mem (s : MemoryStore) (m : list entry) : MemoryStore :=
  mkStore m (byID s) (byDom s) (expH s) (count s).
Definition set_byID (s : MemoryStore) (m : gmap string ptr) : MemoryStore :=
  mkStore (mem s) m (byDom s) (expH s) (count s).
Definition set_byDom (s : MemoryStore) (m : gmap string ptr) : MemoryStore :=
  mkStore (mem s) (byID s) m (expH s) (count s).
Definition set_expH (s : MemoryStore) (h : list ptr) : MemoryStore :=
  mkStore (mem s) (byID s) (byDom s) h (count s).
Definition set_count (s : MemoryStore) (c : Z) : MemoryStore :=
  mkStore (mem s) (byID s) (byDom s) (expH s) c.

(** [NewStore] *)
Definition NewStore : MemoryStore := mkStore [] ∅ ∅ [] 0.

(** [strings.ToLower], on ASCII letters. *)
Definition lower_ascii (c : ascii) : ascii :=
  let n := N_of_ascii c in
  if ((65 <=? n) && (n <=? 90))%N then ascii_of_N (n + 32) else c.

Fixpoint ToLower (s : string) : string :=
  match s with
  | EmptyString => EmptyString
  | String c r => String (lower_ascii c) (ToLower r)
  end.

(** ** Object table and heap slots *)

Definition deref (s : MemoryStore) (p : ptr) : option entry := mem s !! p.

(** [h[i]] for a Go [int] index: out of range is a panic. *)
Definition slot (h : list ptr) (i : Z) : option ptr :=
  if decide (0 <= i) then h !! Z.to_nat i else None.

Definition upd_entry (s : MemoryStore) (p : ptr) (f : entry -> entry)
  : option MemoryStore :=
  e ← deref s p; Some (set_mem s (<[p := f e]> (mem s))).

Definition with_rule (f : Rule -> Rule) (e : entry) : entry :=
  mkEntry (f (rule e)) (heapIdx e).
Definition with_heapIdx (i : Z) (e : entry) : entry :=
  mkEntry (rule e) i.

Definition Len (s : MemoryStore) : Z := Z.of_nat (length (expH s)).

(** [expiryHeap.Less] *)
Definition Less (s : MemoryStore) (i j : Z) : option bool :=
  pi ← slot (expH s) i;
  pj ← slot (expH s) j;
  ei ← deref s pi;
  ej ← deref s pj;
  Some (Before (Expires (rule ei)) (Expires (rule ej))).

(** [expiryHeap.Swap]: [h[i], h[j] = h[j], h[i]] and then
    [h[i].heapIdx, h[j].heapIdx = i, j]. *)
Definition Swap (s : MemoryStore) (i j : Z) : option MemoryStore :=
  pi ← slot (expH s) i;
  pj ← slot (expH s) j;
  let h := <[Z.to_nat j := pi]> (<[Z.to_nat i := pj]> (expH s)) in
  s1 ← upd_entry (set_expH s h) pj (with_heapIdx i);
  upd_entry s1 pi (with_heapIdx j).

(** [expiryHeap.Push] *)
Definition hPush (s : MemoryStore) (p : ptr) : option MemoryStore :=
  s1 ← upd_entry s p (with_heapIdx (Len s));
  Some (set_expH s1 (expH s1 ++ [p])).

(** [expiryHeap.Pop] *)
Definition hPop (s : MemoryStore) : option (MemoryStore * ptr) :=
  let n := Len s in
  p ← slot (expH s) (n - 1);
  s1 ← upd_entry s p (with_heapIdx (-1));
  Some (set_expH s1 (take (Z.to_nat (n - 1)) (expH s1)), p).

(** ** Go's [container/heap] over the expiry heap

    The two loops run on fuel; [None] at the end of the fuel never shows
    for the fuel the callers give (every round moves the index). *)

(** [heap.up] *)
Fixpoint up (fuel : nat) (s : MemoryStore) (j : Z) : option MemoryStore :=
  match fuel with
  | O => None
  | S f =>
      let i := Z.quot (j - 1) 2 in (* parent *)
      if decide (i = j) then Some s else
      b ← Less s j i;
      if negb b then Some s else
      s1 ← Swap s i j;
      up f s1 i
  end.

(** [heap.down]; the result tells whether the element moved. *)
Fixpoint down (fuel : nat) (s : MemoryStore) (i0 i n : Z)
  : option (MemoryStore * bool) :=
  match fuel with
  | O => None
  | S f =>
      let j1 := 2 * i + 1 in
      if decide (j1 >= n \/ j1 < 0) then Some (s, i0 <? i) else
      let j2 := j1 + 1 in
      b2 ← (if decide (j2 < n) then Less s j2 j1 else Some false) : option bool;
      let j := if (b2 : bool) then j2 else j1 in
      b ← Less s j i;
      if negb (b : bool) then Some (s, i0 <? i) else
      s1 ← Swap s i j;
      down f s1 i0 j n
  end.

Definition heap_fuel (s : MemoryStore) : nat := S (S (length (expH s))).

(** [heap.Push] *)
Definition heap_Push (s : MemoryStore) (p : ptr) : option MemoryStore :=
  s1 ← hPush s p;
  up (heap_fuel s1) s1 (Len s1 - 1).

(** [heap.Pop] *)
Definition heap_Pop (s : MemoryStore) : option (MemoryStore * ptr) :=
  let n := Len s - 1 in
  s1 ← Swap s 0 n;
  '(s2, _) ← down (heap_fuel s1) s1 0 0 n;
  hPop s2.

(** [heap.Remove] *)
Definition heap_Remove (s : MemoryStore) (i : Z) : option (MemoryStore * ptr) :=
  let n := Len s - 1 in
  s3 ← (if decide (n = i) then Some s else
        s1 ← Swap s i n;
        '(s2, moved) ← down (heap_fuel s1) s1 i i n;
        if (moved : bool) then Some s2 else up (heap_fuel s2) s2 i);
  hPop s3.

(** [heap.Fix] *)
Definition heap_Fix (s : MemoryStore) (i : Z) : option MemoryStore :=
  '(s1, moved) ← down (heap_fuel s) s i i (Len s);
  if (moved : bool) then Some s1 else up (heap_fuel s1) s1 i.

(** ** The store operations *)

(** [MemoryStore.Upsert] *)
Definition Upsert (s : MemoryStore) (r : Rule) : option (MemoryStore * bool) :=
  let dom := ToLower (Domain r) in
  match byDom s !! dom with
  | Some p =>
      cur ← deref s p;
      if negb (Permanent (rule cur)) && Permanent r then
        (* upgrade in place *)
        s1 ← upd_entry s p (with_rule (fun c =>
                mkRule (ID c) (Domain c) (IPs c) zeroTime true (ResolvedAt c)));
        '(s2, _) ← heap_Remove s1 (heapIdx cur);
        Some (s2, true)
      else
        (* otherwise, update the existing rule *)
        s1 ← upd_entry s p (with_rule (fun c =>
                mkRule (ID c) (Domain c) (IPs r) (Expires r) (Permanent c)
                       (ResolvedAt r)));
        Some (s1, true)
  | None =>
      let p := length (mem s) in
      let s1 := set_mem s (mem s ++ [mkEntry r 0]) in
      let s2 := set_byID s1 (<[ID r := p]> (byID s1)) in
      let s3 := set_byDom s2 (<[dom := p]> (byDom s2)) in
      s4 ← (if negb (Permanent r) then heap_Push s3 p else Some s3);
      Some (set_count s4 (count s4 + 1), true)
  end.

(** [MemoryStore.UpdateResolvedAt] *)
Definition UpdateResolvedAt (s : MemoryStore) (id : string) (ts : Time)
  : option (MemoryStore * bool) :=
  let setResolved := with_rule (fun c =>
        mkRule (ID c) (Domain c) (IPs c) (Expires c) (Permanent c) ts) in
  match byID s !! id with
  | None => Some (s, false)
  | Some p =>
      cur ← deref s p;
      s1 ← upd_entry s p setResolved;
      s2 ← (if negb (Permanent (rule cur)) then heap_Fix s1 (heapIdx cur)
            else Some s1);
      match byDom s2 !! Domain (rule cur) with
      | None => Some (s2, false)
      | Some q =>
          s3 ← upd_entry s2 q setResolved;
          Some (s3, true)
      end
  end.

(** [MemoryStore.Remove] *)
Definition Remove (s : MemoryStore) (id : string)
  : option (MemoryStore * option Rule) :=
  match byID s !! id with
  | None => Some (s, None)
  | Some p =>
      cur ← deref s p;
      let s1 := set_byID s (delete (ID (rule cur)) (byID s)) in
      let s2 := set_byDom s1 (delete (ToLower (Domain (rule cur))) (byDom s1)) in
      s3 ← (if negb (Permanent (rule cur))
            then fst <$> heap_Remove s2 (heapIdx cur) else Some s2);
      Some (set_count s3 (count s3 - 1), Some (rule cur))
  end.

(** [MemoryStore.NextExpiry] *)
Definition NextExpiry (s : MemoryStore) : option (Time * bool) :=
  match expH s with
  | [] => Some (zeroTime, false)
  | p :: _ => e ← deref s p; Some (Expires (rule e), true)
  end.

(** The loop of [MemoryStore.ExpireNow]; every round pops one entry. *)
Fixpoint expire_loop (fuel : nat) (s : MemoryStore) (now : Time)
  (expired : list Rule) : option (MemoryStore * list Rule) :=
  match fuel with
  | O => None
  | S f =>
      if decide (Len s > 0) then
        p0 ← slot (expH s) 0;
        e0 ← deref s p0;
        if After (Expires (rule e0)) now then Some (s, expired) else
        '(s1, p) ← heap_Pop s;
        e ← deref s1 p;
        let s2 := set_byID s1 (delete (ID (rule e)) (byID s1)) in
        let s3 := set_byDom s2 (delete (ToLower (Domain (rule e))) (byDom s2)) in
        let s4 := set_count s3 (count s3 - 1) in
        expire_loop f s4 now (expired ++ [rule e])
      else Some (s, expired)
  end.

(** [MemoryStore.ExpireNow] *)
Definition ExpireNow (s : MemoryStore) (now : Time)
  : option (MemoryStore * list Rule) :=
  expire_loop (S (length (expH s))) s now [].

(** The rules a [Snapshot] copies out, by id; Go ranges over the map in
    an order of its own choosing. *)
Definition snapshot_map (s : MemoryStore) : gmap string Rule :=
  omap (fun p => rule <$> deref s p) (byID s).

Definition is_snapshot (s : MemoryStore) (l : list Rule) : Prop :=
  exists ids : list string,
    ids ≡ₚ (map_to_list (byID s)).*1 /\
    Forall2 (fun id r => snapshot_map s !! id = Some r) ids l.

(** ** Sequences of operations *)

Inductive op :=
| OpUpsert (r : Rule)
| OpUpdateResolvedAt (id : string) (ts : Time)
| OpRemove (id : string)
| OpExpireNow (now : Time).

Definition step (s : MemoryStore) (o : op) : option MemoryStore :=
  match o with
  | OpUpsert r => fst <$> Upsert s r
  | OpUpdateResolvedAt id ts => fst <$> UpdateResolvedAt s id ts
  | OpRemove id => fst <$> Remove s id
  | OpExpireNow now => fst <$> ExpireNow s now
  end.

Fixpoint run (s : MemoryStore) (ops : list op) : option MemoryStore :=
  match ops with
  | [] => Some s
  | o :: rest => s1 ← step s o; run s1 rest
  end.

(** ** Properties of a store state: heap order, expiry, the two maps *)

(** The heap is a min-heap on [Expires]: no child is before its parent. *)
Definition min_heap (s : MemoryStore) : Prop :=
  forall (i j : nat) pi pj ei ej,
    (j = 2 * i + 1 \/ j = 2 * i + 2)%nat ->
    expH s !! i = Some pi -> expH s !! j = Some pj ->
    deref s pi = Some ei -> deref s pj = Some ej ->
    Expires (rule ei) <= Expires (rule ej).

(** The heap holds exactly the non-permanent rules of the store (those a
    [Snapshot] shows), each at the position its [heapIdx] records. *)
Definition heap_exact (s : MemoryStore) : Prop :=
  (forall (i : nat) p, expH s !! i = Some p ->
     exists e, deref s p = Some e /\ heapIdx e = Z.of_nat i /\
               Permanent (rule e) = false /\ byID s !! ID (rule e) = Some p) /\
  (forall id p e, byID s !! id = Some p -> deref s p = Some e ->
     Permanent (rule e) = false -> exists i : nat, expH s !! i = Some p).

(** [permanent] iff [expires_at] is the zero instant, for every stored rule. *)
Definition permanent_iff_zero (s : MemoryStore) : Prop :=
  forall id r, snapshot_map s !! id = Some r ->
    (Permanent r = true <-> Expires r = zeroTime).

(** The two maps have the same size and the same set of values. *)
Definition maps_agree (s : MemoryStore) : Prop :=
  size (byID s) = size (byDom s) /\
  (forall p, (exists id, byID s !! id = Some p) <->
             (exists d, byDom s !! d = Some p)).

(** The rules that are due at [now]. *)
Definition due (s : MemoryStore) (now : Time) (r : Rule) : Prop :=
  (exists id, snapshot_map s !! id = Some r) /\
  Permanent r = false /\ Expires r <= now.

(** ** Well-formed store states

    What every state reached from [NewStore] satisfies, whatever the
    operations were: the slots of the heap and the back-indices agree, the
    heap holds temporary records that the domain map knows, every record of
    the id map is the domain map's record for its domain, and every
    temporary record of the domain map is in the heap. *)

Definition slots_ok (s : MemoryStore) : Prop :=
  forall (i : nat) p, expH s !! i = Some p ->
    exists e, deref s p = Some e /\ heapIdx e = Z.of_nat i.

Record wf (s : MemoryStore) : Prop := mkWf {
  wf_slots : slots_ok s;
  wf_slots_temp : forall (i : nat) p e,
    expH s !! i = Some p -> deref s p = Some e ->
    Permanent (rule e) = false /\
    byDom s !! ToLower (Domain (rule e)) = Some p;
  wf_byID : forall id p, byID s !! id = Some p ->
    exists e, deref s p = Some e /\ ID (rule e) = id /\
              byDom s !! ToLower (Domain (rule e)) = Some p;
  wf_byDom : forall d p, byDom s !! d = Some p ->
    exists e, deref s p = Some e /\ ToLower (Domain (rule e)) = d;
  wf_temp_in_heap : forall d p e,
    byDom s !! d = Some p -> deref s p = Some e ->
    Permanent (rule e) = false -> p ∈ expH s
}.

(** The part of a record the invariant looks at. *)
Definition key_of (e : entry) : string * string * bool * Z :=
  (ID (rule e), Domain (rule e), Permanent (rule e), heapIdx e).

(** What the heap operations leave alone: the two maps, the counter and
    the rule of every record. *)
Definition same_rules (s s' : MemoryStore) : Prop :=
  byID s' = byID s /\ byDom s' = byDom s /\ count s' = count s /\
  forall p, rule <$> deref s' p = rule <$> deref s p.

(** The heap was permuted below slot [n]. *)
Definition heap_moved (n : nat) (s s' : MemoryStore) : Prop :=
  same_rules s s' /\ slots_ok s' /\
  length (expH s') = length (expH s) /\
  (forall p, p ∈ expH s' <-> p ∈ expH s) /\
  (forall k : nat, (n <= k)%nat -> expH s' !! k = expH s !! k).

(** Record [p] left the heap. *)
Definition heap_popped (p : ptr) (s s' : MemoryStore) : Prop :=
  same_rules s s' /\ slots_ok s' /\
  length (expH s) = S (length (expH s')) /\
  (forall q, q ∈ expH s <-> q = p \/ q ∈ expH s') /\
  p ∉ expH s'.

(** Record [p] entered the heap. *)
Definition heap_pushed (p : ptr) (s s' : MemoryStore) : Prop :=
  same_rules s s' /\ slots_ok s' /\
  (forall q, q ∈ expH s' <-> q = p \/ q ∈ expH s).

(** ** Concrete rules used in the examples below *)

Definition rule_a10 : Rule := mkRule "1" "a.com" [] 10 false 1.
Definition rule_b20 : Rule := mkRule "2" "b.com" [] 20 false 1.
Definition rule_a30 : Rule := mkRule "3" "a.com" [] 30 false 2.
Definition rule_a_perm : Rule := mkRule "1" "a.com" [] zeroTime true 1.
Definition rule_a_temp : Rule := mkRule "2" "a.com" [] 10 false 2.
Definition rule_id1_a : Rule := mkRule "1" "a.com" [] zeroTime true 1.
Definition rule_id1_b : Rule := mkRule "1" "b.com" [] zeroTime true 1.
Definition rule_upper : Rule := mkRule "1" "A.com" [] zeroTime true 1.
Definition rule_c5 : Rule := mkRule "3" "c.com" [] 5 false 1.
Definition rule_c30 : Rule := mkRule "3" "c.com" [] 30 false 1.
Definition rule_d40 : Rule := mkRule "4" "d.com" [] 40 false 1.

(** Four temporary rules, blocked in the order of their expiry. *)
Definition four_ops : list op :=
  [OpUpsert rule_a10; OpUpsert rule_b20; OpUpsert rule_c30; OpUpsert rule_d40].

(** Two blocks of [a.com] with a [b.com] in between, as two block commands
    for one domain with different lifetimes produce them. *)
Definition reblock_ops : list op :=
  [OpUpsert rule_a10; OpUpsert rule_b20; OpUpsert rule_a30].

(** ** The engine *)

Definition error := string.

(** What [Clienter.LookupHost] gives back: [(nil, err)] or [(ips, nil)]. *)
Inductive lookup_result :=
| LookupErr (err : error)
| LookupOk (ips : list IPAddr).

Definition minInt64 : Z := - 2 ^ 63.
Definition maxInt64 : Z := 2 ^ 63 - 1.

(** [int64] arithmetic wraps around. *)
Definition wrap64 (z : Z) : Z := (z + 2 ^ 63) mod 2 ^ 64 - 2 ^ 63.

(** [Time.Sub] saturates at the ends of [Duration]. *)
Definition Sub (t u : Time) : Z := Z.max minInt64 (Z.min maxInt64 (t - u)).

(** [blockCmd] *)
Record blockCmd := mkBlockCmd { bc_domain : string; bc_ttl : Z }.

(** The rule [handleBlock] builds. *)
Definition block_rule (now : Time) (uuid : string) (cmd : blockCmd)
  (ips : list IPAddr) : Rule :=
  let r := mkRule uuid (bc_domain cmd) ips zeroTime false now in
  if decide (bc_ttl cmd > 0)
  then mkRule (ID r) (Domain r) (IPs r) (now + bc_ttl cmd) false (ResolvedAt r)
  else mkRule (ID r) (Domain r) (IPs r) (Expires r) true (ResolvedAt r).

(** [Engine.handleBlock]; [lookup] is what the resolver answered for
    [cmd.domain], [now] what [time.Now()] read, [uuid] what
    [uuid.NewString()] made.  The result is the store, [needsSync] and the
    error, if any. *)
Definition handleBlock (s : MemoryStore) (lookup : lookup_result)
  (now : Time) (uuid : string) (cmd : blockCmd)
  : option (MemoryStore * bool * option error) :=
  match lookup with
  | LookupErr err => Some (s, false, Some ("dns lookup failed: " +:+ err))
  | LookupOk ips =>
      if decide (length ips = 0%nat)
      then Some (s, false, Some "no IPs resolved")
      else
        '(s1, changed) ← Upsert s (block_rule now uuid cmd ips);
        Some (s1, changed, None)
  end.

Section Engine.

(** [net.IP.String] comes from Go's library. *)
Variable IPString : IP -> string.

(** [ipKey] *)
Definition ipKey (ip : IPAddr) : string :=
  IPString (ip_IP ip) +:+ "%" +:+ ip_Zone ip.

Definition count_keys (a : list IPAddr) : gmap string Z :=
  foldl (fun counts ip =>
           <[ipKey ip := default 0 (counts !! ipKey ip) + 1]> counts) ∅ a.

Fixpoint consume_keys (counts : gmap string Z) (b : list IPAddr) : bool :=
  match b with
  | [] => true
  | ip :: rest =>
      let c := default 0 (counts !! ipKey ip) in
      if decide (c = 0) then false
      else consume_keys (<[ipKey ip := c - 1]> counts) rest
  end.

(** [ipsEqual] *)
Definition ipsEqual (a b : list IPAddr) : bool :=
  if decide (length a <> length b) then false
  else if decide (length a = 0%nat) then true
  else consume_keys (count_keys a) b.

(** What one reconcile tick reads from outside the engine. *)
Record world := mkWorld {
  w_now : Time;                              (* [time.Now()] at the top *)
  w_clock : nat -> Time;                     (* [time.Now()] inside the
                                                [time.Since] of round i *)
  w_lookup : nat -> string -> lookup_result; (* [LookupHost] of round i *)
  w_order : MemoryStore -> list Rule         (* the order [Snapshot] took *)
}.

(** [rule.ResolvedAt.IsZero() || time.Since(rule.ResolvedAt) >
    (e.dnsRefresh*9/10)] *)
Definition needs_refresh (dnsRefresh : Z) (clock : Time) (r : Rule) : bool :=
  IsZero (ResolvedAt r) ||
  (Z.quot (wrap64 (dnsRefresh * 9)) 10 <? Sub clock (ResolvedAt r)).

Record tick_result := mkTick {
  t_store : MemoryStore;
  t_changed : bool;
  t_errors : list error;
  t_resolved : list string   (* the domains handed to [LookupHost] *)
}.

(** The loop of [handleRefreshExpire] over the snapshot. *)
Fixpoint refresh_loop (dnsRefresh : Z) (w : world) (i : nat)
  (snap : list Rule) (acc : tick_result) : option tick_result :=
  match snap with
  | [] => Some acc
  | r :: rest =>
      if needs_refresh dnsRefresh (w_clock w i) r then
        let acc1 := mkTick (t_store acc) (t_changed acc) (t_errors acc)
                           (t_resolved acc ++ [Domain r]) in
        match w_lookup w i (Domain r) with
        | LookupErr err =>
            refresh_loop dnsRefresh w (S i) rest
              (mkTick (t_store acc1) (t_changed acc1)
                      (t_errors acc1 ++ ["refresh failed: " +:+ err])
                      (t_resolved acc1))
        | LookupOk newIPs =>
            if negb (ipsEqual (IPs r) newIPs) then
              let updatedRule :=
                mkRule (ID r) (Domain r) newIPs (Expires r) (Permanent r)
                       (w_now w) in
              '(s1, ch) ← Upsert (t_store acc1) updatedRule;
              refresh_loop dnsRefresh w (S i) rest
                (mkTick s1 (if ch : bool then true else t_changed acc1)
                        (t_errors acc1) (t_resolved acc1))
            else
              '(s1, ch) ← UpdateResolvedAt (t_store acc1) (ID r) (w_now w);
              refresh_loop dnsRefresh w (S i) rest
                (mkTick s1 (if ch : bool then true else t_changed acc1)
                        (t_errors acc1) (t_resolved acc1))
        end
      else refresh_loop dnsRefresh w (S i) rest acc
  end.

(** [Engine.handleRefreshExpire] *)
Definition handleRefreshExpire (dnsRefresh : Z) (w : world)
  (s : MemoryStore) : option tick_result :=
  '(s1, expired) ← ExpireNow s (w_now w);
  let changed := bool_decide (0 < length expired)%nat in
  refresh_loop dnsRefresh w 0 (w_order w s1) (mkTick s1 changed [] []).

End Engine.

(** The store holds rule [r] under its id. *)
Definition stored (s : MemoryStore) (r : Rule) : Prop :=
  exists p e, byID s !! ID r = Some p /\ deref s p = Some e /\ rule e = r.

(** A [Snapshot] in the order of the map's key list. *)
Definition Snapshot (s : MemoryStore) : list Rule :=
  omap (fun id => snapshot_map s !! id) (map_to_list (byID s)).*1.

Section Reconcile.

Variable IPString : IP -> string.

(** Two address lists are the same set: the same addresses occur, in
    whatever order and number; an address is told by its [ipKey]. *)
Definition same_ip_set (a b : list IPAddr) : Prop :=
  forall k, k ∈ (ipKey IPString <$> a) <-> k ∈ (ipKey IPString <$> b).

(** The domains a tick re-resolves: those of the snapshot that
    [needs_refresh] at the clock reading of their round. *)
Fixpoint refreshed (dnsRefresh : Z) (w : world) (i : nat) (snap : list Rule)
  : list string :=
  match snap with
  | [] => []
  | r :: rest =>
      (if needs_refresh dnsRefresh (w_clock w i) r then [Domain r] else [])
      ++ refreshed dnsRefresh w (S i) rest
  end.

End Reconcile.

(** Staleness as the specification words it: [resolved_at] is zero, or
    [now - resolved_at > 0.9 * dns_refresh_interval], with the [now] of the
    tick. *)
Definition stale_as_stated (dnsRefresh : Z) (now : Time) (r : Rule) : bool :=
  IsZero (ResolvedAt r) || (9 * dnsRefresh <? 10 * (now - ResolvedAt r)).

(** The first half of the reconcile claim as stated: the rules re-resolved
    during a tick are exactly the stale ones of the store, staleness being
    judged at the tick's [now]. *)
Definition tick_as_stated : Prop :=
  forall (IPString : IP -> string) (dnsRefresh : Z) (w : world)
         (s s1 : MemoryStore) (expired : list Rule) (res : tick_result),
    wf s ->
    (forall i, w_now w <= w_clock w i) ->
    ExpireNow s (w_now w) = Some (s1, expired) ->
    is_snapshot s1 (w_order w s1) ->
    handleRefreshExpire IPString dnsRefresh w s = Some res ->
    t_resolved res =
      Domain <$> List.filter (stale_as_stated dnsRefresh (w_now w))
                             (w_order w s1).

(** One minute, in nanoseconds. *)
Definition minute : Z := 60 * 1000000000.

(** A store with one permanent rule for [a.com], resolved at instant 1. *)
Definition store_a_ops : list op :=
  [OpUpsert (mkRule "1" "a.com" [] zeroTime true 1)].
Definition store_a : MemoryStore := default NewStore (run NewStore store_a_ops).

(** A tick whose [now] is exactly nine tenths of a one-minute refresh
    interval after that resolution, and whose clock has moved on by one
    nanosecond when the rule is looked at; the lookup fails. *)
Definition world_late : world :=
  mkWorld (1 + 54 * 1000000000)
          (fun _ => 1 + 54 * 1000000000 + 1)
          (fun _ _ => LookupErr "timeout")
          Snapshot.

(** A tick in which [a.com] (never resolved) now resolves to 10.0.0.2. *)
Definition store_a_fresh_ops : list op :=
  [OpUpsert (mkRule "1" "a.com" [mkIPAddr [10; 0; 0; 1]%N ""]
                    zeroTime true zeroTime)].
Definition store_a_fresh : MemoryStore :=
  default NewStore (run NewStore store_a_fresh_ops).

Definition world_drift : world :=
  mkWorld 1000 (fun _ => 1000)
          (fun _ _ => LookupOk [mkIPAddr [10; 0; 0; 2]%N ""])
          Snapshot.

(** A textual form for addresses, for the examples: the bytes as
    characters. *)
Definition IPString_bytes (ip : IP) : string :=
  string_of_list_ascii (List.map ascii_of_N ip).

(** ** The resolver *)

Definition ErrNoRecords : error := "no records found".
Definition ErrEmptyMsg : error := "empty message".
Definition ErrEmptyHostname : error := "empty hostname".

(** [unicode.IsSpace], on ASCII. *)
Definition is_space (c : ascii) : bool :=
  let n := N_of_ascii c in ((n =? 32) || ((9 <=? n) && (n <=? 13)))%N.

Fixpoint trim_left (s : string) : string :=
  match s with
  | EmptyString => EmptyString
  | String c r => if is_space c then trim_left r else s
  end.

Fixpoint trim_right (s : string) : string :=
  match s with
  | EmptyString => EmptyString
  | String c r =>
      let r' := trim_right r in
      if is_space c && bool_decide (r' = EmptyString) then EmptyString
      else String c r'
  end.

(** [strings.TrimSpace] *)
Definition TrimSpace (s : string) : string := trim_right (trim_left s).

(** The answer section of a [dns.Msg]. *)
Inductive RR :=
| RR_A (a : IP)
| RR_AAAA (a : IP)
| RR_other.

Definition TypeA : Z := 1.
Definition TypeAAAA : Z := 28.

(** What [Exchanger.ExchangeContext] gives back: an error, a nil message
    without an error, or a message. *)
Inductive exchange_result :=
| ExchErr (err : error)
| ExchNil
| ExchMsg (answer : list RR).

Definition answer_ips (answer : list RR) : list IPAddr :=
  flat_map (fun r => match r with
                     | RR_A a => [mkIPAddr a ""]
                     | RR_AAAA a => [mkIPAddr a ""]
                     | RR_other => []
                     end) answer.

(** [parseIPs]; [None] is the nil response. *)
Definition parseIPs (resp : option (list RR)) : lookup_result :=
  match resp with
  | None => LookupErr ErrEmptyHostname
  | Some answer =>
      let ips := answer_ips answer in
      if decide (length ips = 0%nat) then LookupErr ErrNoRecords
      else LookupOk ips
  end.

(** A DNS query on the wire: host and query type. *)
Definition query : Type := string * Z.

(** What a lookup meets outside the client: the exchanger's answer and the
    context's state at every attempt, and which of the two goroutines of
    [lookupIPs] takes the lock first. *)
Record dns_env := mkDnsEnv {
  d_exchange : string -> Z -> nat -> exchange_result;
  d_ctxErr : Z -> nat -> option error;
  d_a_first : bool
}.

(** The loop of [Client.lookup]: [n] attempts are left, [attempt] is the
    loop counter, [tr] the queries sent so far. *)
Fixpoint lookup_loop (env : dns_env) (host : string) (qtype : Z) (n : nat)
  (attempt : nat) (lastErr : option error) (tr : list query)
  : lookup_result * list query :=
  match n with
  | O => (LookupErr (default ("dns lookup failed for " +:+ host) lastErr), tr)
  | S n' =>
      match d_ctxErr env qtype attempt with
      | Some err => (LookupErr err, tr)
      | None =>
          let tr1 := tr ++ [(host, qtype)] in
          match d_exchange env host qtype attempt with
          | ExchErr err => lookup_loop env host qtype n' (S attempt) (Some err) tr1
          | ExchNil => (LookupErr ErrEmptyMsg, tr1)
          | ExchMsg answer =>
              match parseIPs (Some answer) with
              | LookupErr err =>
                  lookup_loop env host qtype n' (S attempt) (Some err) tr1
              | LookupOk ips => (LookupOk ips, tr1)
              end
          end
      end
  end.

(** [Client.lookup]: attempts [0 .. Retries]. *)
Definition lookup (env : dns_env) (retries : nat) (host : string) (qtype : Z)
  : lookup_result * list query :=
  lookup_loop env host qtype (S retries) 0 None [].

(** [Client.lookupIPs]: both goroutines append under the lock, in the
    order the scheduler lets them in. *)
Definition lookupIPs (env : dns_env) (retries : nat) (host : string)
  : lookup_result * list query :=
  let '(ra, ta) := lookup env retries host TypeA in
  let '(r6, t6) := lookup env retries host TypeAAAA in
  let part (r : lookup_result) : list IPAddr * list error :=
    match r with LookupErr e => ([], [e]) | LookupOk ips => (ips, []) end in
  let '(first, second) := if d_a_first env then (ra, r6) else (r6, ra) in
  let ips := (part first).1 ++ (part second).1 in
  let errs := (part first).2 ++ (part second).2 in
  if decide (length ips = 0%nat)
  then (LookupErr (foldl (fun acc e => acc +:+ "; " +:+ e)
                         ("dns lookup for " +:+ host) errs), ta ++ t6)
  else (LookupOk ips, ta ++ t6).

Section Resolver.

(** [net.ParseIP] comes from Go's library. *)
Variable ParseIP : string -> option IP.

(** [Client.LookupHost]; the second component lists the DNS queries
    the call sent. *)
Definition LookupHost (env : dns_env) (retries : nat) (hostname : string)
  : lookup_result * list query :=
  if decide (TrimSpace hostname = EmptyString)
  then (LookupErr ErrEmptyHostname, [])
  else
    match ParseIP hostname with
    | Some ip => (LookupOk [mkIPAddr ip ""], [])
    | None => lookupIPs env retries hostname
    end.

End Resolver.

(** A little [net.ParseIP] for the examples: the literal [1.1.1.1]. *)
Definition ParseIP_1111 (h : string) : option IP :=
  if decide (h = "1.1.1.1") then Some [1; 1; 1; 1]%N else None.

(** ** The file system and [AtomicWrite] *)

Record file := mkFile { f_data : list N; f_mode : Z }.

(** The files, by path. *)
Abbreviation filesystem := (gmap string file).

(** What goes wrong during one [AtomicWrite]: [mk_temp] is the name
    [CreateTemp] found ([None]: it failed); [wr_short] the number of bytes
    after which [Write] gave up ([None]: all were written); the flags say
    which calls fail. *)
Record faults := mkFaults {
  mk_temp : option string;
  wr_short : option nat;
  sync_fails : bool;
  close_fails : bool;
  chmod_fails : bool;
  rename_fails : bool;
  remove_fails : bool;
  opendir_fails : bool;
  dirsync_fails : bool;
  dirclose_fails : bool
}.

(** [FileOps.CreateTemp]: a new file, mode 0600, opened with [O_EXCL]. *)
Definition CreateTemp (fs : filesystem) (ft : faults)
  : option (filesystem * string) :=
  match mk_temp ft with
  | None => None
  | Some name =>
      match fs !! name with
      | Some _ => None
      | None => Some (<[name := mkFile [] 384]> fs, name)
      end
  end.

(** [File.Write]: all the bytes, or an error after some of them. *)
Definition fWrite (fs : filesystem) (ft : faults) (name : string)
  (data : list N) : filesystem * bool :=
  match wr_short ft with
  | Some n => (alter (fun f => mkFile (take n data) (f_mode f)) name fs, false)
  | None => (alter (fun f => mkFile data (f_mode f)) name fs, true)
  end.

(** [FileOps.Remove] *)
Definition fRemove (fs : filesystem) (ft : faults) (name : string)
  : filesystem * bool :=
  if remove_fails ft then (fs, false) else (delete name fs, true).

(** [FileOps.Chmod] *)
Definition fChmod (fs : filesystem) (ft : faults) (name : string) (perm : Z)
  : filesystem * bool :=
  if chmod_fails ft then (fs, false)
  else (alter (fun f => mkFile (f_data f) perm) name fs, true).

(** [FileOps.Rename]: the old name goes, the new one holds the file. *)
Definition fRename (fs : filesystem) (ft : faults) (old new : string)
  : filesystem * bool :=
  if rename_fails ft then (fs, false)
  else match fs !! old with
       | None => (fs, false)
       | Some f => (<[new := f]> (delete old fs), true)
       end.

Record write_result := mkWriteResult {
  wr_fs : filesystem;
  wr_ok : bool;            (* the returned error is nil *)
  wr_warnings : nat        (* warnings printed to stderr *)
}.

(** [AtomicWrite] *)
Definition AtomicWrite (fs : filesystem) (ft : faults) (dst : string)
  (data : list N) (perm : Z) : write_result :=
  match CreateTemp fs ft with
  | None => mkWriteResult fs false 0
  | Some (fs1, tmp) =>
      let '(fs2, wrote) := fWrite fs1 ft tmp data in
      let synced := if wrote then negb (sync_fails ft) else false in
      let closed := negb (close_fails ft) in
      if negb (synced && closed) then
        let '(fs3, removed) := fRemove fs2 ft tmp in
        mkWriteResult fs3 false (if removed then 0 else 1)
      else
        let '(fs3, chmoded) := fChmod fs2 ft tmp perm in
        if negb chmoded then
          let '(fs4, removed) := fRemove fs3 ft tmp in
          mkWriteResult fs4 false (if removed then 0 else 1)
        else
          let '(fs4, renamed) := fRename fs3 ft tmp dst in
          if negb renamed then
            let '(fs5, removed) := fRemove fs4 ft tmp in
            mkWriteResult fs5 false (if removed then 0 else 1)
          else
            (* fsync of the directory: failures are only logged *)
            let warnings :=
              if opendir_fails ft then 0%nat
              else ((if dirsync_fails ft then 1 else 0) +
                    (if dirclose_fails ft then 1 else 0))%nat in
            mkWriteResult fs4 true warnings
  end.

(** The atomic-write property as the specification words it: on an error
    the destination is as before and the temp file is gone; on success the
    destination holds the data with the mode. *)
Definition atomic_write_as_stated : Prop :=
  forall (fs : filesystem) ft (dst : string) data perm,
    let r := AtomicWrite fs ft dst data perm in
    (wr_ok r = false ->
       wr_fs r !! dst = fs !! dst /\
       forall fs1 tmp, CreateTemp fs ft = Some (fs1, tmp) ->
                       wr_fs r !! tmp = None) /\
    (wr_ok r = true -> wr_fs r !! dst = Some (mkFile data perm)).

(** A run in which [Write] fails at once and so does the [Remove] of the
    temp file. *)
Definition faults_write_and_remove : faults :=
  mkFaults (Some "/etc/pf.anchors/.void-1") (Some 0%nat)
           false false false false true false false false.

(** A run without faults. *)
Definition faults_none : faults :=
  mkFaults (Some "/etc/pf.anchors/.void-1") None
           false false false false false false false false.

(** ** The anchor codec

    The package that holds the anchor parser [walk] and the emitter is not
    among the sources; only its tests are.  The definitions of this part
    follow the component design of the codec, and the fixtures of the tests
    for the literal text. *)

Definition LF : ascii := ascii_of_N 10.
Definition CR : ascii := ascii_of_N 13.
Definition dquote : ascii := ascii_of_N 34.

(** Modelled from the spec: the error kinds of the anchor parser, whose code
    is not among the sources. *)
Inductive codec_error := OrphanEnd | NestedBegin | MismatchedId | DuplicateId.

(** Modelled from the spec: the line reader of the anchor parser (the
    parser's code is not among the sources); the input is cut at every LF. *)
Fixpoint split_lines (s : string) : list string :=
  match s with
  | EmptyString => [EmptyString]
  | String c r =>
      if Ascii.eqb c LF then EmptyString :: split_lines r
      else match split_lines r with
           | l :: ls => String c l :: ls
           | [] => [String c EmptyString]
           end
  end.

(** Modelled from the spec: CRLF line endings are tolerated by the anchor
    parser (code not among the sources): one CR at the end of a line is
    dropped. *)
Fixpoint chomp_cr (s : string) : string :=
  match s with
  | EmptyString => EmptyString
  | String c r =>
      match r with
      | EmptyString => if Ascii.eqb c CR then EmptyString else s
      | String _ _ => String c (chomp_cr r)
      end
  end.

Fixpoint strip_prefix (p s : string) : option string :=
  match p with
  | EmptyString => Some s
  | String c p' =>
      match s with
      | EmptyString => None
      | String d s' => if Ascii.eqb c d then strip_prefix p' s' else None
      end
  end.

Fixpoint srev (s : string) : string :=
  match s with
  | EmptyString => EmptyString
  | String c r => srev r ++ String c EmptyString
  end.

Definition strip_suffix (suf s : string) : option string :=
  srev <$> strip_prefix (srev suf) (srev s).

Fixpoint no_space (s : string) : bool :=
  match s with
  | EmptyString => true
  | String c r => negb (is_space c) && no_space r
  end.

(** Modelled from the spec: the id of a delimiter is a token without white
    space (anchor parser, code not among the sources). *)
Definition is_token (s : string) : bool :=
  negb (String.eqb s EmptyString) && no_space s.

(** No CR and no LF in the text. *)
Fixpoint clean (s : string) : bool :=
  match s with
  | EmptyString => true
  | String c r => negb (Ascii.eqb c LF) && negb (Ascii.eqb c CR) && clean r
  end.

(** Modelled from the spec: the fixed text of the lines of a managed block
    in the anchor grammar (the codec's code is not among the sources). *)
Definition delim_prefix : string := "# === VOID-RULE ".
(** Modelled from the spec: end of a BEGIN delimiter (codec not among the
    sources). *)
Definition begin_suffix : string := " BEGIN ===".
(** Modelled from the spec: end of an END delimiter (codec not among the
    sources). *)
Definition end_suffix : string := " END ===".
(** Modelled from the spec: the domain header (codec not among the
    sources). *)
Definition domain_prefix : string := "# Domain: ".
(** Modelled from the spec: the expiry header (codec not among the
    sources). *)
Definition expires_prefix : string := "# Expires: ".
(** Modelled from the spec: the tcp body line up to its address (codec not
    among the sources). *)
Definition tcp_prefix : string := "block return out proto tcp from any to ".
(** Modelled from the spec: the udp body line up to its address (codec not
    among the sources). *)
Definition udp_prefix : string := "block return out proto udp from any to ".

(** Modelled from the spec: a delimiter line of the anchor grammar is
    recognised by its exact prefix and suffix around a token (anchor parser,
    code not among the sources). *)
Definition delimiter (suf line : string) : option string :=
  mid ← strip_prefix delim_prefix line;
  id ← strip_suffix suf mid;
  if is_token id then Some id else None.

(** Modelled from the spec: the kinds of line that the anchor parser tells
    apart (its code is not among the sources). *)
Inductive line_kind :=
| LBegin (id : string)
| LEnd (id : string)
| LDomain (d : string)
| LExpires (t : string)
| LAddr (a : string)
| LOther.

(** Modelled from the spec: the line forms of a managed block in the anchor
    grammar (anchor parser, code not among the sources). *)
Definition classify (line : string) : line_kind :=
  match delimiter begin_suffix line with
  | Some id => LBegin id
  | None =>
  match delimiter end_suffix line with
  | Some id => LEnd id
  | None =>
  match strip_prefix domain_prefix line with
  | Some d => LDomain d
  | None =>
  match strip_prefix expires_prefix line with
  | Some t => LExpires t
  | None =>
  match strip_prefix tcp_prefix line with
  | Some a => LAddr a
  | None =>
  match strip_prefix udp_prefix line with
  | Some a => LAddr a
  | None => LOther
  end end end end end end.

(** Modelled from the spec: the open block of the anchor parser (code not
    among the sources): what it has read of the rule so far. *)
Record block := mkBlock {
  b_id : string;
  b_domain : string;
  b_expires : option Time;
  b_ips : list IPAddr
}.

Global Instance IPAddr_eq_dec : EqDecision IPAddr.
Proof. solve_decision. Defined.

(** Modelled from the spec: the addresses of a block are deduplicated across
    the tcp and udp lines (anchor parser, code not among the sources). *)
Definition add_ip (l : list IPAddr) (a : IPAddr) : list IPAddr :=
  if decide (a ∈ l) then l else l ++ [a].

(** Modelled from the spec: the rule of a complete block; an [Expires]
    header makes the rule temporary, its absence makes it permanent with a
    zero expiry; the time of resolution is not part of the grammar (anchor
    parser, code not among the sources). *)
Definition rule_of_block (b : block) : Rule :=
  mkRule (b_id b) (b_domain b) (b_ips b)
         (default zeroTime (b_expires b))
         (bool_decide (b_expires b = None))
         zeroTime.

Section AnchorCodec.

(** [Time.Format(time.RFC3339)] and [time.Parse(time.RFC3339, _)] *)
Variable formatTime : Time -> string.
Variable parseTime : string -> option Time.
(** [net.IP.String] and [net.ParseIP] *)
Variable IPString : IP -> string.
Variable ParseIP : string -> option IP.

(** Modelled from the spec: the anchor parser [walk] over the lines of the
    input (its code is not among the sources).  [cur] is the open block,
    [done] the rules of the complete blocks in file order.  A block that is
    still open at the end of the input is dropped; a body line that is none
    of the known forms, or whose time or address does not parse, is
    ignored. *)
Fixpoint walk_lines (ls : list string) (cur : option block)
    (done : list Rule) : codec_error + list Rule :=
  match ls with
  | [] => inr done
  | l :: ls' =>
      match classify (chomp_cr l), cur with
      | LBegin id, None => walk_lines ls' (Some (mkBlock id EmptyString None [])) done
      | LBegin _, Some _ => inl NestedBegin
      | LEnd _, None => inl OrphanEnd
      | LEnd id, Some b =>
          if decide (id = b_id b) then
            if decide (id ∈ ID <$> done) then inl DuplicateId
            else walk_lines ls' None (done ++ [rule_of_block b])
          else inl MismatchedId
      | LDomain d, Some b =>
          walk_lines ls' (Some (mkBlock (b_id b) d (b_expires b) (b_ips b))) done
      | LExpires t, Some b =>
          match parseTime t with
          | Some e =>
              walk_lines ls' (Some (mkBlock (b_id b) (b_domain b) (Some e) (b_ips b))) done
          | None => walk_lines ls' cur done
          end
      | LAddr a, Some b =>
          match ParseIP a with
          | Some ip =>
              walk_lines ls'
                (Some (mkBlock (b_id b) (b_domain b) (b_expires b)
                               (add_ip (b_ips b) (mkIPAddr ip EmptyString)))) done
          | None => walk_lines ls' cur done
          end
      | _, _ => walk_lines ls' cur done
      end
  end.

(** Modelled from the spec: the anchor parser on a byte stream (its code is
    not among the sources). *)
Definition walk (input : string) : codec_error + list Rule :=
  walk_lines (split_lines input) None [].

(** Modelled from the spec: the fixed header of the canonical form (emitter,
    code not among the sources); the text is the one of the test fixtures. *)
Definition header_lines : list string :=
  [ "# void-anchor";
    "# Options";
    "set block-policy drop";
    "set fingerprints " ++ String dquote "/etc/pf.os" ++ String dquote EmptyString;
    "set ruleset-optimization basic";
    "set skip on lo0";
    EmptyString;
    "# void ruleset for blocking sites" ]%string.

(** Modelled from the spec: the tcp and udp pair of one address (emitter,
    code not among the sources). *)
Definition addr_lines (a : IPAddr) : list string :=
  [ tcp_prefix ++ IPString (ip_IP a); udp_prefix ++ IPString (ip_IP a) ]%string.

(** Modelled from the spec: the managed block of one rule, each address as a
    tcp and udp pair of bare literals (emitter, code not among the
    sources). *)
Definition emit_rule (r : Rule) : list string :=
  [ delim_prefix ++ ID r ++ begin_suffix; domain_prefix ++ Domain r ]%string
  ++ (if Permanent r then [] else [ (expires_prefix ++ formatTime (Expires r))%string ])
  ++ flat_map addr_lines (IPs r)
  ++ [ (delim_prefix ++ ID r ++ end_suffix)%string ].

(** Modelled from the spec: a rule with an empty address set is not
    written to the anchor file (emitter, code not among the sources). *)
Definition has_ips (r : Rule) : bool :=
  match IPs r with [] => false | _ :: _ => true end.

(** Modelled from the spec: every line of the anchor file ends in LF
    (emitter, code not among the sources). *)
Definition unlines (ls : list string) : string :=
  foldr (fun l acc => (l ++ String LF acc)%string) EmptyString ls.

(** Modelled from the spec: the emitter (code not among the sources): the
    fixed header, then the rules in the order of the list; a rule without
    addresses is not written to the anchor file. *)
Definition emit (xs : list Rule) : string :=
  unlines (header_lines ++ flat_map emit_rule (List.filter has_ips xs)).

(** The text of an instant, or of an address, reads back as the value. *)
Definition time_text_ok (t : Time) : Prop :=
  parseTime (formatTime t) = Some t /\ clean (formatTime t) = true.

Definition ip_text_ok (ip : IP) : Prop :=
  ParseIP (IPString ip) = Some ip /\ clean (IPString ip) = true.

(** The rules that the grammar can carry. *)
Record codec_rule_ok (r : Rule) : Prop := {
  ok_id : is_token (ID r) = true;
  ok_domain : clean (Domain r) = true;
  ok_ips : IPs r <> [];
  ok_addr : Forall (fun a => ip_Zone a = EmptyString /\ ip_text_ok (ip_IP a)) (IPs r);
  ok_permanent : Permanent r = true -> Expires r = zeroTime;
  ok_expires : Permanent r = false -> time_text_ok (Expires r)
}.

End AnchorCodec.

(** Equality of rules with the addresses taken as a set. *)
Definition rule_same (r r' : Rule) : Prop :=
  ID r = ID r' /\ Domain r = Domain r' /\ Expires r = Expires r' /\
  Permanent r = Permanent r' /\ ResolvedAt r = ResolvedAt r' /\
  forall a, a ∈ IPs r <-> a ∈ IPs r'.

(** Equality of rules in what a managed block carries: every field but the
    time of resolution, the addresses taken as a set; the rule on the right,
    the one that was read, has a zero [ResolvedAt]. *)
Definition rule_carried (r r' : Rule) : Prop :=
  ID r = ID r' /\ Domain r = Domain r' /\ Expires r = Expires r' /\
  Permanent r = Permanent r' /\ ResolvedAt r' = zeroTime /\
  forall a, a ∈ IPs r <-> a ∈ IPs r'.

Definition roundtrip_at formatTime parseTime IPString ParseIP (xs : list Rule) : Prop :=
  exists ys,
    walk parseTime ParseIP (emit formatTime IPString xs) = inr ys /\
    Forall2 rule_same xs ys.

(** The round-trip law for every rule list, for some text forms of instants
    and addresses. *)
Definition roundtrip_as_stated : Prop :=
  exists formatTime parseTime IPString ParseIP,
    forall xs, roundtrip_at formatTime parseTime IPString ParseIP xs.

(** The values of the text functions on the instants and addresses of the
    test fixtures; elsewhere a fixed text, or no value. *)
Definition t_fixture : Time := 63881464236000000000.

Definition formatTime_fixture (t : Time) : string :=
  if decide (t = t_fixture) then "2025-04-28T14:10:36-05:00"
  else "0001-01-01T00:00:00Z".

Definition parseTime_fixture (s : string) : option Time :=
  if decide (s = "2025-04-28T14:10:36-05:00") then Some t_fixture
  else if decide (s = "0001-01-01T00:00:00Z") then Some zeroTime
  else None.

Definition ip_1337 : IP := [0;0;0;0;0;0;0;0;0;0;255;255;1;3;3;7]%N.
Definition ip_1338 : IP := [0;0;0;0;0;0;0;0;0;0;255;255;1;3;3;8]%N.

Definition IPString_fixture (ip : IP) : string :=
  if decide (ip = ip_1337) then "1.3.3.7"
  else if decide (ip = ip_1338) then "1.3.3.8"
  else "<nil>".

Definition ParseIP_fixture (s : string) : option IP :=
  if decide (s = "1.3.3.7") then Some ip_1337
  else if decide (s = "1.3.3.8") then Some ip_1338
  else None.

Definition rule_temp_fixture : Rule :=
  mkRule "C06B2055-B1FF-4C98-B0C6-6967BD59D514" "example.com"
         [mkIPAddr ip_1337 EmptyString; mkIPAddr ip_1338 EmptyString; mkIPAddr ip_1337 EmptyString]
         t_fixture false zeroTime.

Definition rule_perm_fixture : Rule :=
  mkRule "C06B2055-B1FF-4C98-B0C6-6967BD59D512" "example.org"
         [mkIPAddr ip_1338 EmptyString] zeroTime true zeroTime.

(** A rule as the block handler stores it: the time of resolution is set. *)
Definition rule_resolved_fixture : Rule :=
  mkRule "C06B2055-B1FF-4C98-B0C6-6967BD59D511" "example.net"
         [mkIPAddr ip_1337 EmptyString] zeroTime true 63881457036000000000.


(** The rule as it reads back from its block: one copy of each address, in
    the order of first occurrence, and no time of resolution. *)
Definition read_back (r : Rule) : Rule :=
  mkRule (ID r) (Domain r) (foldl add_ip [] (IPs r))
         (Expires r) (Permanent r) zeroTime.

(** A line that is no delimiter. *)
Definition plain_line (l : string) : bool :=
  match classify (chomp_cr l) with
  | LBegin _ | LEnd _ => false
  | _ => true
  end.

(** ** More of the store, the engine, the resolver and the configuration *)

(** The loop of [MemoryStore.NextRefresh] over the records of the id map,
    in the order the range takes them. *)
Fixpoint next_refresh_loop (rr : Z) (soonest : Time) (l : list Rule) : Time :=
  match l with
  | [] => soonest
  | r :: rest =>
      let ts := ResolvedAt r + rr in
      next_refresh_loop rr (if Before ts soonest then ts else soonest) rest
  end.

(** [MemoryStore.NextRefresh]; [now] is what [time.Now()] read, [order]
    the rules in the order the range over the id map took them. *)
Definition NextRefresh (now : Time) (rr : Z) (order : list Rule) : Time :=
  next_refresh_loop rr (now + rr) order.

(** [Engine.handleUnblock]; the command is its id. *)
Definition handleUnblock (s : MemoryStore) (id : string)
  : option (MemoryStore * bool * option error) :=
  '(s1, removed) ← Remove s id;
  match removed with
  | Some _ => Some (s1, true, None)
  | None => Some (s1, false, None)
  end.

(** What [pfMgr.CurrentRules] gives back: an error that is
    [fs.ErrNotExist], another error, or the rules of the anchor file. *)
Inductive current_rules :=
| CurNotExist
| CurErr (err : error)
| CurRules (rs : list Rule).

(** The copy of a rule that [loadInitialRules] hands to [Upsert]. *)
Definition ruleToLoad (now : Time) (r : Rule) : Rule :=
  if IsZero (ResolvedAt r)
  then mkRule (ID r) (Domain r) (IPs r) (Expires r) (Permanent r) now
  else r.

(** The loop of [loadInitialRules]; [clock i] is what [time.Now()] reads in
    round [i]. *)
Fixpoint load_loop (s : MemoryStore) (clock : nat -> Time) (i : nat)
  (rs : list Rule) (loadedCount : Z) : option (MemoryStore * Z) :=
  match rs with
  | [] => Some (s, loadedCount)
  | r :: rest =>
      '(s1, changed) ← Upsert s (ruleToLoad (clock i) r);
      load_loop s1 clock (S i) rest
                (if changed : bool then loadedCount + 1 else loadedCount)
  end.

(** [Engine.loadInitialRules]: the store, the number of rules it logs as
    loaded and the error, if any. *)
Definition loadInitialRules (s : MemoryStore) (cur : current_rules)
  (clock : nat -> Time) : option (MemoryStore * Z * option error) :=
  match cur with
  | CurNotExist => Some (s, 0, None)
  | CurErr err => Some (s, 0, Some ("pfMgr.CurrentRules failed: " +:+ err))
  | CurRules rs =>
      if decide (length rs = 0%nat) then Some (s, 0, None)
      else '(s1, n) ← load_loop s clock 0 rs 0; Some (s1, n, None)
  end.

(** [Client.getResolver]; [rnd] is what [rand.Int] gave for the bound
    [len(r.Resolvers)]: an error, or a number below the bound.  An index
    out of range is a panic. *)
Definition getResolver (resolvers : list string) (rnd : option nat)
  : option string :=
  if decide (length resolvers = 0%nat) then Some "1.1.1.1:53"
  else match rnd with
       | None => resolvers !! 0%nat
       | Some n => resolvers !! n
       end.

(** [config.Config], flattened. *)
Record Config := mkConfig {
  SocketPath : string;
  RefreshInterval : Z;
  DNSTimeout : Z
}.

Definition second : Z := 1000000000.

(** [config.Default] *)
Definition Default : Config :=
  mkConfig "/var/run/voidd.socket" (5 * minute) (5 * second).

(** [Config.Validate]: [None] is the nil error. *)
Definition Validate (c : Config) : option error :=
  if decide (TrimSpace (SocketPath c) = EmptyString)
  then Some "socket path cannot be empty"
  else if decide (RefreshInterval c < minute)
  then Some "refresh interval must be at least 1 minute"
  else if decide (DNSTimeout c < second)
  then Some "DNS timeout must be at least 1 second"
  else None.

(** What [loadAndParse] gives back: [ErrNoConfig], another error, or the
    decoded configuration. *)
Inductive parse_result :=
| ParseNoConfig
| ParseErr (err : error)
| ParseOk (c : Config).

(** [FSProvider.Load], from what [loadAndParse] gave. *)
Definition FSProvider_Load (parsed : parse_result) : Config + error :=
  match parsed with
  | ParseNoConfig => inl Default
  | ParseErr err => inr err
  | ParseOk cfg =>
      match Validate cfg with
      | Some err => inr ("invalid configuration: " +:+ err)
      | None => inl cfg
      end
  end.

(** An exchange after which [Client.lookup] tries again: an error, or a
    message without an A or AAAA answer. *)
Definition retried (x : exchange_result) : Prop :=
  match x with
  | ExchErr _ => True
  | ExchNil => False
  | ExchMsg answer => answer_ips answer = []
  end.

(** ** Heap order, slot by slot *)

(** The key of a record: its [Expires]. *)
Definition ekey (s : MemoryStore) (p : ptr) : Z :=
  match deref s p with
  | Some e => Expires (rule e)
  | None => 0
  end.

(** The key at a slot of the heap. *)
Definition hkey (s : MemoryStore) (i : nat) : option Z :=
  ekey s <$> (expH s !! i).

(** Slot [b] is a child of slot [a]. *)
Definition child_of (a b : nat) : Prop :=
  b = (2 * a + 1)%nat \/ b = (2 * a + 2)%nat.

(** The key at [a] is not after the key at [b]. *)
Definition le_at (K : nat -> option Z) (a b : nat) : Prop :=
  forall ka kb, K a = Some ka -> K b = Some kb -> ka <= kb.

(** Heap order among the first [n] slots. *)
Definition heap_upto (K : nat -> option Z) (n : nat) : Prop :=
  forall a b, (b < n)%nat -> child_of a b -> le_at K a b.

(** What [up] starts from at slot [j]: heap order but for the pair of [j]
    and its parent, the children of [j] being in order with that parent. *)
Definition up_inv (K : nat -> option Z) (j n : nat) : Prop :=
  (forall a b, (b < n)%nat -> child_of a b -> b <> j -> le_at K a b) /\
  (forall g c, child_of g j -> child_of j c -> (c < n)%nat -> le_at K g c).

(** What [down] starts from at slot [i]: heap order among the pairs that [i]
    is no part of, the children of [i] being in order with its parent. *)
Definition down_inv (K : nat -> option Z) (i n : nat) : Prop :=
  (forall a b, (b < n)%nat -> child_of a b -> a <> i -> b <> i -> le_at K a b) /\
  (forall g c, child_of g i -> child_of i c -> (c < n)%nat -> le_at K g c).



(** * Theorems *)

(** ** Slots and objects *)

Lemma bind_Some {A B} (x : A) (f : A -> option B) : (Some x ≫= f) = f x.
Proof. reflexivity. Qed.


Lemma slot_of_nat (h : list ptr) (i : nat) : slot h (Z.of_nat i) = h !! i.
Proof.
  unfold slot. destruct (decide (0 <= Z.of_nat i)) as [_|Hn]; [|lia].
  by rewrite Nat2Z.id.
Qed.

Lemma slot_Some (h : list ptr) (i : Z) p :
  slot h i = Some p -> exists k : nat, i = Z.of_nat k /\ h !! k = Some p.
Proof.
  unfold slot. destruct (decide (0 <= i)) as [Hi|]; [|done].
  intros Hp. exists (Z.to_nat i). split; [lia|done].
Qed.

Lemma with_heapIdx_same e i : heapIdx e = i -> with_heapIdx i e = e.
Proof. destruct e as [r k]. simpl. by intros ->. Qed.

Lemma upd_entry_Some s p f e :
  deref s p = Some e ->
  upd_entry s p f = Some (set_mem s (<[p := f e]> (mem s))).
Proof. unfold upd_entry. by intros ->. Qed.

Lemma deref_set_mem_eq s p e m :
  (p < length m)%nat -> deref (set_mem s (<[p := e]> m)) p = Some e.
Proof. intros Hp. unfold deref. simpl. by apply list_lookup_insert_eq. Qed.

Lemma same_rules_refl s : same_rules s s.
Proof. by repeat split. Qed.

Lemma same_rules_trans s1 s2 s3 :
  same_rules s1 s2 -> same_rules s2 s3 -> same_rules s1 s3.
Proof.
  intros (Ha & Hb & Hc & Hd) (Ha' & Hb' & Hc' & Hd').
  split; [congruence|]. split; [congruence|]. split; [congruence|].
  intros p. by rewrite Hd', Hd.
Qed.

Lemma heap_moved_refl n s : slots_ok s -> heap_moved n s s.
Proof. intros Hs. split; [apply same_rules_refl|]. by repeat split. Qed.

Lemma heap_moved_trans n s1 s2 s3 :
  heap_moved n s1 s2 -> heap_moved n s2 s3 -> heap_moved n s1 s3.
Proof.
  intros (Hr & _ & Hl & Hm & Hk) (Hr' & Hs' & Hl' & Hm' & Hk').
  split; [by eapply same_rules_trans|]. split; [done|].
  split; [congruence|]. split.
  - intros p. by rewrite Hm', Hm.
  - intros k Hle. by rewrite Hk', Hk.
Qed.

Lemma heap_moved_mono n m s s' :
  (n <= m)%nat -> heap_moved n s s' -> heap_moved m s s'.
Proof.
  intros Hnm (Hr & Hs & Hl & Hm & Hk).
  split; [done|]. split; [done|]. split; [done|]. split; [done|].
  intros k Hle. apply Hk. lia.
Qed.

Lemma slots_ok_inj s i j p :
  slots_ok s -> expH s !! i = Some p -> expH s !! j = Some p -> i = j.
Proof.
  intros Hs Hi Hj.
  destruct (Hs _ _ Hi) as (e & He & Hidx).
  destruct (Hs _ _ Hj) as (e' & He' & Hidx'). 
  rewrite He in He'. injection He' as <-. lia.
Qed.

(** ** [Swap] *)

Lemma Swap_same s (i : nat) :
  slots_ok s -> (i < length (expH s))%nat ->
  Swap s (Z.of_nat i) (Z.of_nat i) = Some s.
Proof.
  intros Hs Hi. unfold Swap. rewrite slot_of_nat.
  destruct (lookup_lt_is_Some_2 _ _ Hi) as [p Hp]. rewrite Hp. simpl.
  destruct (Hs _ _ Hp) as (e & He & Hidx).
  rewrite Nat2Z.id.
  rewrite (list_insert_id (expH s) i p Hp), (list_insert_id (expH s) i p Hp).
  assert (Hsame : set_expH s (expH s) = s) by (by destruct s).
  rewrite Hsame.
  rewrite (upd_entry_Some _ _ _ _ He). simpl.
  rewrite (with_heapIdx_same _ _ Hidx).
  assert (Hm : set_mem s (<[p := e]> (mem s)) = s).
  { destruct s as [m a b h c]. unfold set_mem. simpl in *. f_equal.
    by apply list_insert_id. }
  rewrite Hm, (upd_entry_Some _ _ _ _ He), (with_heapIdx_same _ _ Hidx).
  by rewrite Hm.
Qed.

Lemma Swap_ok n s (i j : nat) :
  slots_ok s -> (i < length (expH s))%nat -> (j < length (expH s))%nat ->
  (i < n)%nat -> (j < n)%nat ->
  exists s', Swap s (Z.of_nat i) (Z.of_nat j) = Some s' /\ heap_moved n s s' /\
             expH s' !! i = expH s !! j /\ expH s' !! j = expH s !! i.
Proof.
  intros Hs Hi Hj Hin Hjn.
  destruct (decide (i = j)) as [->|Hij].
  { exists s. split; [by apply Swap_same|]. split; [by apply heap_moved_refl|done]. }
  unfold Swap. rewrite !slot_of_nat.
  destruct (lookup_lt_is_Some_2 _ _ Hi) as [pi Hpi].
  destruct (lookup_lt_is_Some_2 _ _ Hj) as [pj Hpj].
  rewrite Hpi, Hpj. simpl.
  destruct (Hs _ _ Hpi) as (ei & Hei & Hidxi).
  destruct (Hs _ _ Hpj) as (ej & Hej & Hidxj).
  assert (Hne : pi <> pj).
  { intros ->. apply Hij. by eapply slots_ok_inj. }
  rewrite !Nat2Z.id.
  set (h' := <[j := pi]> (<[i := pj]> (expH s))).
  assert (Hej' : deref (set_expH s h') pj = Some ej) by done.
  rewrite (upd_entry_Some _ _ _ _ Hej'). simpl.
  set (s1 := set_mem (set_expH s h') (<[pj:=with_heapIdx (Z.of_nat i) ej]> (mem s))).
  assert (Hei' : deref s1 pi = Some ei).
  { unfold deref, s1. simpl. by rewrite list_lookup_insert_ne. }
  rewrite (upd_entry_Some _ _ _ _ Hei').
  eexists. split; [reflexivity|].
  assert (Hlen : length h' = length (expH s)).
  { unfold h'. by rewrite !length_insert. }
  assert (Hh'i : h' !! i = Some pj).
  { unfold h'. rewrite list_lookup_insert_ne by done.
    by apply list_lookup_insert_eq. }
  assert (Hh'j : h' !! j = Some pi).
  { unfold h'. apply list_lookup_insert_eq. by rewrite length_insert. }
  assert (Hh'k : forall k, k <> i -> k <> j -> h' !! k = expH s !! k).
  { intros k Hki Hkj. unfold h'. by rewrite !list_lookup_insert_ne. }
  assert (Hpi_lt : (pi < length (mem s))%nat) by (by eapply lookup_lt_Some).
  assert (Hpj_lt : (pj < length (mem s))%nat) by (by eapply lookup_lt_Some).
  split; [|unfold s1; cbn [expH set_mem set_expH]; by rewrite Hh'i, Hh'j].
  unfold s1.
  split; [|split; [|split; [|split]]]; simpl.
  - (* same_rules *)
    repeat split; try done. intros p. unfold deref. simpl.
    destruct (decide (p = pi)) as [->|Hppi].
    { rewrite list_lookup_insert_eq by (by rewrite length_insert).
      unfold deref in Hei. by rewrite Hei. }
    rewrite list_lookup_insert_ne by done.
    destruct (decide (p = pj)) as [->|Hppj].
    { rewrite list_lookup_insert_eq by done.
      unfold deref in Hej. by rewrite Hej. }
    by rewrite list_lookup_insert_ne.
  - (* slots_ok *)
    intros k p Hk. unfold deref. simpl in *.
    destruct (decide (k = j)) as [->|Hkj].
    { rewrite Hh'j in Hk. injection Hk as <-.
      rewrite list_lookup_insert_eq by (by rewrite length_insert). eauto. }
    destruct (decide (k = i)) as [->|Hki].
    { rewrite Hh'i in Hk. injection Hk as <-.
      rewrite list_lookup_insert_ne by done.
      rewrite list_lookup_insert_eq by done. eauto. }
    rewrite Hh'k in Hk by done.
    assert (p <> pi) by (intros ->; apply Hki; by eapply slots_ok_inj).
    assert (p <> pj) by (intros ->; apply Hkj; by eapply slots_ok_inj).
    rewrite !list_lookup_insert_ne by done. by apply Hs.
  - done.
  - intros p. rewrite !list_elem_of_lookup. split; intros [k Hk].
    + destruct (decide (k = j)) as [->|Hkj].
      { rewrite Hh'j in Hk. injection Hk as <-. eauto. }
      destruct (decide (k = i)) as [->|Hki].
      { rewrite Hh'i in Hk. injection Hk as <-. eauto. }
      rewrite Hh'k in Hk by done. eauto.
    + destruct (decide (k = j)) as [->|Hkj].
      { rewrite Hpj in Hk. injection Hk as <-. eauto. }
      destruct (decide (k = i)) as [->|Hki].
      { rewrite Hpi in Hk. injection Hk as <-. eauto. }
      exists k. by rewrite Hh'k.
  - intros k Hk. apply Hh'k; lia.
Qed.

(** ** [Less], [up], [down] *)

Lemma Less_ok s (i j : nat) :
  slots_ok s -> (i < length (expH s))%nat -> (j < length (expH s))%nat ->
  exists b, Less s (Z.of_nat i) (Z.of_nat j) = Some b.
Proof.
  intros Hs Hi Hj. unfold Less. rewrite !slot_of_nat.
  destruct (lookup_lt_is_Some_2 _ _ Hi) as [pi Hpi].
  destruct (lookup_lt_is_Some_2 _ _ Hj) as [pj Hpj].
  destruct (Hs _ _ Hpi) as (ei & Hei & _).
  destruct (Hs _ _ Hpj) as (ej & Hej & _).
  rewrite Hpi, Hpj. simpl. rewrite Hei. simpl. rewrite Hej. simpl. eauto.
Qed.

Lemma parent_of_nat (j : nat) :
  (0 < j)%nat -> Z.quot (Z.of_nat j - 1) 2 = Z.of_nat ((j - 1) / 2).
Proof.
  intros Hj. rewrite Z.quot_div_nonneg by lia.
  replace (Z.of_nat j - 1) with (Z.of_nat (j - 1)) by lia.
  by rewrite Nat2Z.inj_div.
Qed.

Lemma up_ok fuel : forall s (j : nat),
  slots_ok s -> (j < length (expH s))%nat -> (j < fuel)%nat ->
  exists s', up fuel s (Z.of_nat j) = Some s' /\ heap_moved (S j) s s'.
Proof.
  induction fuel as [|f IH]; intros s j Hs Hj Hf; [lia|].
  simpl. destruct (decide (j = 0%nat)) as [->|Hj0].
  { simpl. exists s. split; [done|]. by apply heap_moved_refl. }
  rewrite parent_of_nat by lia.
  set (i := ((j - 1) / 2)%nat).
  assert (Hij : (i < j)%nat).
  { unfold i. apply Nat.Div0.div_lt_upper_bound. lia. }
  destruct (decide (Z.of_nat i = Z.of_nat j)) as [Heq|_]; [lia|].
  destruct (Less_ok s j i Hs Hj ltac:(lia)) as [b Hb]. rewrite Hb. simpl.
  destruct b; simpl; [|exists s; split; [done|by apply heap_moved_refl]].
  destruct (Swap_ok (S j) s i j Hs ltac:(lia) Hj ltac:(lia) ltac:(lia))
    as (s1 & Hsw & Hmv & _).
  rewrite Hsw. simpl.
  pose proof Hmv as (Hr & Hs1 & Hl & Hm & Hk).
  destruct (IH s1 i Hs1 ltac:(lia) ltac:(lia)) as (s' & Hup & Hmv').
  exists s'. split; [done|].
  eapply heap_moved_trans; [exact Hmv|].
  eapply heap_moved_mono; [|done]. lia.
Qed.

Lemma down_ok fuel : forall s (i0 i n : nat),
  slots_ok s -> (n <= length (expH s))%nat -> (n - i < fuel)%nat ->
  exists s' b,
    down fuel s (Z.of_nat i0) (Z.of_nat i) (Z.of_nat n) = Some (s', b) /\
    heap_moved n s s'.
Proof.
  induction fuel as [|f IH]; intros s i0 i n Hs Hn Hf; [lia|].
  simpl.
  destruct (decide (2 * Z.of_nat i + 1 >= Z.of_nat n \/ 2 * Z.of_nat i + 1 < 0))
    as [_|Hin].
  { do 2 eexists. split; [done|]. by apply heap_moved_refl. }
  assert (Hj1 : (2 * i + 1 < n)%nat) by lia.
  replace (2 * Z.of_nat i + 1) with (Z.of_nat (2 * i + 1)) by lia.
  replace (Z.of_nat (2 * i + 1) + 1) with (Z.of_nat (2 * i + 2)) by lia.
  assert (Hb2 : exists b2,
    (if decide (Z.of_nat (2 * i + 2) < Z.of_nat n)
     then Less s (Z.of_nat (2 * i + 2)) (Z.of_nat (2 * i + 1))
     else Some false) = Some b2 /\
    (b2 = true -> (2 * i + 2 < n)%nat)).
  { destruct (decide (Z.of_nat (2 * i + 2) < Z.of_nat n)) as [Hlt|Hge].
    - destruct (Less_ok s (2 * i + 2) (2 * i + 1) Hs ltac:(lia) ltac:(lia))
        as [b Hb]. exists b. split; [done|]. intros _. lia.
    - exists false. split; [done|]. discriminate. }
  destruct Hb2 as (b2 & -> & Hb2). rewrite bind_Some.
  set (j := if b2 then (2 * i + 2)%nat else (2 * i + 1)%nat).
  assert (Hj : (if b2 then Z.of_nat (2 * i + 2) else Z.of_nat (2 * i + 1))
               = Z.of_nat j) by (unfold j; by destruct b2).
  rewrite Hj.
  assert (Hjn : (j < n)%nat).
  { unfold j. destruct b2; [by apply Hb2|done]. }
  assert (Hij : (i < j)%nat) by (unfold j; destruct b2; lia).
  destruct (Less_ok s j i Hs ltac:(lia) ltac:(lia)) as [b Hb].
  rewrite Hb. simpl.
  destruct b; simpl;
    [|do 2 eexists; split; [done|by apply heap_moved_refl]].
  destruct (Swap_ok n s i j Hs ltac:(lia) ltac:(lia) ltac:(lia) Hjn)
    as (s1 & Hsw & Hmv & _).
  rewrite Hsw. simpl.
  pose proof Hmv as (Hr & Hs1 & Hl & Hm & Hk).
  destruct (IH s1 i0 j n Hs1 ltac:(lia) ltac:(lia)) as (s' & b' & Hdn & Hmv').
  exists s', b'. split; [done|].
  eapply heap_moved_trans; [exact Hmv|done].
Qed.

(** ** The heap operations *)

Lemma Len_pred s :
  (0 < length (expH s))%nat -> Len s - 1 = Z.of_nat (length (expH s) - 1).
Proof. unfold Len. lia. Qed.

Lemma moved_popped n p s s1 s' :
  heap_moved n s s1 -> heap_popped p s1 s' -> heap_popped p s s'.
Proof.
  intros (Hr & _ & Hl & Hm & _) (Hr' & Hs' & Hl' & Hm' & Hp).
  split; [by eapply same_rules_trans|]. split; [done|].
  split; [congruence|]. split; [|done].
  intros q. by rewrite <- Hm, Hm'.
Qed.

Lemma hPop_ok s p :
  slots_ok s -> (0 < length (expH s))%nat ->
  expH s !! (length (expH s) - 1)%nat = Some p ->
  exists s', hPop s = Some (s', p) /\ heap_popped p s s'.
Proof.
  intros Hs Hlen Hp. unfold hPop.
  rewrite Len_pred by done. rewrite slot_of_nat, Hp, bind_Some.
  destruct (Hs _ _ Hp) as (e & He & Hidx).
  rewrite (upd_entry_Some _ _ _ _ He), bind_Some.
  eexists. split; [reflexivity|]. rewrite Nat2Z.id.
  cbn [set_mem set_expH expH mem].
  set (n := (length (expH s) - 1)%nat) in *.
  assert (Hp_lt : (p < length (mem s))%nat) by (by eapply lookup_lt_Some).
  assert (Htake : forall k q, take n (expH s) !! k = Some q ->
                   expH s !! k = Some q /\ q <> p).
  { intros k q Hk. apply lookup_take_Some in Hk as [Hk Hkn].
    split; [done|]. intros ->.
    assert (k = n) by (by eapply slots_ok_inj). lia. }
  split; [|split; [|split; [|split]]].
  - repeat split; try done. intros q. unfold deref. simpl.
    destruct (decide (q = p)) as [->|Hq].
    + rewrite list_lookup_insert_eq by done. unfold deref in He. by rewrite He.
    + by rewrite list_lookup_insert_ne.
  - intros k q Hk. destruct (Htake _ _ Hk) as [Hk' Hq].
    unfold deref. simpl. rewrite list_lookup_insert_ne by done. by apply Hs.
  - simpl. rewrite length_take. lia.
  - intros q. simpl. rewrite !list_elem_of_lookup. split.
    + intros [k Hk]. destruct (decide (k = n)) as [->|Hkn].
      * left. congruence.
      * right. exists k. apply lookup_take_Some. split; [done|].
        apply lookup_lt_Some in Hk. lia.
    + intros [->|[k Hk]]; [eauto|]. exists k. by apply Htake.
  - simpl. rewrite list_elem_of_lookup. intros [k Hk].
    by destruct (Htake _ _ Hk).
Qed.

Lemma heap_Pop_ok s :
  slots_ok s -> (0 < length (expH s))%nat ->
  exists s' p, heap_Pop s = Some (s', p) /\ expH s !! 0%nat = Some p /\
               heap_popped p s s'.
Proof.
  intros Hs Hlen. unfold heap_Pop. rewrite Len_pred by done.
  set (n := (length (expH s) - 1)%nat).
  destruct (lookup_lt_is_Some_2 (expH s) 0 Hlen) as [p Hp].
  destruct (Swap_ok (length (expH s)) s 0 n Hs Hlen ltac:(lia) Hlen ltac:(lia))
    as (s1 & Hsw & Hmv1 & _ & Hn).
  change 0 with (Z.of_nat 0). rewrite Hsw, bind_Some.
  pose proof Hmv1 as (_ & Hs1 & Hl1 & _ & _).
  destruct (down_ok (heap_fuel s1) s1 0 0 n Hs1 ltac:(lia)
              ltac:(unfold heap_fuel; lia)) as (s2 & b & Hdn & Hmv2).
  rewrite Hdn, bind_Some.
  pose proof Hmv2 as (_ & Hs2 & Hl2 & _ & Hk2).
  destruct (hPop_ok s2 p Hs2 ltac:(lia)) as (s' & Hpop & Hpp).
  { rewrite Hl2, Hl1. fold n. rewrite Hk2 by lia. by rewrite Hn. }
  exists s', p. split; [done|]. split; [done|].
  eapply moved_popped; [exact Hmv1|].
  eapply moved_popped; [exact Hmv2|done].
Qed.

Lemma heap_Remove_ok s (i : nat) p :
  slots_ok s -> expH s !! i = Some p ->
  exists s', heap_Remove s (Z.of_nat i) = Some (s', p) /\ heap_popped p s s'.
Proof.
  intros Hs Hp. unfold heap_Remove.
  assert (Hi : (i < length (expH s))%nat) by (by eapply lookup_lt_Some).
  rewrite Len_pred by lia.
  set (n := (length (expH s) - 1)%nat).
  destruct (decide (Z.of_nat n = Z.of_nat i)) as [Heq|Hne].
  { rewrite bind_Some. apply hPop_ok; [done|lia|].
    fold n. by replace n with i by lia. }
  destruct (Swap_ok (length (expH s)) s i n Hs Hi ltac:(lia) Hi ltac:(lia))
    as (s1 & Hsw & Hmv1 & _ & Hn).
  rewrite Hsw, bind_Some.
  pose proof Hmv1 as (_ & Hs1 & Hl1 & _ & _).
  destruct (down_ok (heap_fuel s1) s1 i i n Hs1 ltac:(lia)
              ltac:(unfold heap_fuel; lia)) as (s2 & b & Hdn & Hmv2).
  rewrite Hdn, bind_Some.
  pose proof Hmv2 as (_ & Hs2 & Hl2 & _ & Hk2).
  assert (Hstep : exists s3,
    (if b then Some s2 else up (heap_fuel s2) s2 (Z.of_nat i)) = Some s3 /\
    heap_moved n s2 s3).
  { destruct b; [exists s2; split; [done|by apply heap_moved_refl]|].
    destruct (up_ok (heap_fuel s2) s2 i Hs2 ltac:(lia)
                ltac:(unfold heap_fuel; lia)) as (s3 & Hup & Hmv3).
    exists s3. split; [done|]. eapply heap_moved_mono; [|done]. lia. }
  destruct Hstep as (s3 & -> & Hmv3). rewrite bind_Some.
  pose proof Hmv3 as (_ & Hs3 & Hl3 & _ & Hk3).
  destruct (hPop_ok s3 p Hs3 ltac:(lia)) as (s' & Hpop & Hpp).
  { rewrite Hl3, Hl2, Hl1. fold n. rewrite Hk3, Hk2 by lia. by rewrite Hn. }
  exists s'. split; [done|].
  eapply moved_popped; [exact Hmv1|].
  eapply moved_popped; [exact Hmv2|].
  eapply moved_popped; [exact Hmv3|done].
Qed.

Lemma heap_Fix_ok s (i : nat) :
  slots_ok s -> (i < length (expH s))%nat ->
  exists s', heap_Fix s (Z.of_nat i) = Some s' /\
             heap_moved (length (expH s)) s s'.
Proof.
  intros Hs Hi. unfold heap_Fix, Len.
  destruct (down_ok (heap_fuel s) s i i (length (expH s)) Hs ltac:(lia)
              ltac:(unfold heap_fuel; lia)) as (s1 & b & Hdn & Hmv1).
  rewrite Hdn, bind_Some.
  pose proof Hmv1 as (_ & Hs1 & Hl1 & _ & _).
  destruct b; [by exists s1|].
  destruct (up_ok (heap_fuel s1) s1 i Hs1 ltac:(lia)
              ltac:(unfold heap_fuel; lia)) as (s2 & Hup & Hmv2).
  exists s2. split; [done|].
  eapply heap_moved_trans; [exact Hmv1|].
  eapply heap_moved_mono; [|done]. lia.
Qed.

Lemma heap_Push_ok s p e :
  slots_ok s -> deref s p = Some e -> p ∉ expH s ->
  exists s', heap_Push s p = Some s' /\ heap_pushed p s s'.
Proof.
  intros Hs He Hnin. unfold heap_Push, hPush.
  rewrite (upd_entry_Some _ _ _ _ He), !bind_Some.
  cbn [set_mem set_expH expH mem].
  set (s1 := set_expH (set_mem s (<[p:=with_heapIdx (Len s) e]> (mem s)))
                      (expH s ++ [p])).
  assert (Hp_lt : (p < length (mem s))%nat) by (by eapply lookup_lt_Some).
  assert (Hr1 : same_rules s s1).
  { repeat split; try done. intros q. unfold deref, s1. simpl.
    destruct (decide (q = p)) as [->|Hq].
    + rewrite list_lookup_insert_eq by done. unfold deref in He. by rewrite He.
    + by rewrite list_lookup_insert_ne. }
  assert (Hs1 : slots_ok s1).
  { intros k q Hk. unfold s1, deref in *. simpl in *.
    apply lookup_app_Some in Hk as [Hk|[Hge Hk]].
    - assert (q <> p).
      { intros ->. apply Hnin. by eapply list_elem_of_lookup_2. }
      rewrite list_lookup_insert_ne by done. by apply Hs.
    - apply list_lookup_singleton_Some in Hk as [Hk <-].
      rewrite list_lookup_insert_eq by done.
      eexists. split; [done|]. unfold Len. simpl. lia. }
  assert (Hlen1 : length (expH s1) = S (length (expH s))).
  { unfold s1. simpl. rewrite length_app. simpl. lia. }
  assert (HL : Len s1 - 1 = Z.of_nat (length (expH s))).
  { unfold Len. rewrite Hlen1. lia. }
  rewrite HL.
  destruct (up_ok (heap_fuel s1) s1 (length (expH s)) Hs1 ltac:(lia)
              ltac:(unfold heap_fuel; lia)) as (s2 & Hup & Hmv).
  exists s2. split; [done|].
  destruct Hmv as (Hr2 & Hs2 & _ & Hm & _).
  split; [by eapply same_rules_trans|]. split; [done|].
  intros q. rewrite Hm. unfold s1. simpl. rewrite elem_of_app, list_elem_of_singleton.
  tauto.
Qed.

(** ** Well-formed states *)

Lemma lower_ascii_idem c : lower_ascii (lower_ascii c) = lower_ascii c.
Proof.
  unfold lower_ascii.
  destruct ((65 <=? N_of_ascii c) && (N_of_ascii c <=? 90))%N eqn:E; [|by rewrite E].
  apply andb_true_iff in E as [H1 H2].
  apply N.leb_le in H1, H2.
  assert (Hlt : (N_of_ascii c + 32 < 256)%N) by lia.
  rewrite N_ascii_embedding by done.
  destruct ((65 <=? N_of_ascii c + 32) && (N_of_ascii c + 32 <=? 90))%N eqn:E'; [|done].
  apply andb_true_iff in E' as [_ H4]. apply N.leb_le in H4. lia.
Qed.

Lemma ToLower_idem d : ToLower (ToLower d) = ToLower d.
Proof. induction d as [|c d IH]; simpl; [done|]. by rewrite lower_ascii_idem, IH. Qed.

Lemma same_rules_deref s s' p e' :
  same_rules s s' -> deref s' p = Some e' ->
  exists e, deref s p = Some e /\ rule e = rule e'.
Proof.
  intros (_ & _ & _ & Hd) He'. specialize (Hd p). rewrite He' in Hd.
  destruct (deref s p) as [e|]; [|done]. exists e. split; [done|].
  simpl in Hd. congruence.
Qed.

Lemma same_rules_deref_rev s s' p e :
  same_rules s s' -> deref s p = Some e ->
  exists e', deref s' p = Some e' /\ rule e' = rule e.
Proof.
  intros (_ & _ & _ & Hd) He. specialize (Hd p). rewrite He in Hd.
  destruct (deref s' p) as [e'|]; [|done]. exists e'. split; [done|].
  simpl in Hd. congruence.
Qed.

Lemma wf_NewStore : wf NewStore.
Proof. split; intros *; simpl; try done; by rewrite ?lookup_empty. Qed.

Lemma wf_heap_moved n s s' : wf s -> heap_moved n s s' -> wf s'.
Proof.
  intros [W1 W2 W3 W4 W5] (Hr & Hs' & Hl & Hm & _).
  pose proof Hr as (HbI & HbD & _ & _).
  split.
  - done.
  - intros i p e' Hi He'.
    destruct (same_rules_deref _ _ _ _ Hr He') as (e & He & Hrule).
    assert (Hin : p ∈ expH s) by (apply Hm; by eapply list_elem_of_lookup_2).
    apply list_elem_of_lookup_1 in Hin as [k Hk].
    rewrite HbD, <- Hrule. by eapply W2.
  - intros id p Hid. rewrite HbI in Hid.
    destruct (W3 _ _ Hid) as (e & He & Hide & Hdom).
    destruct (same_rules_deref_rev _ _ _ _ Hr He) as (e' & He' & Hrule).
    exists e'. rewrite Hrule, HbD. done.
  - intros d p Hd. rewrite HbD in Hd.
    destruct (W4 _ _ Hd) as (e & He & Hde).
    destruct (same_rules_deref_rev _ _ _ _ Hr He) as (e' & He' & Hrule).
    exists e'. by rewrite Hrule.
  - intros d p e' Hd He' Hperm. rewrite HbD in Hd.
    destruct (same_rules_deref _ _ _ _ Hr He') as (e & He & Hrule).
    apply Hm. eapply W5; [done..|]. by rewrite Hrule.
Qed.


Lemma key_of_deref s s' p e' :
  (forall q, key_of <$> deref s' q = key_of <$> deref s q) ->
  deref s' p = Some e' ->
  exists e, deref s p = Some e /\ key_of e = key_of e'.
Proof.
  intros Hk He'. specialize (Hk p). rewrite He' in Hk.
  destruct (deref s p) as [e|]; [|done]. exists e. split; [done|].
  simpl in Hk. congruence.
Qed.

Lemma wf_ext s s' :
  byID s' = byID s -> byDom s' = byDom s -> expH s' = expH s ->
  (forall q, key_of <$> deref s' q = key_of <$> deref s q) ->
  wf s -> wf s'.
Proof.
  intros HbI HbD Hh Hk [W1 W2 W3 W4 W5].
  assert (Hk' : forall q, key_of <$> deref s q = key_of <$> deref s' q)
    by (intros q; by rewrite Hk).
  split.
  - intros i p Hi. rewrite Hh in Hi. destruct (W1 _ _ Hi) as (e & He & Hidx).
    destruct (key_of_deref _ _ _ _ Hk' He) as (e' & He' & Hkey).
    exists e'. split; [done|]. unfold key_of in Hkey. congruence.
  - intros i p e' Hi He'. rewrite Hh in Hi.
    destruct (key_of_deref _ _ _ _ Hk He') as (e & He & Hkey).
    destruct (W2 _ _ _ Hi He) as [Hp Hd].
    unfold key_of in Hkey. rewrite HbD.
    replace (Domain (rule e')) with (Domain (rule e)) by congruence.
    split; [congruence|done].
  - intros id p Hid. rewrite HbI in Hid.
    destruct (W3 _ _ Hid) as (e & He & Hide & Hdom).
    destruct (key_of_deref _ _ _ _ Hk' He) as (e' & He' & Hkey).
    unfold key_of in Hkey. exists e'. rewrite HbD.
    replace (Domain (rule e')) with (Domain (rule e)) by congruence.
    split; [done|]. split; [congruence|done].
  - intros d p Hd. rewrite HbD in Hd.
    destruct (W4 _ _ Hd) as (e & He & Hde).
    destruct (key_of_deref _ _ _ _ Hk' He) as (e' & He' & Hkey).
    unfold key_of in Hkey. exists e'.
    replace (Domain (rule e')) with (Domain (rule e)) by congruence. done.
  - intros d p e' Hd He' Hperm. rewrite HbD in Hd. rewrite Hh.
    destruct (key_of_deref _ _ _ _ Hk He') as (e & He & Hkey).
    unfold key_of in Hkey.
    eapply W5; [done..|]. congruence.
Qed.

(** Writing the rule of one record. *)
Lemma upd_rule_deref s p f e q :
  deref s p = Some e ->
  deref (set_mem s (<[p := with_rule f e]> (mem s))) q =
    if decide (q = p) then Some (with_rule f e) else deref s q.
Proof.
  intros He. unfold deref. simpl. case_decide as Hq.
  - subst q. apply list_lookup_insert_eq. by eapply lookup_lt_Some.
  - by apply list_lookup_insert_ne.
Qed.

Lemma wf_upd_rule s p f e :
  wf s -> deref s p = Some e ->
  ID (f (rule e)) = ID (rule e) ->
  Domain (f (rule e)) = Domain (rule e) ->
  Permanent (f (rule e)) = Permanent (rule e) ->
  wf (set_mem s (<[p := with_rule f e]> (mem s))).
Proof.
  intros Hwf He H1 H2 H3. apply (wf_ext s); [done|done|done| |done].
  intros q. rewrite (upd_rule_deref _ _ _ _ _ He). case_decide as Hq; [|done].
  subst q. rewrite He. simpl. unfold key_of. simpl. by rewrite H1, H2, H3.
Qed.

Lemma rules_deref s s' p e' :
  (forall q, rule <$> deref s' q = rule <$> deref s q) ->
  deref s' p = Some e' -> exists e, deref s p = Some e /\ rule e = rule e'.
Proof.
  intros Hd He'. specialize (Hd p). rewrite He' in Hd.
  destruct (deref s p) as [e|]; [|done]. exists e. split; [done|].
  simpl in Hd. congruence.
Qed.

Lemma rules_deref_rev s s' p e :
  (forall q, rule <$> deref s' q = rule <$> deref s q) ->
  deref s p = Some e -> exists e', deref s' p = Some e' /\ rule e' = rule e.
Proof.
  intros Hd He. specialize (Hd p). rewrite He in Hd.
  destruct (deref s' p) as [e'|]; [|done]. exists e'. split; [done|].
  simpl in Hd. congruence.
Qed.

(** A record leaves the store: its domain key goes, an id goes (the
    record's own, if the id map knows the record), and it leaves the heap
    if it was there. *)
Lemma wf_drop s s' p e id :
  wf s -> deref s p = Some e ->
  byDom s !! ToLower (Domain (rule e)) = Some p ->
  (forall id', byID s !! id' = Some p -> id' = id) ->
  byID s' = delete id (byID s) ->
  byDom s' = delete (ToLower (Domain (rule e))) (byDom s) ->
  (forall q, rule <$> deref s' q = rule <$> deref s q) ->
  slots_ok s' ->
  (forall q, q ∈ expH s' -> q ∈ expH s /\ q <> p) ->
  (forall q, q ∈ expH s -> q = p \/ q ∈ expH s') ->
  wf s'.
Proof.
  intros [W1 W2 W3 W4 W5] He Hkey Hid HbI HbD Hr Hs' Hin Hout.
  assert (Hother : forall q eq, deref s q = Some eq -> q <> p ->
            byDom s !! ToLower (Domain (rule eq)) = Some q ->
            ToLower (Domain (rule eq)) <> ToLower (Domain (rule e))).
  { intros q eq Heq Hqp Hq Hsame. rewrite Hsame in Hq. congruence. }
  split.
  - done.
  - intros i q e' Hi He'.
    destruct (Hin q ltac:(by eapply list_elem_of_lookup_2)) as [Hq Hqp].
    apply list_elem_of_lookup_1 in Hq as [k Hk].
    destruct (rules_deref _ _ _ _ Hr He') as (eq & Heq & Hrule).
    destruct (W2 _ _ _ Hk Heq) as [Hperm Hd].
    rewrite <- Hrule. split; [done|].
    rewrite HbD, lookup_delete_ne; [done|]. intros Hs. symmetry in Hs. revert Hs.
    by eapply Hother.
  - intros id' q Hq. rewrite HbI in Hq.
    apply lookup_delete_Some in Hq as [Hne Hq].
    destruct (W3 _ _ Hq) as (eq & Heq & Hide & Hd).
    assert (Hqp : q <> p).
    { intros ->. apply Hne. symmetry. by apply Hid. }
    destruct (rules_deref_rev _ _ _ _ Hr Heq) as (e' & He' & Hrule).
    exists e'. rewrite Hrule. split; [done|]. split; [done|].
    rewrite HbD, lookup_delete_ne; [done|]. intros Hs. symmetry in Hs. revert Hs.
    by eapply Hother.
  - intros d q Hq. rewrite HbD in Hq.
    apply lookup_delete_Some in Hq as [Hne Hq].
    destruct (W4 _ _ Hq) as (eq & Heq & Hd).
    destruct (rules_deref_rev _ _ _ _ Hr Heq) as (e' & He' & Hrule).
    exists e'. by rewrite Hrule.
  - intros d q e' Hq He' Hperm. rewrite HbD in Hq.
    apply lookup_delete_Some in Hq as [Hne Hq].
    destruct (rules_deref _ _ _ _ Hr He') as (eq & Heq & Hrule).
    destruct (Hout q) as [->|Hq']; [| |done].
    + eapply W5; [done..|]. by rewrite Hrule.
    + destruct (W4 _ _ Hq) as (e2 & He2 & Hd2). congruence.
Qed.

(** A temporary record becomes permanent and leaves the heap. *)
Lemma wf_upgrade s s' p e f :
  wf s -> deref s p = Some e ->
  ID (f (rule e)) = ID (rule e) ->
  Domain (f (rule e)) = Domain (rule e) ->
  Permanent (f (rule e)) = true ->
  heap_popped p (set_mem s (<[p := with_rule f e]> (mem s))) s' ->
  wf s'.
Proof.
  intros [W1 W2 W3 W4 W5] He H1 H2 H3 (Hr & Hs' & _ & Hm & Hnin).
  set (s1 := set_mem s (<[p := with_rule f e]> (mem s))) in *.
  pose proof Hr as (HbI & HbD & _ & _).
  assert (Hd1 : forall q, deref s1 q =
            if decide (q = p) then Some (with_rule f e) else deref s q)
    by (intros q; by apply upd_rule_deref).
  split.
  - done.
  - intros i q e' Hi He'.
    assert (Hq' : q ∈ expH s') by (by eapply list_elem_of_lookup_2).
    assert (Hqp : q <> p) by (intros ->; done).
    assert (Hq : q ∈ expH s) by (apply (Hm q); by right).
    apply list_elem_of_lookup_1 in Hq as [k Hk].
    destruct (same_rules_deref _ _ _ _ Hr He') as (e1 & He1 & Hrule).
    rewrite Hd1 in He1. rewrite decide_False in He1 by done.
    rewrite HbD, <- Hrule. by eapply W2.
  - intros id q Hq. rewrite HbI in Hq.
    destruct (W3 _ _ Hq) as (eq & Heq & Hide & Hd).
    destruct (decide (q = p)) as [->|Hqp].
    + assert (He1 : deref s1 p = Some (with_rule f e))
        by (rewrite Hd1; by rewrite decide_True).
      destruct (same_rules_deref_rev _ _ _ _ Hr He1) as (e' & He' & Hrule).
      exists e'. rewrite Hrule, HbD. simpl.
      assert (eq = e) by congruence. subst eq.
      rewrite H1, H2. done.
    + assert (He1 : deref s1 q = Some eq)
        by (rewrite Hd1; by rewrite decide_False).
      destruct (same_rules_deref_rev _ _ _ _ Hr He1) as (e' & He' & Hrule).
      exists e'. rewrite Hrule, HbD. done.
  - intros d q Hq. rewrite HbD in Hq.
    destruct (W4 _ _ Hq) as (eq & Heq & Hd).
    destruct (decide (q = p)) as [->|Hqp].
    + assert (He1 : deref s1 p = Some (with_rule f e))
        by (rewrite Hd1; by rewrite decide_True).
      destruct (same_rules_deref_rev _ _ _ _ Hr He1) as (e' & He' & Hrule).
      exists e'. rewrite Hrule. simpl.
      assert (eq = e) by congruence. subst eq. by rewrite H2.
    + assert (He1 : deref s1 q = Some eq)
        by (rewrite Hd1; by rewrite decide_False).
      destruct (same_rules_deref_rev _ _ _ _ Hr He1) as (e' & He' & Hrule).
      exists e'. by rewrite Hrule.
  - intros d q e' Hq He' Hperm. rewrite HbD in Hq.
    destruct (same_rules_deref _ _ _ _ Hr He') as (e1 & He1 & Hrule).
    rewrite Hd1 in He1. destruct (decide (q = p)) as [->|Hqp].
    + injection He1 as <-. simpl in Hrule. congruence.
    + assert (Hin : q ∈ expH s) by (eapply W5; [done..|]; by rewrite Hrule).
      apply (Hm q) in Hin as [->|Hin]; done.
Qed.

(** ** The operations keep the store well formed *)

Lemma wf_heap_index s d p e :
  wf s -> byDom s !! d = Some p -> deref s p = Some e ->
  Permanent (rule e) = false ->
  exists i : nat, heapIdx e = Z.of_nat i /\ expH s !! i = Some p.
Proof.
  intros Hwf Hd He Hperm.
  pose proof (wf_temp_in_heap s Hwf _ _ _ Hd He Hperm) as Hin.
  apply list_elem_of_lookup_1 in Hin as [i Hi].
  destruct (wf_slots s Hwf _ _ Hi) as (e' & He' & Hidx).
  exists i. split; [congruence|done].
Qed.

Lemma slots_ok_upd_rule s p f e :
  slots_ok s -> deref s p = Some e ->
  slots_ok (set_mem s (<[p := with_rule f e]> (mem s))).
Proof.
  intros Hs He i q Hi. simpl in Hi.
  rewrite (upd_rule_deref _ _ _ _ _ He). case_decide as Hq.
  - subst q. destruct (Hs _ _ Hi) as (e' & He' & Hidx).
    eexists. split; [done|]. simpl. congruence.
  - by apply Hs.
Qed.

Lemma wf_set_count s c : wf s -> wf (set_count s c).
Proof. intros [W1 W2 W3 W4 W5]. by split. Qed.

(** The update path of [Upsert]. *)
Lemma Upsert_update s r p cur :
  byDom s !! ToLower (Domain r) = Some p -> deref s p = Some cur ->
  negb (Permanent (rule cur)) && Permanent r = false ->
  Upsert s r =
    Some (set_mem s (<[p := with_rule (fun c =>
            mkRule (ID c) (Domain c) (IPs r) (Expires r) (Permanent c)
                   (ResolvedAt r)) cur]> (mem s)), true).
Proof.
  intros Hd He Hc. unfold Upsert. rewrite Hd, He, bind_Some, Hc.
  by rewrite (upd_entry_Some _ _ _ _ He).
Qed.

Lemma Upsert_wf s r :
  wf s -> exists s', Upsert s r = Some (s', true) /\ wf s'.
Proof.
  intros Hwf. destruct (byDom s !! ToLower (Domain r)) as [p|] eqn:Hd.
  - destruct (wf_byDom s Hwf _ _ Hd) as (cur & He & Hkey).
    destruct (negb (Permanent (rule cur)) && Permanent r) eqn:Hc.
    + (* upgrade *)
      unfold Upsert. rewrite Hd, He, bind_Some, Hc.
      rewrite (upd_entry_Some _ _ _ _ He), bind_Some.
      apply andb_true_iff in Hc as [Hc1 Hc2]. apply negb_true_iff in Hc1.
      destruct (wf_heap_index s _ p cur Hwf Hd He Hc1) as (i & Hidx & Hi).
      rewrite Hidx.
      set (f := fun c => mkRule (ID c) (Domain c) (IPs c) zeroTime true (ResolvedAt c)).
      destruct (heap_Remove_ok (set_mem s (<[p := with_rule f cur]> (mem s))) i p)
        as (s' & Hrm & Hpop).
      { apply slots_ok_upd_rule; [apply Hwf|done]. }
      { done. }
      rewrite Hrm, bind_Some. exists s'. split; [done|].
      by eapply (wf_upgrade s s' p cur f).
    + rewrite (Upsert_update s r p cur Hd He Hc). eexists. split; [done|].
      by apply wf_upd_rule.
  - (* insert *)
    unfold Upsert. rewrite Hd.
    set (p := length (mem s)).
    set (s3 := set_byDom (set_byID (set_mem s (mem s ++ [mkEntry r 0]))
                 (<[ID r := p]> (byID s))) (<[ToLower (Domain r) := p]> (byDom s))).
    change (set_byDom _ _) with s3.
    destruct Hwf as [W1 W2 W3 W4 W5].
    assert (Hold : forall q e, deref s q = Some e -> deref s3 q = Some e).
    { intros q e He. unfold deref, s3. simpl. by apply lookup_app_l_Some. }
    assert (Hnew : deref s3 p = Some (mkEntry r 0)).
    { unfold deref, s3, p. simpl. rewrite lookup_app_r by lia.
      by rewrite Nat.sub_diag. }
    assert (Hd3 : forall q e, deref s3 q = Some e ->
              (q = p /\ e = mkEntry r 0) \/ (q <> p /\ deref s q = Some e)).
    { intros q e. unfold deref, s3. simpl. intros Hq.
      apply lookup_app_Some in Hq as [Hq|[Hge Hq]].
      - right. split; [|done]. apply lookup_lt_Some in Hq. unfold p. lia.
      - apply list_lookup_singleton_Some in Hq as [Hq <-]. left.
        split; [unfold p; lia|done]. }
    assert (Hfresh : forall q e, deref s q = Some e -> q <> p).
    { intros q e He. apply lookup_lt_Some in He. unfold p. lia. }
    assert (Hwf3 : forall q e, q <> p -> deref s q = Some e ->
              byDom s !! ToLower (Domain (rule e)) = Some q ->
              byDom s3 !! ToLower (Domain (rule e)) = Some q).
    { intros q e Hq He Hb. unfold s3. simpl.
      rewrite lookup_insert_ne; [done|]. intros Heq. rewrite <- Heq in Hb.
      pose proof (eq_trans (eq_sym Hb) Hd) as Hbad. discriminate Hbad. }
    assert (Hpnin : p ∉ expH s).
    { intros Hin. apply list_elem_of_lookup_1 in Hin as [i Hi].
      destruct (W1 _ _ Hi) as (e & He & _). by eapply Hfresh. }
    assert (Hs3 : slots_ok s3).
    { intros i q Hi. unfold s3 in Hi. simpl in Hi.
      destruct (W1 _ _ Hi) as (e & He & Hidx). exists e. split; [by apply Hold|done]. }
    (* the state before the push satisfies everything but the last clause for p *)
    assert (Hfinal : forall s4,
      same_rules s3 s4 -> slots_ok s4 ->
      (forall q, q ∈ expH s4 <-> (Permanent r = false /\ q = p) \/ q ∈ expH s) ->
      wf (set_count s4 (count s4 + 1))).
    { intros s4 Hr Hs4 Hm. apply wf_set_count.
      pose proof Hr as (HbI & HbD & _ & _).
      split.
      - done.
      - intros i q e4 Hi He4.
        destruct (same_rules_deref _ _ _ _ Hr He4) as (e3 & He3 & Hrule).
        rewrite <- Hrule, HbD.
        assert (Hq : q ∈ expH s4) by (by eapply list_elem_of_lookup_2).
        apply Hm in Hq as [[Hperm ->]|Hq].
        + rewrite Hnew in He3. injection He3 as <-. simpl.
          split; [done|]. unfold s3. simpl. by rewrite lookup_insert_eq.
        + apply list_elem_of_lookup_1 in Hq as [k Hk].
          destruct (W1 _ _ Hk) as (e & He & _).
          assert (e3 = e) by (apply Hold in He; congruence). subst e3.
          destruct (W2 _ _ _ Hk He) as [Hperm Hb]. split; [done|].
          apply Hwf3; [by eapply Hfresh|done..].
      - intros id q Hq. rewrite HbI in Hq. unfold s3 in Hq. simpl in Hq.
        apply lookup_insert_Some in Hq as [[<- <-]|[Hne Hq]].
        + destruct (same_rules_deref_rev _ _ _ _ Hr Hnew) as (e4 & He4 & Hrule).
          exists e4. rewrite Hrule, HbD. simpl. split; [done|]. split; [done|].
          unfold s3. simpl. by rewrite lookup_insert_eq.
        + destruct (W3 _ _ Hq) as (e & He & Hid & Hb).
          destruct (same_rules_deref_rev _ _ _ _ Hr (Hold _ _ He))
            as (e4 & He4 & Hrule).
          exists e4. rewrite Hrule, HbD. split; [done|]. split; [done|].
          apply Hwf3; [by eapply Hfresh|done..].
      - intros d q Hq. rewrite HbD in Hq. unfold s3 in Hq. simpl in Hq.
        apply lookup_insert_Some in Hq as [[<- <-]|[Hne Hq]].
        + destruct (same_rules_deref_rev _ _ _ _ Hr Hnew) as (e4 & He4 & Hrule).
          exists e4. by rewrite Hrule.
        + destruct (W4 _ _ Hq) as (e & He & Hkey).
          destruct (same_rules_deref_rev _ _ _ _ Hr (Hold _ _ He))
            as (e4 & He4 & Hrule).
          exists e4. by rewrite Hrule.
      - intros d q e4 Hq He4 Hperm. rewrite HbD in Hq. unfold s3 in Hq. simpl in Hq.
        destruct (same_rules_deref _ _ _ _ Hr He4) as (e3 & He3 & Hrule).
        apply Hm.
        apply lookup_insert_Some in Hq as [[<- <-]|[Hne Hq]].
        + left. rewrite Hnew in He3. injection He3 as <-. simpl in Hrule.
          split; [congruence|done].
        + right. destruct (W4 _ _ Hq) as (e & He & Hkey).
          assert (e3 = e) by (apply Hold in He; congruence). subst e3.
          eapply W5; [done..|]. congruence. }
    destruct (Permanent r) eqn:Hperm; simpl.
    + exists (set_count s3 (count s3 + 1)). split; [done|]. apply (Hfinal s3).
      * apply same_rules_refl.
      * done.
      * intros q. unfold s3. simpl. split; [by right|]. by intros [[? _]|?].
    + destruct (heap_Push_ok s3 p _ Hs3 Hnew) as (s4 & Hpush & Hr & Hs4 & Hm).
      { unfold s3. simpl. done. }
      rewrite Hpush, bind_Some. exists (set_count s4 (count s4 + 1)).
      split; [done|]. apply (Hfinal s4); [done..|].
      intros q. rewrite Hm. unfold s3. simpl. split.
      * intros [->|Hq]; [by left|by right].
      * intros [[_ ->]|Hq]; [by left|by right].
Qed.

Lemma wf_key_fixed s p e :
  wf s -> deref s p = Some e ->
  byDom s !! ToLower (Domain (rule e)) = Some p ->
  forall q, byDom s !! Domain (rule e) = Some q -> q = p.
Proof.
  intros Hwf He Hkey q Hq.
  destruct (wf_byDom s Hwf _ _ Hq) as (eq & Heq & Hd).
  assert (Hfix : ToLower (Domain (rule e)) = Domain (rule e)).
  { rewrite <- Hd. apply ToLower_idem. }
  rewrite Hfix in Hkey. congruence.
Qed.

(** [UpdateResolvedAt] writes the timestamp of the record the id names and
    nothing else of any rule. *)
Lemma UpdateResolvedAt_ok s id ts :
  wf s ->
  exists s' b, UpdateResolvedAt s id ts = Some (s', b) /\ wf s' /\
    byID s' = byID s /\ byDom s' = byDom s /\
    forall q, rule <$> deref s' q =
      (fun c => if decide (byID s !! id = Some q)
                then mkRule (ID c) (Domain c) (IPs c) (Expires c) (Permanent c) ts
                else c) <$> (rule <$> deref s q).
Proof.
  intros Hwf. unfold UpdateResolvedAt.
  destruct (byID s !! id) as [p|] eqn:Hid.
  { destruct (wf_byID s Hwf _ _ Hid) as (cur & He & Hidc & Hkey).
    set (f := fun c => mkRule (ID c) (Domain c) (IPs c) (Expires c) (Permanent c) ts).
    rewrite He, bind_Some, (upd_entry_Some _ _ _ _ He), bind_Some.
    set (s1 := set_mem s (<[p := with_rule f cur]> (mem s))).
    assert (Hwf1 : wf s1) by (by apply wf_upd_rule).
    assert (Hd1 : forall q, deref s1 q =
              if decide (q = p) then Some (with_rule f cur) else deref s q)
      by (intros q; by apply upd_rule_deref).
    assert (Hstep : exists s2,
      (if negb (Permanent (rule cur)) then heap_Fix s1 (heapIdx cur) else Some s1)
        = Some s2 /\ wf s2 /\ same_rules s1 s2).
    { destruct (Permanent (rule cur)) eqn:Hperm; simpl.
      - exists s1. split; [done|]. split; [done|apply same_rules_refl].
      - destruct (wf_heap_index s _ p cur Hwf Hkey He Hperm) as (i & Hidx & Hi).
        rewrite Hidx.
        destruct (heap_Fix_ok s1 i) as (s2 & Hfix & Hmv).
        { apply Hwf1. }
        { apply lookup_lt_Some in Hi. done. }
        exists s2. split; [done|]. split; [by eapply wf_heap_moved|apply Hmv]. }
    destruct Hstep as (s2 & -> & Hwf2 & Hr2). rewrite bind_Some.
    pose proof Hr2 as (HbI2 & HbD2 & _ & Hrules2).
    assert (Hrule_s2 : forall q, rule <$> deref s2 q =
              (fun c => if decide (Some p = Some q) then f c else c)
                <$> (rule <$> deref s q)).
    { intros q. rewrite Hrules2, Hd1. destruct (decide (q = p)) as [->|Hq].
      - rewrite He. simpl. by rewrite decide_True.
      - destruct (deref s q); simpl; [|done].
        rewrite decide_False; [done|]. intros [= ->]. done. }
    destruct (byDom s2 !! Domain (rule cur)) as [q|] eqn:Hq.
    - assert (q = p).
      { rewrite HbD2 in Hq. change (byDom s1) with (byDom s) in Hq.
        exact (wf_key_fixed s p cur Hwf He Hkey q Hq). }
      subst q.
      assert (He2 : exists e2, deref s2 p = Some e2 /\ rule e2 = f (rule cur)).
      { assert (H1 : deref s1 p = Some (with_rule f cur))
          by (rewrite Hd1; by rewrite decide_True).
        destruct (same_rules_deref_rev _ _ _ _ Hr2 H1) as (e2 & He2 & Hrule).
        exists e2. done. }
      destruct He2 as (e2 & He2 & Hrule2).
      rewrite (upd_entry_Some _ _ _ _ He2), bind_Some.
      do 2 eexists. split; [done|]. split; [|split; [done|split; [done|]]].
      + apply wf_upd_rule; try done.
      + intros q. rewrite (upd_rule_deref _ _ _ _ _ He2).
        destruct (decide (q = p)) as [->|Hqp].
        * rewrite He. simpl. rewrite decide_True by done. rewrite Hrule2. done.
        * by rewrite Hrule_s2.
    - do 2 eexists. split; [done|]. split; [done|]. split; [done|]. split; [done|].
      done. }
  exists s, false. split; [done|]. split; [done|]. split; [done|]. split; [done|].
  intros q. destruct (deref s q); simpl; done.
Qed.

Lemma Remove_wf s id :
  wf s -> exists s' r, Remove s id = Some (s', r) /\ wf s'.
Proof.
  intros Hwf. unfold Remove.
  destruct (byID s !! id) as [p|] eqn:Hid; [|by exists s, None].
  destruct (wf_byID s Hwf _ _ Hid) as (cur & He & Hidc & Hkey).
  rewrite He, bind_Some.
  set (s2 := set_byDom (set_byID s (delete (ID (rule cur)) (byID s)))
               (delete (ToLower (Domain (rule cur))) (byDom s))).
  change (set_byDom _ _) with s2.
  assert (Honly : forall id', byID s !! id' = Some p -> id' = ID (rule cur)).
  { intros id' Hid'. destruct (wf_byID s Hwf _ _ Hid') as (e' & He' & Hide' & _).
    congruence. }
  destruct (Permanent (rule cur)) eqn:Hperm; simpl.
  - do 2 eexists. split; [done|]. apply wf_set_count.
    eapply (wf_drop s s2 p cur); try done.
    + apply Hwf.
    + intros q Hq. split; [done|]. intros ->.
      apply list_elem_of_lookup_1 in Hq as [i Hi].
      destruct (wf_slots_temp s Hwf _ _ _ Hi He) as [Hp _]. congruence.
    + intros q Hq. by right.
  - destruct (wf_heap_index s _ p cur Hwf Hkey He Hperm) as (i & Hidx & Hi).
    rewrite Hidx.
    destruct (heap_Remove_ok s2 i p) as (s3 & Hrm & Hpop).
    { apply Hwf. } { done. }
    rewrite Hrm. simpl. do 2 eexists. split; [done|]. apply wf_set_count.
    destruct Hpop as (Hr & Hs3 & _ & Hm & Hnin).
    pose proof Hr as (HbI & HbD & _ & Hrules).
    eapply (wf_drop s s3 p cur); try done.
    + intros q Hq. split; [apply (Hm q); by right|]. intros ->. done.
    + intros q Hq. by apply (Hm q).
Qed.

Lemma expire_loop_wf fuel : forall s now acc,
  wf s -> (length (expH s) < fuel)%nat ->
  exists s' l, expire_loop fuel s now acc = Some (s', l) /\ wf s'.
Proof.
  induction fuel as [|f IH]; intros s now acc Hwf Hf; [lia|].
  simpl. destruct (decide (Len s > 0)) as [Hlen|Hlen]; [|by exists s, acc].
  assert (Hpos : (0 < length (expH s))%nat) by (unfold Len in Hlen; lia).
  destruct (heap_Pop_ok s (wf_slots s Hwf) Hpos) as (s1 & p & Hpop & Hp0 & Hpp).
  change 0 with (Z.of_nat 0). rewrite slot_of_nat, Hp0, bind_Some.
  destruct (wf_slots s Hwf _ _ Hp0) as (e0 & He0 & _).
  rewrite He0, bind_Some.
  destruct (After (Expires (rule e0)) now); [by exists s, acc|].
  rewrite Hpop, bind_Some.
  destruct Hpp as (Hr & Hs1 & Hl & Hm & Hnin).
  destruct (same_rules_deref_rev _ _ _ _ Hr He0) as (e & He & Hrule).
  rewrite He, bind_Some.
  pose proof Hr as (HbI & HbD & _ & Hrules).
  destruct (wf_slots_temp s Hwf _ _ _ Hp0 He0) as [Hperm Hkey].
  apply IH.
  - apply wf_set_count. rewrite Hrule.
    eapply (wf_drop s _ p e0 (ID (rule e0))); try done.
    + intros id' Hid'.
      destruct (wf_byID s Hwf _ _ Hid') as (e' & He' & Hide' & _). congruence.
    + simpl. by rewrite HbI.
    + simpl. by rewrite HbD.
    + intros q Hq. simpl in Hq. split; [apply (Hm q); by right|]. by intros ->.
    + intros q Hq. simpl. by apply (Hm q).
  - simpl. lia.
Qed.

Lemma ExpireNow_wf s now :
  wf s -> exists s' l, ExpireNow s now = Some (s', l) /\ wf s'.
Proof. intros Hwf. apply expire_loop_wf; [done|lia]. Qed.

(** Every state reached from [NewStore] is well formed, and no operation
    panics on the way. *)
Lemma run_wf ops : forall s, wf s -> exists s', run s ops = Some s' /\ wf s'.
Proof.
  induction ops as [|o ops IH]; intros s Hwf; [by exists s|].
  simpl.
  assert (Hstep : exists s1, step s o = Some s1 /\ wf s1).
  { destruct o as [r|id ts|id|now]; simpl.
    - destruct (Upsert_wf s r Hwf) as (s1 & -> & Hwf1). by exists s1.
    - destruct (UpdateResolvedAt_ok s id ts Hwf) as (s1 & b & -> & Hwf1 & _).
      by exists s1.
    - destruct (Remove_wf s id Hwf) as (s1 & r & -> & Hwf1). by exists s1.
    - destruct (ExpireNow_wf s now Hwf) as (s1 & l & -> & Hwf1). by exists s1. }
  destruct Hstep as (s1 & -> & Hwf1). rewrite bind_Some. by apply IH.
Qed.

(** ** The store on concrete runs *)

(** C1. Blocking [a.com] until 10, [b.com] until 20 and [a.com] again
    until 30 runs without a panic and leaves a heap whose root ([a.com],
    30) is after its child ([b.com], 20): the update path of [Upsert]
    writes [Expires] and does not re-heapify. *)
Theorem C1_reblock_breaks_min_heap :
  exists s, run NewStore reblock_ops = Some s /\ ~ min_heap s.
Proof.
  eexists. split; [vm_compute; reflexivity|].
  intros H.
  epose proof (H 0%nat 1%nat _ _ _ _ (or_introl eq_refl)
                 eq_refl eq_refl eq_refl eq_refl) as Hle.
  vm_compute in Hle. apply Hle. reflexivity.
Qed.

(** C3. Upserting a temporary rule over a permanent rule of the same
    domain leaves a stored rule that is permanent and expires at 10. *)
Theorem C3_permanent_with_expiry :
  exists s, run NewStore [OpUpsert rule_a_perm; OpUpsert rule_a_temp] = Some s /\
            ~ permanent_iff_zero s.
Proof.
  eexists. split; [vm_compute; reflexivity|].
  intros H.
  specialize (H "1" (mkRule "1" "a.com" [] 10 true 2) eq_refl).
  destruct H as [H _]. specialize (H eq_refl). discriminate H.
Qed.

(** C4. Upserting id 1 for [a.com] and then id 1 for [b.com] leaves an
    id map of one record and a domain map of two. *)
Theorem C4_id_reused_maps_differ :
  exists s, run NewStore [OpUpsert rule_id1_a; OpUpsert rule_id1_b] = Some s /\
            size (byID s) = 1%nat /\ size (byDom s) = 2%nat /\ ~ maps_agree s.
Proof.
  eexists. split; [vm_compute; reflexivity|].
  split; [vm_compute; reflexivity|].
  split; [vm_compute; reflexivity|].
  intros [H _]. vm_compute in H. discriminate H.
Qed.

(** C5. In the store the three block commands of C1 leave, [b.com] is
    temporary and due at 25, and [ExpireNow 25] returns no rule. *)
Theorem C5_due_rule_not_expired :
  exists s s', run NewStore reblock_ops = Some s /\
               due s 25 rule_b20 /\
               ExpireNow s 25 = Some (s', []).
Proof.
  do 2 eexists. split; [vm_compute; reflexivity|].
  split.
  - split; [exists "2"; vm_compute; reflexivity|].
    split; [reflexivity|]. vm_compute. discriminate.
  - vm_compute. reflexivity.
Qed.

(** C9. A rule stored for the domain [A.com] is found by its id, and
    [UpdateResolvedAt] on that id answers false (after it has written the
    timestamp): it looks the domain up as it is spelled, not lower-cased. *)
Theorem C9_upper_case_domain_not_found :
  exists s s' p e,
    run NewStore [OpUpsert rule_upper] = Some s /\
    byID s !! "1" = Some p /\
    UpdateResolvedAt s "1" 5 = Some (s', false) /\
    deref s' p = Some e /\ ResolvedAt (rule e) = 5.
Proof.
  do 4 eexists. split; [vm_compute; reflexivity|].
  split; [vm_compute; reflexivity|].
  split; [vm_compute; reflexivity|].
  split; [vm_compute; reflexivity|]. reflexivity.
Qed.

(** ** The resolver front end *)

Section ResolverFacts.

Variable ParseIP : string -> option IP.

(** Go's [net.ParseIP] rejects a blank string. *)
Hypothesis ParseIP_blank :
  forall h, TrimSpace h = EmptyString -> ParseIP h = None.

(** C10. A host name that parses as an IP literal comes back as that
    one address, with no error and no DNS query sent; and whenever
    [LookupHost] returns without an error, it returns an address. *)
Theorem C10_LookupHost_literal env retries h :
  (forall ip, ParseIP h = Some ip ->
     LookupHost ParseIP env retries h = (LookupOk [mkIPAddr ip ""], [])) /\
  (forall ips tr, LookupHost ParseIP env retries h = (LookupOk ips, tr) ->
     ips <> []).
Proof.
  unfold LookupHost. split.
  - intros ip Hip. destruct (decide (TrimSpace h = EmptyString)) as [Hb|Hb].
    + rewrite (ParseIP_blank _ Hb) in Hip. discriminate.
    + by rewrite Hip.
  - intros ips tr. destruct (decide (TrimSpace h = EmptyString)); [done|].
    destruct (ParseIP h) as [ip|]; [by intros [= <- _]|].
    unfold lookupIPs.
    destruct (lookup env retries h TypeA) as [ra ta].
    destruct (lookup env retries h TypeAAAA) as [r6 t6].
    destruct (if d_a_first env then (ra, r6) else (r6, ra)) as [fst_r snd_r].
    case_decide as Hlen; [done|].
    intros [= <- _] Hnil. rewrite Hnil in Hlen. by apply Hlen.
Qed.

End ResolverFacts.

Lemma ParseIP_1111_blank h :
  TrimSpace h = EmptyString -> ParseIP_1111 h = None.
Proof.
  intros Hb. unfold ParseIP_1111. case_decide as Hh; [|done].
  subst h. vm_compute in Hb. discriminate Hb.
Qed.

Lemma C10_LookupHost_literal_witness :
  LookupHost ParseIP_1111 (mkDnsEnv (fun _ _ _ => ExchNil) (fun _ _ => None) true)
             0 "1.1.1.1" = (LookupOk [mkIPAddr [1; 1; 1; 1]%N ""], []).
Proof.
  apply (C10_LookupHost_literal ParseIP_1111 ParseIP_1111_blank).
  reflexivity.
Defined.

(** ** The atomic write *)

Lemma CreateTemp_fresh (fs : filesystem) ft fs1 tmp :
  CreateTemp fs ft = Some (fs1, tmp) ->
  fs !! tmp = None /\ fs1 = <[tmp := mkFile [] 384]> fs.
Proof.
  unfold CreateTemp. destruct (mk_temp ft) as [name|]; [|done].
  destruct (fs !! name) eqn:E; [done|]. by intros [= <- <-].
Qed.

Lemma temp_removed (fs : filesystem) (tmp : string) f (g : file -> file) :
  fs !! tmp = None -> delete tmp (alter g tmp (<[tmp := f]> fs)) = fs.
Proof.
  intros Hnone. apply map_eq. intros k.
  destruct (decide (k = tmp)) as [->|Hk].
  - by rewrite lookup_delete_eq.
  - by rewrite lookup_delete_ne, lookup_alter_ne, lookup_insert_ne.
Qed.

Lemma temp_removed2 (fs : filesystem) (tmp : string) f (g g' : file -> file) :
  fs !! tmp = None ->
  delete tmp (alter g' tmp (alter g tmp (<[tmp := f]> fs))) = fs.
Proof.
  intros Hnone. apply map_eq. intros k.
  destruct (decide (k = tmp)) as [->|Hk].
  - by rewrite lookup_delete_eq.
  - by rewrite lookup_delete_ne, !lookup_alter_ne, lookup_insert_ne.
Qed.

(** C8, as stated, fails: when [Write] and then [Remove] fail, the call
    returns an error and the temp file is still there. *)
Lemma C8_counterexample : ~ atomic_write_as_stated.
Proof.
  intros H.
  destruct (H ∅ faults_write_and_remove "/etc/pf.anchors/void" [1%N] 420)
    as [Herr _].
  destruct (Herr eq_refl) as [_ Htmp].
  specialize (Htmp _ _ eq_refl). vm_compute in Htmp. discriminate Htmp.
Qed.

(** C8, amended.  When [AtomicWrite] returns an error: either no temp
    file was made and nothing changed, or one was made, the destination
    (a path other than the temp file's) is as before, and the temp file is
    gone if its [Remove] worked, in which case the whole file system is as
    before; if the [Remove] failed the temp file stays and one warning is
    printed.  When it returns nil, the destination holds exactly the data,
    with the mode asked for. *)
Theorem C8_atomic_write (fs : filesystem) ft (dst : string) data perm :
  let r := AtomicWrite fs ft dst data perm in
  (wr_ok r = false ->
     (CreateTemp fs ft = None /\ wr_fs r = fs) \/
     (exists fs1 tmp, CreateTemp fs ft = Some (fs1, tmp) /\
        (tmp <> dst -> wr_fs r !! dst = fs !! dst) /\
        (remove_fails ft = false -> wr_fs r = fs) /\
        (remove_fails ft = true ->
           is_Some (wr_fs r !! tmp) /\ wr_warnings r = 1%nat))) /\
  (wr_ok r = true -> wr_fs r !! dst = Some (mkFile data perm)).
Proof.
  unfold AtomicWrite.
  destruct (CreateTemp fs ft) as [[fs1 tmp]|] eqn:Hct; simpl; [|split; [auto|done]].
  destruct (CreateTemp_fresh _ _ _ _ Hct) as [Hfresh ->].
  unfold fWrite, fRemove, fChmod, fRename.
  destruct (wr_short ft) as [n|]; simpl.
  { (* short write *)
    destruct (remove_fails ft) eqn:Hrm; simpl; (split; [intros _; right|done]);
      exists (<[tmp := mkFile [] 384]> fs), tmp; split; try done.
    - split; [|split; [done|]].
      + intros Hne. by rewrite lookup_alter_ne, lookup_insert_ne.
      + intros _. split; [|done].
        rewrite lookup_alter_eq, lookup_insert_eq. simpl. eauto.
    - split; [|split; [|done]].
      + intros Hne. by rewrite temp_removed.
      + intros _. by apply temp_removed. }
  destruct (sync_fails ft) eqn:Hsync, (close_fails ft) eqn:Hclose; simpl.
  1-3: destruct (remove_fails ft) eqn:Hrm; simpl;
       (split; [intros _; right|done]);
       exists (<[tmp := mkFile [] 384]> fs), tmp; (split; [done|]);
       [ split; [|split; [done|]];
         [ intros Hne; by rewrite lookup_alter_ne, lookup_insert_ne
         | intros _; split; [|done];
           rewrite lookup_alter_eq, lookup_insert_eq; simpl; eauto ]
       | split; [|split; [|done]];
         [ intros Hne; by rewrite temp_removed
         | intros _; by apply temp_removed ] ].
  destruct (chmod_fails ft) eqn:Hchmod; simpl.
  { destruct (remove_fails ft) eqn:Hrm; simpl;
      (split; [intros _; right|done]);
      exists (<[tmp := mkFile [] 384]> fs), tmp; (split; [done|]).
    - split; [|split; [done|]].
      + intros Hne. by rewrite lookup_alter_ne, lookup_insert_ne.
      + intros _. split; [|done].
        rewrite lookup_alter_eq, lookup_insert_eq. simpl. eauto.
    - split; [|split; [|done]].
      + intros Hne. by rewrite temp_removed.
      + intros _. by apply temp_removed. }
  destruct (rename_fails ft) eqn:Hren; simpl.
  { destruct (remove_fails ft) eqn:Hrm; simpl;
      (split; [intros _; right|done]);
      exists (<[tmp := mkFile [] 384]> fs), tmp; (split; [done|]).
    - split; [|split; [done|]].
      + intros Hne. by rewrite !lookup_alter_ne, lookup_insert_ne.
      + intros _. split; [|done].
        rewrite !lookup_alter_eq, lookup_insert_eq. simpl. eauto.
    - split; [|split; [|done]].
      + intros Hne. by rewrite temp_removed2.
      + intros _. by apply temp_removed2. }
  rewrite !lookup_alter_eq, lookup_insert_eq. simpl.
  split; [done|]. intros _. by rewrite lookup_insert_eq.
Qed.

Lemma C8_atomic_write_witness :
  wr_fs (AtomicWrite ∅ faults_none "/etc/pf.anchors/void" [35; 10]%N 420)
    !! "/etc/pf.anchors/void" = Some (mkFile [35; 10]%N 420).
Proof.
  apply (C8_atomic_write ∅ faults_none "/etc/pf.anchors/void" [35; 10]%N 420).
  reflexivity.
Defined.

(** ** [ipsEqual] *)

Section IpsEqualFacts.

Variable IPString : IP -> string.

(** The counters of [ipsEqual] after counting the keys of [a]. *)
Lemma count_keys_spec a : forall (c : gmap string Z) (k : string),
  default 0 (foldl (fun counts ip =>
      <[ipKey IPString ip := default 0 (counts !! ipKey IPString ip) + 1]> counts) c a
    !! k) =
  default 0 (c !! k) +
  Z.of_nat (length (filter (fun x => x = k) (ipKey IPString <$> a))).
Proof.
  induction a as [|ip a IH]; intros c k.
  { change (default 0 (c !! k) = default 0 (c !! k) + 0). lia. }
  cbn [foldl fmap list_fmap]. rewrite IH. rewrite filter_cons.
  destruct (decide (ipKey IPString ip = k)) as [->|Hne].
  - rewrite lookup_insert_eq. simpl. lia.
  - rewrite lookup_insert_ne by done. lia.
Qed.

(** If every key of [b] finds a counter left, [b]'s keys are among the
    counted ones, with their multiplicities. *)
Lemma consume_keys_sub b : forall (c : gmap string Z) (la : list string),
  (forall k, default 0 (c !! k) =
             Z.of_nat (length (filter (fun x => x = k) la))) ->
  consume_keys IPString c b = true ->
  (ipKey IPString <$> b) ⊆+ la.
Proof.
  induction b as [|ip b IH]; intros c la Hc Hb; simpl in *.
  { apply submseteq_nil_l. }
  set (k0 := ipKey IPString ip) in *.
  destruct (decide (default 0 (c !! k0) = 0)) as [|Hpos]; [done|].
  assert (Hin : k0 ∈ la).
  { rewrite Hc in Hpos.
    destruct (filter (fun x => x = k0) la) as [|x l] eqn:Hf; [done|].
    assert (Hx : x ∈ filter (fun x => x = k0) la) by (rewrite Hf; left).
    apply list_elem_of_filter in Hx as [-> Hx]. done. }
  apply elem_of_Permutation in Hin as [la' Hperm].
  rewrite Hperm. apply submseteq_skip.
  apply (IH (<[k0 := default 0 (c !! k0) - 1]> c)); [|done].
  intros k. specialize (Hc k). rewrite Hperm, filter_cons in Hc.
  destruct (decide (k0 = k)) as [->|Hne].
  - rewrite lookup_insert_eq. simpl in *. lia.
  - by rewrite lookup_insert_ne.
Qed.

Lemma ipsEqual_true_perm a b :
  ipsEqual IPString a b = true ->
  (ipKey IPString <$> b) ≡ₚ (ipKey IPString <$> a).
Proof.
  unfold ipsEqual. destruct (decide (length a <> length b)) as [|Hlen]; [done|].
  assert (Hl : length a = length b) by lia.
  destruct (decide (length a = 0%nat)) as [Ha|Ha].
  { intros _. destruct a; [|done]. destruct b; [|done]. done. }
  intros Hc. apply submseteq_length_Permutation.
  - eapply consume_keys_sub; [|done]. intros k. unfold count_keys.
    rewrite count_keys_spec, lookup_empty. simpl. lia.
  - rewrite !length_fmap. lia.
Qed.

(** Address sets that differ are told apart by [ipsEqual]. *)
Lemma ipsEqual_differ a b :
  ~ same_ip_set IPString a b -> ipsEqual IPString a b = false.
Proof.
  intros Hne. destruct (ipsEqual IPString a b) eqn:He; [|done].
  exfalso. apply Hne. intros k. by rewrite (ipsEqual_true_perm _ _ He).
Qed.

End IpsEqualFacts.

(** ** The reconcile tick *)

Lemma stored_other_ptr s r r2 p e p2 e2 :
  deref s p = Some e -> rule e = r ->
  deref s p2 = Some e2 -> rule e2 = r2 ->
  ID r2 <> ID r -> p2 <> p.
Proof. intros He Hr He2 Hr2 Hne ->. apply Hne. congruence. Qed.

Lemma Upsert_refresh s r ips now :
  wf s -> stored s r ->
  exists s',
    Upsert s (mkRule (ID r) (Domain r) ips (Expires r) (Permanent r) now)
      = Some (s', true) /\
    wf s' /\
    stored s' (mkRule (ID r) (Domain r) ips (Expires r) (Permanent r) now) /\
    forall r2, stored s r2 -> ID r2 <> ID r -> stored s' r2.
Proof.
  intros Hwf (p & e & Hid & He & Hrule).
  destruct (wf_byID s Hwf _ _ Hid) as (e0 & He0 & _ & Hkey).
  assert (e0 = e) by congruence. subst e0. rewrite Hrule in Hkey.
  set (r' := mkRule (ID r) (Domain r) ips (Expires r) (Permanent r) now).
  assert (Hc : negb (Permanent (rule e)) && Permanent r' = false).
  { rewrite Hrule. simpl. by destruct (Permanent r). }
  rewrite (Upsert_update s r' p e Hkey He Hc).
  eexists. split; [done|].
  set (f := fun c => mkRule (ID c) (Domain c) (IPs r') (Expires r')
                            (Permanent c) (ResolvedAt r')).
  assert (Hd : forall q, deref (set_mem s (<[p := with_rule f e]> (mem s))) q =
            if decide (q = p) then Some (with_rule f e) else deref s q)
    by (intros q; by apply upd_rule_deref).
  split; [by apply wf_upd_rule|]. split.
  - exists p, (with_rule f e). split; [done|]. split.
    + by rewrite Hd, decide_True.
    + simpl. unfold f. by rewrite Hrule.
  - intros r2 (p2 & e2 & Hid2 & He2 & Hrule2) Hne.
    exists p2, e2. split; [done|]. split; [|done].
    rewrite Hd, decide_False; [done|]. by eapply stored_other_ptr.
Qed.

Lemma UpdateResolvedAt_refresh s r now :
  wf s -> stored s r ->
  exists s' b,
    UpdateResolvedAt s (ID r) now = Some (s', b) /\ wf s' /\
    forall r2, stored s r2 -> ID r2 <> ID r -> stored s' r2.
Proof.
  intros Hwf (p & e & Hid & He & Hrule).
  destruct (UpdateResolvedAt_ok s (ID r) now Hwf)
    as (s' & b & Hura & Hwf' & HbI & HbD & Hrules).
  exists s', b. split; [done|]. split; [done|].
  intros r2 (p2 & e2 & Hid2 & He2 & Hrule2) Hne.
  assert (Hp : p2 <> p) by (by eapply stored_other_ptr).
  specialize (Hrules p2). rewrite He2 in Hrules. simpl in Hrules.
  rewrite decide_False in Hrules by congruence.
  destruct (deref s' p2) as [e2'|] eqn:He2'; [|done].
  exists p2, e2'. split; [by rewrite HbI|]. split; [done|].
  simpl in Hrules. congruence.
Qed.

Section TickFacts.

Variable IPString : IP -> string.

Lemma refresh_loop_spec dnsRefresh w : forall snap i acc,
  wf (t_store acc) -> NoDup (ID <$> snap) ->
  (forall r, r ∈ snap -> stored (t_store acc) r) ->
  exists res,
    refresh_loop IPString dnsRefresh w i snap acc = Some res /\
    wf (t_store res) /\
    t_resolved res = t_resolved acc ++ refreshed dnsRefresh w i snap /\
    (forall r2, stored (t_store acc) r2 -> ID r2 ∉ ID <$> snap ->
                stored (t_store res) r2) /\
    (forall (k : nat) r ips,
       snap !! k = Some r ->
       needs_refresh dnsRefresh (w_clock w (i + k)) r = true ->
       w_lookup w (i + k)%nat (Domain r) = LookupOk ips ->
       ~ same_ip_set IPString (IPs r) ips ->
       stored (t_store res)
         (mkRule (ID r) (Domain r) ips (Expires r) (Permanent r) (w_now w))).
Proof.
  induction snap as [|r rest IH]; intros i acc Hwf Hnd Hst.
  { exists acc. simpl. split; [done|]. split; [done|].
    split; [by rewrite app_nil_r|]. split; [done|]. intros k r ips Hk. done. }
  rewrite fmap_cons in Hnd. apply NoDup_cons in Hnd as [Hnotin Hnd].
  assert (Hr : stored (t_store acc) r) by (apply Hst; left).
  assert (Hrest : forall r', r' ∈ rest -> ID r' <> ID r).
  { intros r' Hin Heq. apply Hnotin. rewrite <- Heq.
    apply list_elem_of_fmap. by exists r'. }
  (* what remains to be shown once this round is done and led to [acc1] *)
  assert (Hgo : forall acc1,
    wf (t_store acc1) ->
    (forall r2, stored (t_store acc) r2 -> ID r2 <> ID r ->
                stored (t_store acc1) r2) ->
    t_resolved acc1 = t_resolved acc ++
      (if needs_refresh dnsRefresh (w_clock w i) r then [Domain r] else []) ->
    (forall ips,
       needs_refresh dnsRefresh (w_clock w i) r = true ->
       w_lookup w i (Domain r) = LookupOk ips ->
       ~ same_ip_set IPString (IPs r) ips ->
       stored (t_store acc1)
         (mkRule (ID r) (Domain r) ips (Expires r) (Permanent r) (w_now w))) ->
    exists res,
      refresh_loop IPString dnsRefresh w (S i) rest acc1 = Some res /\
      wf (t_store res) /\
      t_resolved res = t_resolved acc ++ refreshed dnsRefresh w i (r :: rest) /\
      (forall r2, stored (t_store acc) r2 -> ID r2 ∉ ID <$> (r :: rest) ->
                  stored (t_store res) r2) /\
      (forall (k : nat) r0 ips,
         (r :: rest) !! k = Some r0 ->
         needs_refresh dnsRefresh (w_clock w (i + k)) r0 = true ->
         w_lookup w (i + k)%nat (Domain r0) = LookupOk ips ->
         ~ same_ip_set IPString (IPs r0) ips ->
         stored (t_store res)
           (mkRule (ID r0) (Domain r0) ips (Expires r0) (Permanent r0) (w_now w)))).
  { intros acc1 Hwf1 Hkeep Hres Heff.
    destruct (IH (S i) acc1 Hwf1 Hnd) as (res & Hrun & Hwfr & Hresr & Hkeepr & Heffr).
    { intros r' Hin. apply Hkeep; [apply Hst; by right|by apply Hrest]. }
    exists res. split; [done|]. split; [done|]. split; [|split].
    - rewrite Hresr, Hres. simpl. by rewrite <- app_assoc.
    - intros r2 Hs2 Hnin. rewrite fmap_cons in Hnin.
      apply not_elem_of_cons in Hnin as [Hne Hnin].
      apply Hkeepr; [|done]. by apply Hkeep.
    - intros k r0 ips Hk Hneed Hlk Hdiff. destruct k as [|k]; simpl in Hk.
      + injection Hk as <-. rewrite Nat.add_0_r in Hneed, Hlk.
        apply Hkeepr; [by apply Heff|]. simpl. done.
      + rewrite Nat.add_succ_r in Hneed, Hlk. by eapply Heffr. }
  destruct (needs_refresh dnsRefresh (w_clock w i) r) eqn:Hneed.
  2: { cbn [refresh_loop]. rewrite Hneed. apply Hgo; try done.
       by rewrite app_nil_r. }
  cbn [refresh_loop]. rewrite Hneed.
  destruct (w_lookup w i (Domain r)) as [err|newIPs] eqn:Hlk.
  { apply Hgo; try done. }
  destruct (ipsEqual IPString (IPs r) newIPs) eqn:Heq; cbn [negb t_store].
  - destruct (UpdateResolvedAt_refresh (t_store acc) r (w_now w) Hwf Hr)
      as (s1 & b & -> & Hwf1 & Hkeep).
    rewrite bind_Some. apply Hgo; try done.
    intros ips _ [= <-] Hdiff.
    rewrite (ipsEqual_differ IPString _ _ Hdiff) in Heq. done.
  - destruct (Upsert_refresh (t_store acc) r newIPs (w_now w) Hwf Hr)
      as (s1 & -> & Hwf1 & Hnew & Hkeep).
    rewrite bind_Some. apply Hgo; try done.
    intros ips _ [= <-] _. done.
Qed.

Lemma snapshot_stored s l :
  wf s -> is_snapshot s l ->
  NoDup (ID <$> l) /\ forall r, r ∈ l -> stored s r.
Proof.
  intros Hwf (ids & Hperm & Hall).
  assert (Hone : forall id r, snapshot_map s !! id = Some r ->
            ID r = id /\ stored s r).
  { intros id r Hm. unfold snapshot_map in Hm.
    apply lookup_omap_Some in Hm as (p & Hr & Hid).
    destruct (deref s p) as [e|] eqn:He; [|done]. injection Hr as Hr.
    destruct (wf_byID s Hwf _ _ Hid) as (e0 & He0 & Hide & _).
    assert (e0 = e) by congruence. subst e0.
    split; [congruence|]. exists p, e. rewrite <- Hr, Hide. done. }
  assert (Hids : ID <$> l = ids).
  { clear Hperm. induction Hall as [|id r ids l Hm Hall IH]; [done|].
    rewrite fmap_cons, IH. f_equal. by apply Hone. }
  split.
  - rewrite Hids, Hperm. apply NoDup_fst_map_to_list.
  - intros r Hin. apply list_elem_of_lookup_1 in Hin as [k Hk].
    destruct (Forall2_lookup_r _ _ _ _ _ Hall Hk) as (id & _ & Hm).
    by apply (Hone id).
Qed.

Lemma Snapshot_is_snapshot s : wf s -> is_snapshot s (Snapshot s).
Proof.
  intros Hwf. exists (map_to_list (byID s)).*1. split; [done|].
  unfold Snapshot.
  assert (Hall : forall id, id ∈ (map_to_list (byID s)).*1 ->
            is_Some (snapshot_map s !! id)).
  { intros id Hin. apply list_elem_of_fmap in Hin as ([id' p] & -> & Hin).
    apply elem_of_map_to_list in Hin. simpl.
    destruct (wf_byID s Hwf _ _ Hin) as (e & He & _).
    exists (rule e). unfold snapshot_map. apply lookup_omap_Some.
    exists p. by rewrite He. }
  induction ((map_to_list (byID s)).*1) as [|id ids IH]; simpl; [constructor|].
  destruct (Hall id ltac:(left)) as [r Hr]. rewrite Hr.
  constructor; [done|]. apply IH. intros id' Hin. apply Hall. by right.
Qed.

End TickFacts.

Lemma wf_of_run ops : wf (default NewStore (run NewStore ops)).
Proof.
  destruct (run_wf ops NewStore wf_NewStore) as (s & Hrun & Hwf).
  by rewrite Hrun.
Qed.

(** C7, as stated, fails in its first half: a rule resolved exactly nine
    tenths of the interval before the tick's [now] is not stale by the
    specification's formula, and the handler re-resolves it, because
    [time.Since] reads the clock again, later. *)
Lemma C7_counterexample : ~ tick_as_stated.
Proof.
  intros H.
  specialize (H IPString_bytes minute world_late store_a store_a []).
  assert (Hres : exists res,
    handleRefreshExpire IPString_bytes minute world_late store_a = Some res /\
    t_resolved res = ["a.com"]).
  { eexists. split; [vm_compute; reflexivity|reflexivity]. }
  destruct Hres as (res & Hrun & Hresolved).
  specialize (H res (wf_of_run _)).
  assert (Hbad : t_resolved res = []).
  { apply H.
    - intros i. vm_compute. discriminate.
    - vm_compute. reflexivity.
    - apply Snapshot_is_snapshot, wf_of_run.
    - exact Hrun. }
  rewrite Hresolved in Hbad. discriminate Hbad.
Qed.

(** C7, amended.  On a well-formed store a reconcile tick runs to its end.
    It re-resolves exactly the rules of the snapshot (taken after expiry)
    whose [resolved_at] is zero or lies more than [dnsRefresh*9/10] before
    the clock reading of their own round.  For each such rule whose lookup
    gives an address set different from the old one, the store afterwards
    holds, under the same id, the rule with the new addresses, the same
    domain, [Expires] and [Permanent], and [ResolvedAt] the tick's [now]. *)
Theorem C7_reconcile_tick (IPString : IP -> string) dnsRefresh w s :
  wf s ->
  (forall s1, wf s1 -> is_snapshot s1 (w_order w s1)) ->
  exists s1 expired res,
    ExpireNow s (w_now w) = Some (s1, expired) /\
    handleRefreshExpire IPString dnsRefresh w s = Some res /\
    t_resolved res = refreshed dnsRefresh w 0 (w_order w s1) /\
    forall (k : nat) r ips,
      w_order w s1 !! k = Some r ->
      needs_refresh dnsRefresh (w_clock w k) r = true ->
      w_lookup w k (Domain r) = LookupOk ips ->
      ~ same_ip_set IPString (IPs r) ips ->
      stored (t_store res)
        (mkRule (ID r) (Domain r) ips (Expires r) (Permanent r) (w_now w)).
Proof.
  intros Hwf Hsnap.
  destruct (ExpireNow_wf s (w_now w) Hwf) as (s1 & expired & Hexp & Hwf1).
  destruct (snapshot_stored s1 _ Hwf1 (Hsnap s1 Hwf1)) as [Hnd Hst].
  destruct (refresh_loop_spec IPString dnsRefresh w (w_order w s1) 0
              (mkTick s1 (bool_decide (0 < length expired)%nat) [] [])
              Hwf1 Hnd Hst) as (res & Hrun & _ & Hres & _ & Heff).
  exists s1, expired, res. split; [done|]. split.
  { unfold handleRefreshExpire. by rewrite Hexp. }
  split; [done|]. intros k r ips Hk Hneed Hlk Hdiff. by eapply Heff.
Qed.

Lemma C7_reconcile_tick_witness :
  exists res,
    handleRefreshExpire IPString_bytes minute world_drift store_a_fresh
      = Some res /\
    stored (t_store res)
      (mkRule "1" "a.com" [mkIPAddr [10; 0; 0; 2]%N ""] zeroTime true 1000).
Proof.
  destruct (C7_reconcile_tick IPString_bytes minute world_drift store_a_fresh
              (wf_of_run _)
              (fun s1 Hwf1 => Snapshot_is_snapshot s1 Hwf1))
    as (s1 & expired & res & Hexp & Hrun & _ & Heff).
  exists res. split; [exact Hrun|].
  assert (Hs1 : s1 = store_a_fresh).
  { vm_compute in Hexp. injection Hexp as <- _. vm_compute. reflexivity. }
  subst s1.
  apply (Heff 0%nat (mkRule "1" "a.com" [mkIPAddr [10; 0; 0; 1]%N ""]
                            zeroTime true zeroTime)).
  - vm_compute. reflexivity.
  - vm_compute. reflexivity.
  - reflexivity.
  - intros Hsame. specialize (Hsame (ipKey IPString_bytes (mkIPAddr [10; 0; 0; 2]%N ""))).
    destruct Hsame as [_ Hsame].
    assert (Hin : ipKey IPString_bytes (mkIPAddr [10; 0; 0; 2]%N "")
                  ∈ ipKey IPString_bytes <$> [mkIPAddr [10; 0; 0; 1]%N ""]).
    { apply Hsame. simpl. left. }
    simpl in Hin. apply list_elem_of_singleton in Hin. vm_compute in Hin.
    discriminate Hin.
Defined.

(** ** The anchor codec: text *)

Lemma sapp_cons c (a b : string) : (String c a ++ b)%string = String c (a ++ b).
Proof. reflexivity. Qed.

Lemma sapp_nil_r (s : string) : (s ++ EmptyString)%string = s.
Proof. induction s as [|c s IH]; [done|]. by rewrite sapp_cons, IH. Qed.

Lemma sapp_assoc (a b c : string) : (a ++ (b ++ c))%string = ((a ++ b) ++ c)%string.
Proof. induction a as [|x a IH]; [done|]. by rewrite !sapp_cons, IH. Qed.

Lemma srev_app (a b : string) : srev (a ++ b) = (srev b ++ srev a)%string.
Proof.
  induction a as [|x a IH].
  - change (srev b = (srev b ++ EmptyString)%string). by rewrite sapp_nil_r.
  - rewrite sapp_cons. cbn [srev]. by rewrite IH, sapp_assoc.
Qed.

Lemma srev_involutive (s : string) : srev (srev s) = s.
Proof.
  induction s as [|c s IH]; [done|].
  cbn [srev]. rewrite srev_app, IH. reflexivity.
Qed.

Lemma strip_prefix_app (p s : string) : strip_prefix p (p ++ s) = Some s.
Proof.
  induction p as [|c p IH]; [done|].
  rewrite sapp_cons. cbn [strip_prefix]. by rewrite Ascii.eqb_refl.
Qed.

Lemma strip_suffix_app (suf s : string) : strip_suffix suf (s ++ suf) = Some s.
Proof.
  unfold strip_suffix. rewrite srev_app, strip_prefix_app.
  cbn [fmap option_fmap option_map]. by rewrite srev_involutive.
Qed.

Lemma clean_app (a b : string) : clean (a ++ b) = clean a && clean b.
Proof.
  induction a as [|c a IH]; [done|].
  rewrite sapp_cons. cbn [clean]. rewrite IH. by rewrite andb_assoc.
Qed.

Lemma chomp_cr_clean (s : string) : clean s = true -> chomp_cr s = s.
Proof.
  induction s as [|c s IH]; [done|].
  cbn [clean]. intros H.
  apply andb_true_iff in H as [H1 H2].
  apply andb_true_iff in H1 as [_ H1].
  cbn [chomp_cr]. destruct s as [|d s].
  - destruct (Ascii.eqb c CR); [discriminate H1|done].
  - by rewrite (IH H2).
Qed.

Lemma no_space_clean (s : string) : no_space s = true -> clean s = true.
Proof.
  induction s as [|c s IH]; [done|].
  cbn [no_space clean]. intros H.
  apply andb_true_iff in H as [H1 H2].
  rewrite (IH H2), andb_true_r.
  destruct (Ascii.eqb_spec c LF) as [->|_]; [discriminate H1|].
  destruct (Ascii.eqb_spec c CR) as [->|_]; [discriminate H1|done].
Qed.

Lemma token_clean (s : string) : is_token s = true -> clean s = true.
Proof.
  unfold is_token. intros H. apply andb_true_iff in H as [_ H].
  by apply no_space_clean.
Qed.

Lemma split_lines_line (l rest : string) :
  clean l = true ->
  split_lines (l ++ String LF rest) = l :: split_lines rest.
Proof.
  induction l as [|c l IH]; [done|].
  cbn [clean]. intros H.
  apply andb_true_iff in H as [H1 H2].
  apply andb_true_iff in H1 as [H1 _].
  rewrite sapp_cons.
  cbn [split_lines]. rewrite (IH H2).
  by destruct (Ascii.eqb c LF).
Qed.

Lemma split_lines_unlines (ls : list string) :
  Forall (fun l => clean l = true) ls ->
  split_lines (unlines ls) = ls ++ [EmptyString].
Proof.
  induction 1 as [|l ls Hl _ IH]; [done|].
  cbn [unlines foldr]. rewrite (split_lines_line _ _ Hl).
  fold (unlines ls). rewrite IH. done.
Qed.

(** ** The anchor codec: line forms *)

Lemma classify_begin (id : string) :
  is_token id = true ->
  classify (delim_prefix ++ id ++ begin_suffix) = LBegin id.
Proof.
  intros H. unfold classify, delimiter.
  rewrite strip_prefix_app. cbn [mbind option_bind].
  rewrite strip_suffix_app. cbn [mbind option_bind]. by rewrite H.
Qed.

Lemma classify_end (id : string) :
  is_token id = true ->
  classify (delim_prefix ++ id ++ end_suffix) = LEnd id.
Proof.
  intros H. unfold classify, delimiter.
  rewrite strip_prefix_app. cbn [mbind option_bind].
  assert (Hb : strip_suffix begin_suffix (id ++ end_suffix) = None).
  { unfold strip_suffix. rewrite srev_app. reflexivity. }
  rewrite Hb. cbn [mbind option_bind].
  rewrite strip_suffix_app. cbn [mbind option_bind]. by rewrite H.
Qed.

Lemma classify_domain (d : string) :
  classify (domain_prefix ++ d) = LDomain d.
Proof. reflexivity. Qed.

Lemma classify_expires (t : string) :
  classify (expires_prefix ++ t) = LExpires t.
Proof. reflexivity. Qed.

Lemma classify_tcp (a : string) :
  classify (tcp_prefix ++ a) = LAddr a.
Proof. reflexivity. Qed.

Lemma classify_udp (a : string) :
  classify (udp_prefix ++ a) = LAddr a.
Proof. reflexivity. Qed.

(** ** The anchor codec: the parser on the emitter's lines *)

Lemma add_ip_twice (l : list IPAddr) a : add_ip (add_ip l a) a = add_ip l a.
Proof.
  unfold add_ip. destruct (decide (a ∈ l)) as [Hin|Hin].
  - by rewrite decide_True.
  - rewrite decide_True; [done|]. apply elem_of_app. right. by apply list_elem_of_singleton.
Qed.

Lemma elem_of_add_ips (ips acc : list IPAddr) a :
  a ∈ foldl add_ip acc ips <-> a ∈ acc \/ a ∈ ips.
Proof.
  revert acc. induction ips as [|b ips IH]; intros acc; cbn [foldl].
  - split; [by left|]. intros [H|H]; [done|]. by apply elem_of_nil in H.
  - rewrite IH. unfold add_ip. destruct (decide (b ∈ acc)) as [Hb|Hb].
    + rewrite elem_of_cons. split; [intros [?|?]; auto|].
      intros [?|[->|?]]; auto.
    + rewrite elem_of_app, list_elem_of_singleton, elem_of_cons.
      split; [intros [[?|?]|?]; auto|]. intros [?|[?|?]]; auto.
Qed.

Section AnchorCodecFacts.

Variable formatTime : Time -> string.
Variable parseTime : string -> option Time.
Variable IPString : IP -> string.
Variable ParseIP : string -> option IP.

Lemma walk_plain (ls rest : list string) done :
  Forall (fun l => plain_line l = true) ls ->
  walk_lines parseTime ParseIP (ls ++ rest) None done
  = walk_lines parseTime ParseIP rest None done.
Proof.
  induction 1 as [|l ls Hl _ IH]; [done|].
  unfold plain_line in Hl.
  change ((l :: ls) ++ rest) with (l :: (ls ++ rest)).
  cbn [walk_lines].
  destruct (classify (chomp_cr l)); try discriminate Hl; exact IH.
Qed.

Lemma walk_addrs (ips : list IPAddr) (rest : list string) b done :
  Forall (fun a => ip_Zone a = EmptyString /\ ip_text_ok IPString ParseIP (ip_IP a)) ips ->
  walk_lines parseTime ParseIP (flat_map (addr_lines IPString) ips ++ rest) (Some b) done
  = walk_lines parseTime ParseIP rest
      (Some (mkBlock (b_id b) (b_domain b) (b_expires b) (foldl add_ip (b_ips b) ips)))
      done.
Proof.
  intros H. revert b. induction H as [|a ips [Hz [Hp Hc]] _ IH]; intros b.
  - by destruct b.
  - change (flat_map (addr_lines IPString) (a :: ips) ++ rest)
      with ((tcp_prefix ++ IPString (ip_IP a))%string
            :: (udp_prefix ++ IPString (ip_IP a))%string
            :: (flat_map (addr_lines IPString) ips ++ rest)).
    assert (Ha : mkIPAddr (ip_IP a) EmptyString = a).
    { destruct a as [i z]. cbn in Hz. by subst z. }
    cbn [walk_lines].
    rewrite (chomp_cr_clean (tcp_prefix ++ _)) by (rewrite clean_app, Hc; reflexivity).
    rewrite classify_tcp, Hp. cbn [walk_lines].
    rewrite (chomp_cr_clean (udp_prefix ++ _)) by (rewrite clean_app, Hc; reflexivity).
    rewrite classify_udp, Hp.
    rewrite IH. cbn [b_id b_domain b_expires b_ips foldl].
    by rewrite Ha, add_ip_twice.
Qed.

Lemma clean_delimiter (id suf : string) :
  is_token id = true -> clean suf = true ->
  clean (delim_prefix ++ id ++ suf) = true.
Proof.
  intros Hid Hs. by rewrite !clean_app, (token_clean _ Hid), Hs.
Qed.

Lemma walk_rule (r : Rule) (rest : list string) done :
  codec_rule_ok formatTime parseTime IPString ParseIP r ->
  ID r ∉ ID <$> done ->
  walk_lines parseTime ParseIP (emit_rule formatTime IPString r ++ rest) None done
  = walk_lines parseTime ParseIP rest None (done ++ [read_back r]).
Proof.
  intros [Hid Hdom Hips Haddr Hperm Hexp] Hnew.
  unfold emit_rule. rewrite <- !app_assoc.
  change ([(delim_prefix ++ ID r ++ begin_suffix)%string;
           (domain_prefix ++ Domain r)%string] ++ ?x)
    with ((delim_prefix ++ ID r ++ begin_suffix)%string
          :: (domain_prefix ++ Domain r)%string :: x).
  cbn [walk_lines].
  rewrite (chomp_cr_clean _ (clean_delimiter _ begin_suffix Hid eq_refl)).
  rewrite (classify_begin _ Hid). cbn [walk_lines].
  rewrite (chomp_cr_clean (domain_prefix ++ _)) by (rewrite clean_app, Hdom; reflexivity).
  rewrite classify_domain. cbn [b_id b_domain b_expires b_ips].
  assert (Hend : forall e,
    (Permanent r = true -> e = None) ->
    (Permanent r = false -> e = Some (Expires r)) ->
    walk_lines parseTime ParseIP
      (flat_map (addr_lines IPString) (IPs r)
       ++ [(delim_prefix ++ ID r ++ end_suffix)%string] ++ rest)
      (Some (mkBlock (ID r) (Domain r) e [])) done
    = walk_lines parseTime ParseIP rest None (done ++ [read_back r])).
  { intros e He1 He2. rewrite (walk_addrs _ _ _ _ Haddr).
    cbn [b_id b_domain b_expires b_ips].
    change ([(delim_prefix ++ ID r ++ end_suffix)%string] ++ rest)
      with ((delim_prefix ++ ID r ++ end_suffix)%string :: rest).
    cbn [walk_lines].
    rewrite (chomp_cr_clean _ (clean_delimiter _ end_suffix Hid eq_refl)).
    rewrite (classify_end _ Hid). cbn [b_id].
    rewrite decide_True by done. rewrite decide_False by done.
    f_equal. f_equal. f_equal.
    unfold rule_of_block, read_back. cbn [b_id b_domain b_expires b_ips].
    destruct r as [i d ips ex [|] ra]; cbn in *.
    - rewrite (He1 eq_refl), (Hperm eq_refl). reflexivity.
    - rewrite (He2 eq_refl). reflexivity. }
  destruct (Permanent r) eqn:Hp.
  - change ([] ++ ?x) with x. apply Hend; [done|discriminate].
  - destruct (Hexp eq_refl) as [Hpt Hct].
    change ([(expires_prefix ++ formatTime (Expires r))%string] ++ ?x)
      with ((expires_prefix ++ formatTime (Expires r))%string :: x).
    cbn [walk_lines].
    rewrite (chomp_cr_clean (expires_prefix ++ _)) by (rewrite clean_app, Hct; reflexivity).
    rewrite classify_expires, Hpt. cbn [b_id b_domain b_expires b_ips].
    apply Hend; [discriminate|done].
Qed.

Lemma walk_rules (xs : list Rule) (rest : list string) done :
  Forall (codec_rule_ok formatTime parseTime IPString ParseIP) xs ->
  NoDup (ID <$> xs) ->
  (forall r, r ∈ xs -> ID r ∉ ID <$> done) ->
  walk_lines parseTime ParseIP (flat_map (emit_rule formatTime IPString) xs ++ rest) None done
  = walk_lines parseTime ParseIP rest None (done ++ (read_back <$> xs)).
Proof.
  intros Hok. revert done. induction Hok as [|r xs Hr _ IH]; intros done Hnd Hnew.
  - cbn. by rewrite app_nil_r.
  - cbn [flat_map fmap list_fmap]. rewrite <- app_assoc.
    rewrite (walk_rule _ _ _ Hr) by (apply Hnew; left).
    cbn [fmap list_fmap] in Hnd. apply NoDup_cons in Hnd as [Hr1 Hnd].
    rewrite IH; [by rewrite <- app_assoc|done|].
    intros r' Hr'. rewrite fmap_app, elem_of_app. intros [Hin|Hin].
    + apply (Hnew r'); [by right|done].
    + cbn in Hin. apply list_elem_of_singleton in Hin.
      apply Hr1. rewrite <- Hin. apply list_elem_of_fmap. by exists r'.
Qed.

Lemma header_plain : Forall (fun l => plain_line l = true) header_lines.
Proof. repeat constructor. Qed.

Lemma header_clean : Forall (fun l => clean l = true) header_lines.
Proof. repeat constructor. Qed.

Lemma emit_rule_clean (r : Rule) :
  codec_rule_ok formatTime parseTime IPString ParseIP r ->
  Forall (fun l => clean l = true) (emit_rule formatTime IPString r).
Proof.
  intros [Hid Hdom Hips Haddr Hperm Hexp].
  unfold emit_rule. repeat apply Forall_app_2.
  - repeat constructor.
    + by apply clean_delimiter.
    + by rewrite clean_app, Hdom.
  - destruct (Permanent r); [constructor|].
    destruct (Hexp eq_refl) as [_ Hc].
    repeat constructor. by rewrite clean_app, Hc.
  - clear Hips. induction Haddr as [|a ips [_ [_ Hc]] _ IH]; [constructor|].
    cbn [flat_map]. apply Forall_app_2; [|exact IH].
    repeat constructor; by rewrite clean_app, Hc.
  - repeat constructor. by apply clean_delimiter.
Qed.

Lemma filter_has_ips (xs : list Rule) :
  Forall (fun r => IPs r <> []) xs -> List.filter has_ips xs = xs.
Proof.
  induction 1 as [|r xs Hr _ IH]; [done|].
  cbn [List.filter]. unfold has_ips at 1.
  destruct (IPs r); [done|]. by rewrite IH.
Qed.

Lemma walk_emit (xs : list Rule) :
  Forall (codec_rule_ok formatTime parseTime IPString ParseIP) xs ->
  NoDup (ID <$> xs) ->
  walk parseTime ParseIP (emit formatTime IPString xs) = inr (read_back <$> xs).
Proof.
  intros Hok Hnd. unfold walk, emit.
  rewrite filter_has_ips by (eapply Forall_impl; [exact Hok|]; by intros r []).
  rewrite split_lines_unlines.
  - rewrite <- app_assoc, (walk_plain _ _ _ header_plain).
    rewrite (walk_rules _ _ _ Hok Hnd) by (intros r _ H; by apply elem_of_nil in H).
    reflexivity.
  - apply Forall_app_2; [exact header_clean|].
    induction Hok as [|r xs' Hr _ IH]; [constructor|].
    cbn [flat_map]. apply Forall_app_2; [by apply emit_rule_clean|].
    apply IH. cbn [fmap list_fmap] in Hnd. by apply NoDup_cons in Hnd as [_ ?].
Qed.

Lemma read_back_carried (r : Rule) : rule_carried r (read_back r).
Proof.
  unfold rule_carried, read_back. cbn.
  repeat (split; [reflexivity|]).
  intros a. rewrite elem_of_add_ips. split; [by right|].
  intros [H|H]; [by apply elem_of_nil in H|done].
Qed.

Lemma walk_lines_resolved (ls : list string) cur done ys :
  walk_lines parseTime ParseIP ls cur done = inr ys ->
  Forall (fun r => ResolvedAt r = zeroTime) done ->
  Forall (fun r => ResolvedAt r = zeroTime) ys.
Proof.
  revert cur done. induction ls as [|l ls IH]; intros cur done Hw Hd.
  - cbn in Hw. by injection Hw as <-.
  - cbn [walk_lines] in Hw.
    destruct (classify (chomp_cr l)) as [id|id|d|t|a|], cur as [b|];
      try discriminate Hw; try (by eapply IH).
    + destruct (decide (id = b_id b)); [|discriminate Hw].
      destruct (decide (id ∈ ID <$> done)); [discriminate Hw|].
      eapply IH; [exact Hw|]. apply Forall_app_2; [done|].
      by repeat constructor.
    + destruct (parseTime t); by eapply IH.
    + destruct (ParseIP a); by eapply IH.
Qed.

End AnchorCodecFacts.

(** C2, as stated: the round-trip law does not hold for every rule list,
    whatever the text forms of instants and addresses are.  The grammar of a
    block has no line for the time of resolution, so a rule whose
    [ResolvedAt] is set, as every rule that the block handler stores, reads
    back with a zero [ResolvedAt]. *)
Lemma C2_counterexample : ~ roundtrip_as_stated.
Proof.
  intros (formatTime & parseTime & IPString & ParseIP & H).
  destruct (H [rule_resolved_fixture]) as (ys & Hw & Hs).
  apply walk_lines_resolved in Hw; [|constructor].
  apply Forall2_cons_inv_l in Hs as (y & ys' & Hy & _ & ->).
  apply Forall_cons in Hw as [Hz _].
  destruct Hy as (_ & _ & _ & _ & Hr & _).
  rewrite Hz in Hr. discriminate Hr.
Qed.

(** C2, amended: for a rule list whose ids are pairwise distinct and whose
    rules the grammar can carry (the id is a token without white space, the
    domain has no CR or LF, there is at least one address, the addresses
    have no zone and their text reads back, a permanent rule has a zero
    expiry, the expiry of a temporary rule reads back from its text), the
    parser applied to the emitter's bytes returns, without error and in the
    same order, rules equal to the given ones in id, domain, expiry and
    permanence, with the addresses taken as sets.  The time of resolution,
    whatever it is in the given rules, is not compared: it is zero in every
    rule read. *)
Theorem C2_codec_round_trip formatTime parseTime IPString ParseIP (xs : list Rule) :
  Forall (codec_rule_ok formatTime parseTime IPString ParseIP) xs ->
  NoDup (ID <$> xs) ->
  exists ys,
    walk parseTime ParseIP (emit formatTime IPString xs) = inr ys /\
    Forall2 rule_carried xs ys.
Proof.
  intros Hok Hnd. exists (read_back <$> xs). split.
  - by apply walk_emit.
  - clear. induction xs as [|r xs IH]; constructor; [apply read_back_carried|exact IH].
Qed.

Lemma fixtures_ok :
  Forall (codec_rule_ok formatTime_fixture parseTime_fixture IPString_fixture ParseIP_fixture)
         [rule_temp_fixture; rule_resolved_fixture; rule_perm_fixture].
Proof.
  repeat constructor; try discriminate; try (intros _; repeat constructor).
Qed.

Lemma C2_codec_round_trip_witness :
  exists ys,
    walk parseTime_fixture ParseIP_fixture
         (emit formatTime_fixture IPString_fixture
               [rule_temp_fixture; rule_resolved_fixture; rule_perm_fixture])
    = inr ys /\
    Forall2 rule_carried [rule_temp_fixture; rule_resolved_fixture; rule_perm_fixture] ys.
Proof.
  apply (C2_codec_round_trip formatTime_fixture parseTime_fixture
           IPString_fixture ParseIP_fixture).
  - exact fixtures_ok.
  - apply (bool_decide_unpack _). vm_compute. reflexivity.
Defined.

(** Why the amended law asks what it asks of the rule list, on the fixtures:
    a second block under an id already read is an error; a rule without
    addresses is not written, so it does not come back; and a permanent rule
    comes back with a zero expiry, whatever expiry it had. *)
Lemma codec_duplicate_id :
  walk parseTime_fixture ParseIP_fixture
       (emit formatTime_fixture IPString_fixture [rule_perm_fixture; rule_perm_fixture])
  = inl DuplicateId.
Proof. vm_compute. reflexivity. Qed.

Lemma codec_no_address :
  walk parseTime_fixture ParseIP_fixture
       (emit formatTime_fixture IPString_fixture
             [mkRule "C06B2055-B1FF-4C98-B0C6-6967BD59D512" "example.org" []
                     zeroTime true zeroTime])
  = inr [].
Proof. vm_compute. reflexivity. Qed.

Lemma codec_permanent_expiry :
  walk parseTime_fixture ParseIP_fixture
       (emit formatTime_fixture IPString_fixture
             [mkRule "C06B2055-B1FF-4C98-B0C6-6967BD59D512" "example.org"
                     [mkIPAddr ip_1338 EmptyString] t_fixture true zeroTime])
  = inr [rule_perm_fixture].
Proof. vm_compute. reflexivity. Qed.

(** ** The store: what each operation does to the rules *)

Lemma deref_app_old s e q :
  q <> length (mem s) ->
  deref (set_mem s (mem s ++ [e])) q = deref s q.
Proof.
  intros Hq. unfold deref. cbn [mem set_mem].
  destruct (decide (q < length (mem s))%nat) as [Hlt|Hge].
  - by rewrite lookup_app_l.
  - rewrite !lookup_ge_None_2; [done|lia|rewrite length_app; simpl; lia].
Qed.

Lemma deref_app_new s e :
  deref (set_mem s (mem s ++ [e])) (length (mem s)) = Some e.
Proof.
  unfold deref. cbn [mem set_mem]. rewrite lookup_app_r by lia.
  by rewrite Nat.sub_diag.
Qed.

(** The insert path of [Upsert]. *)
Lemma Upsert_insert s r :
  wf s -> byDom s !! ToLower (Domain r) = None ->
  exists s', Upsert s r = Some (s', true) /\ wf s' /\
    byID s' = <[ID r := length (mem s)]> (byID s) /\
    byDom s' = <[ToLower (Domain r) := length (mem s)]> (byDom s) /\
    count s' = count s + 1 /\
    rule <$> deref s' (length (mem s)) = Some r /\
    (forall q, q <> length (mem s) -> rule <$> deref s' q = rule <$> deref s q) /\
    (forall q, q ∈ expH s' <->
               (Permanent r = false /\ q = length (mem s)) \/ q ∈ expH s).
Proof.
  intros Hwf Hd. destruct (Upsert_wf s r Hwf) as (s' & Hup & Hwf').
  exists s'. split; [done|]. split; [done|].
  unfold Upsert in Hup. rewrite Hd in Hup.
  set (p := length (mem s)) in *.
  set (s3 := set_byDom (set_byID (set_mem s (mem s ++ [mkEntry r 0]))
               (<[ID r := p]> (byID s))) (<[ToLower (Domain r) := p]> (byDom s))).
  change (set_byDom _ _) with s3 in Hup.
  assert (Hnew : deref s3 p = Some (mkEntry r 0)) by apply deref_app_new.
  assert (Hold : forall q, q <> p -> deref s3 q = deref s q)
    by (intros q Hq; by apply deref_app_old).
  destruct (Permanent r) eqn:Hperm; cbn [negb] in Hup.
  - rewrite bind_Some in Hup. injection Hup as <-.
    cbn [byID byDom count set_count expH mem].
    repeat split; try done.
    + change (rule <$> deref s3 p = Some r). by rewrite Hnew.
    + intros q Hq. change (rule <$> deref s3 q = rule <$> deref s q).
      by rewrite Hold.
    + by right.
    + by intros [[? _]|?].
  - assert (Hs3 : slots_ok s3).
    { intros i q Hi. change (expH s3) with (expH s) in Hi.
      destruct (wf_slots s Hwf _ _ Hi) as (e & He & Hidx). exists e.
      split; [|done]. rewrite Hold; [done|].
      apply lookup_lt_Some in He. unfold p. lia. }
    assert (Hpnin : p ∉ expH s3).
    { change (expH s3) with (expH s). intros Hin.
      apply list_elem_of_lookup_1 in Hin as [i Hi].
      destruct (wf_slots s Hwf _ _ Hi) as (e & He & _).
      apply lookup_lt_Some in He. unfold p in He. lia. }
    destruct (heap_Push_ok s3 p _ Hs3 Hnew Hpnin) as (s4 & Hpush & Hr & Hs4 & Hm).
    rewrite Hpush, bind_Some in Hup. injection Hup as <-.
    destruct Hr as (HbI & HbD & Hc & Hrules).
    cbn [byID byDom count set_count expH mem].
    split; [by rewrite HbI|]. split; [by rewrite HbD|].
    split; [by rewrite Hc|]. split; [|split].
    + change (rule <$> deref s4 p = Some r). by rewrite Hrules, Hnew.
    + intros q Hq. change (rule <$> deref s4 q = rule <$> deref s q).
      by rewrite Hrules, Hold.
    + intros q. change (q ∈ expH s4 <-> (false = false /\ q = p) \/ q ∈ expH s).
      rewrite Hm. change (expH s3) with (expH s). split.
      * intros [->|?]; [by left|by right].
      * intros [[_ ->]|?]; [by left|by right].
Qed.

(** The two paths of [Upsert] for a domain the store has. *)
Lemma Upsert_existing s r p cur :
  wf s -> byDom s !! ToLower (Domain r) = Some p -> deref s p = Some cur ->
  exists s', Upsert s r = Some (s', true) /\ wf s' /\
    byID s' = byID s /\ byDom s' = byDom s /\ count s' = count s /\
    rule <$> deref s' p =
      Some (if negb (Permanent (rule cur)) && Permanent r
            then mkRule (ID (rule cur)) (Domain (rule cur)) (IPs (rule cur))
                        zeroTime true (ResolvedAt (rule cur))
            else mkRule (ID (rule cur)) (Domain (rule cur)) (IPs r)
                        (Expires r) (Permanent (rule cur)) (ResolvedAt r)) /\
    (forall q, q <> p -> rule <$> deref s' q = rule <$> deref s q) /\
    (forall q, q ∈ expH s' <->
       q ∈ expH s /\ (q = p -> negb (Permanent (rule cur)) && Permanent r = false)).
Proof.
  intros Hwf Hd He. destruct (Upsert_wf s r Hwf) as (s' & Hup & Hwf').
  exists s'. split; [done|]. split; [done|].
  destruct (negb (Permanent (rule cur)) && Permanent r) eqn:Hc.
  - unfold Upsert in Hup. rewrite Hd, He, bind_Some, Hc in Hup.
    rewrite (upd_entry_Some _ _ _ _ He), bind_Some in Hup.
    apply andb_true_iff in Hc as [Hc1 Hc2]. apply negb_true_iff in Hc1.
    destruct (wf_heap_index s _ p cur Hwf Hd He Hc1) as (i & Hidx & Hi).
    rewrite Hidx in Hup.
    set (f := fun c => mkRule (ID c) (Domain c) (IPs c) zeroTime true (ResolvedAt c)) in *.
    destruct (heap_Remove_ok (set_mem s (<[p := with_rule f cur]> (mem s))) i p)
      as (s2 & Hrm & Hpop).
    { apply slots_ok_upd_rule; [apply Hwf|done]. }
    { done. }
    rewrite Hrm, bind_Some in Hup. injection Hup as <-.
    destruct Hpop as ((HbI & HbD & Hcnt & Hrules) & _ & _ & Hm & Hnin).
    split; [done|]. split; [done|]. split; [done|]. split; [|split].
    + rewrite Hrules, (upd_rule_deref _ _ _ _ _ He), decide_True by done. done.
    + intros q Hq. rewrite Hrules, (upd_rule_deref _ _ _ _ _ He).
      by rewrite decide_False.
    + intros q. cbn [expH set_mem] in Hm. split.
      * intros Hq. split; [apply Hm; by right|]. intros ->. done.
      * intros [Hq Hne]. apply Hm in Hq as [->|Hq]; [|done].
        by specialize (Hne eq_refl).
  - rewrite (Upsert_update s r p cur Hd He Hc) in Hup. injection Hup as <-.
    cbn [byID byDom count set_mem expH].
    split; [done|]. split; [done|]. split; [done|]. split; [|split].
    + rewrite (upd_rule_deref _ _ _ _ _ He), decide_True by done. done.
    + intros q Hq. rewrite (upd_rule_deref _ _ _ _ _ He).
      by rewrite decide_False.
    + intros q. split; [by intros ?|by intros [? _]].
Qed.

(** [Remove] of an id the store has. *)
Lemma Remove_found s id p cur :
  wf s -> byID s !! id = Some p -> deref s p = Some cur ->
  exists s', Remove s id = Some (s', Some (rule cur)) /\ wf s' /\
    ID (rule cur) = id /\
    byID s' = delete id (byID s) /\
    byDom s' = delete (ToLower (Domain (rule cur))) (byDom s) /\
    count s' = count s - 1 /\
    (forall q, rule <$> deref s' q = rule <$> deref s q) /\
    (forall q, q ∈ expH s' <-> q ∈ expH s /\ q <> p).
Proof.
  intros Hwf Hid He. destruct (Remove_wf s id Hwf) as (s' & r & Hrm & Hwf').
  destruct (wf_byID s Hwf _ _ Hid) as (cur' & He' & Hidc & Hkey).
  assert (cur' = cur) by congruence. subst cur'. subst id.
  pose proof Hrm as Hrm0.
  unfold Remove in Hrm. rewrite Hid, He, bind_Some in Hrm.
  set (s2 := set_byDom (set_byID s (delete (ID (rule cur)) (byID s)))
               (delete (ToLower (Domain (rule cur))) (byDom s))).
  change (set_byDom _ _) with s2 in Hrm.
  destruct (Permanent (rule cur)) eqn:Hperm; cbn [negb] in Hrm.
  - rewrite bind_Some in Hrm. injection Hrm as <- <-.
    exists (set_count s2 (count s2 - 1)). split; [exact Hrm0|]. split; [done|].
    cbn [byID byDom count set_count expH].
    split; [done|]. split; [done|]. split; [done|]. split; [done|].
    split; [done|]. intros q. change (expH s2) with (expH s). split.
    + intros Hq. split; [done|]. intros ->.
      apply list_elem_of_lookup_1 in Hq as [i Hi].
      destruct (wf_slots_temp s Hwf _ _ _ Hi He) as [Hp _]. congruence.
    + by intros [? _].
  - destruct (wf_heap_index s _ p cur Hwf Hkey He Hperm) as (i & Hidx & Hi).
    rewrite Hidx in Hrm.
    destruct (heap_Remove_ok s2 i p) as (s3 & Hrm3 & Hpop).
    { apply Hwf. } { done. }
    rewrite Hrm3 in Hrm. cbn in Hrm. injection Hrm as <- <-.
    exists (set_count s3 (count s3 - 1)). split; [exact Hrm0|]. split; [done|].
    destruct Hpop as ((HbI & HbD & Hcnt & Hrules) & _ & _ & Hm & Hnin).
    cbn [byID byDom count set_count expH].
    split; [done|]. split; [by rewrite HbI|]. split; [by rewrite HbD|].
    split; [by rewrite Hcnt|]. split.
    + intros q. apply Hrules.
    + intros q. change (expH s2) with (expH s) in Hm. split.
      * intros Hq. split; [apply Hm; by right|]. by intros ->.
      * intros [Hq Hne]. apply Hm in Hq as [->|Hq]; done.
Qed.

Lemma stored_transfer s s' r2 :
  wf s ->
  byID s' !! ID r2 = byID s !! ID r2 ->
  (forall q e, deref s q = Some e -> rule <$> deref s' q = rule <$> deref s q) ->
  stored s r2 -> stored s' r2.
Proof.
  intros Hwf Hid Hrules (q & e & Hq & He & Hr).
  specialize (Hrules q e He). rewrite He in Hrules.
  destruct (deref s' q) as [e'|] eqn:He'; [|done].
  exists q, e'. split; [congruence|]. split; [done|].
  cbn in Hrules. congruence.
Qed.

Lemma stored_transfer_back s s' r2 :
  wf s ->
  byID s' !! ID r2 = byID s !! ID r2 ->
  (forall q e, deref s q = Some e -> rule <$> deref s' q = rule <$> deref s q) ->
  stored s' r2 -> stored s r2.
Proof.
  intros Hwf Hid Hrules (q & e' & Hq & He' & Hr).
  rewrite Hid in Hq.
  destruct (wf_byID s Hwf _ _ Hq) as (e & He & _).
  specialize (Hrules q e He). rewrite He, He' in Hrules.
  exists q, e. split; [done|]. split; [done|].
  cbn in Hrules. congruence.
Qed.

(** Every sequence of store calls on a new store runs to its end, no heap
    index leaves its range, and the state it reaches is well formed. *)
Theorem store_never_panics (ops : list op) :
  exists s, run NewStore ops = Some s /\ wf s.
Proof. apply run_wf, wf_NewStore. Qed.

(** The insert path of [Upsert], in terms of the stored rules. *)
Lemma Upsert_fresh s r :
  wf s -> byDom s !! ToLower (Domain r) = None ->
  exists s' p,
    Upsert s r = Some (s', true) /\ wf s' /\
    stored s' r /\
    byID s' = <[ID r := p]> (byID s) /\
    byDom s' = <[ToLower (Domain r) := p]> (byDom s) /\
    rule <$> deref s' p = Some r /\
    (p ∈ expH s' <-> Permanent r = false) /\
    count s' = count s + 1 /\
    (forall r2, ID r2 <> ID r -> stored s' r2 <-> stored s r2) /\
    (forall r2, stored s' r2 -> r2 = r \/ stored s r2).
Proof.
  intros Hwf Hd.
  destruct (Upsert_insert s r Hwf Hd)
    as (s' & Hup & Hwf' & HbI & HbD & Hc & Hnew & Hold & Hm).
  exists s', (length (mem s)).
  assert (Hlt : forall q e, deref s q = Some e -> q <> length (mem s)).
  { intros q e He. apply lookup_lt_Some in He. lia. }
  assert (Hfr : forall r2, ID r2 <> ID r -> stored s' r2 <-> stored s r2).
  { intros r2 Hne. split.
    + apply stored_transfer_back; [done| |].
      * rewrite HbI, lookup_insert_ne; done.
      * intros q e He. apply Hold. by eapply Hlt.
    + apply stored_transfer; [done| |].
      * rewrite HbI, lookup_insert_ne; done.
      * intros q e He. apply Hold. by eapply Hlt. }
  split; [done|]. split; [done|]. split; [|split; [done|split; [done|]]].
  { destruct (deref s' (length (mem s))) as [e'|] eqn:He'; [|done].
    exists (length (mem s)), e'. rewrite HbI, lookup_insert_eq.
    split; [done|]. split; [done|]. cbn in Hnew. congruence. }
  split; [done|]. split; [|split; [done|split; [done|]]].
  - rewrite Hm. split.
    + intros [[? _]|Hin]; [done|].
      apply list_elem_of_lookup_1 in Hin as [i Hi].
      destruct (wf_slots s Hwf _ _ Hi) as (e & He & _).
      by apply Hlt in He.
    + intros ?. by left.
  - intros r2 Hst. destruct (decide (ID r2 = ID r)) as [Heq|Hne].
    + left. destruct Hst as (q & e' & Hq & He' & Hre).
      rewrite Heq, HbI, lookup_insert_eq in Hq. injection Hq as <-.
      rewrite He' in Hnew. cbn in Hnew. congruence.
    + right. by apply Hfr.
Qed.

(** [Upsert] of a rule for a domain the store does not have: the rule is
    stored under its id and its lower-cased domain, the counter goes up by
    one, a temporary rule enters the heap and a permanent one does not, and
    the rules under other ids are as before. *)
Theorem Upsert_new_domain s r :
  wf s -> byDom s !! ToLower (Domain r) = None ->
  exists s' p,
    Upsert s r = Some (s', true) /\ wf s' /\
    stored s' r /\
    byDom s' !! ToLower (Domain r) = Some p /\
    rule <$> deref s' p = Some r /\
    (p ∈ expH s' <-> Permanent r = false) /\
    count s' = count s + 1 /\
    (forall r2, ID r2 <> ID r -> stored s' r2 <-> stored s r2).
Proof.
  intros Hwf Hd.
  destruct (Upsert_fresh s r Hwf Hd)
    as (s' & p & Hup & Hwf' & Hst & _ & HbD & Hnew & Hh & Hc & Hfr & _).
  exists s', p. rewrite HbD, lookup_insert_eq. done.
Qed.

Lemma Upsert_new_domain_witness :
  exists s' p,
    Upsert NewStore rule_a10 = Some (s', true) /\ wf s' /\
    stored s' rule_a10 /\
    byDom s' !! ToLower (Domain rule_a10) = Some p /\
    rule <$> deref s' p = Some rule_a10 /\
    (p ∈ expH s' <-> Permanent rule_a10 = false) /\
    count s' = count NewStore + 1 /\
    (forall r2, ID r2 <> ID rule_a10 -> stored s' r2 <-> stored NewStore r2).
Proof.
  apply (Upsert_new_domain NewStore rule_a10).
  - apply wf_NewStore.
  - reflexivity.
Defined.

(** [Upsert] of a rule for a domain the store has, under whatever id: the
    record of the domain keeps its id and its domain, the two maps and the
    counter are as before, and so are the other records.  A temporary
    record that meets a permanent rule becomes permanent with a zero expiry
    and leaves the heap, its addresses and time of resolution staying;
    otherwise the record takes the addresses, the expiry and the time of
    resolution of the rule and keeps its own [Permanent]. *)
Theorem Upsert_known_domain s r p cur :
  wf s -> byDom s !! ToLower (Domain r) = Some p -> deref s p = Some cur ->
  exists s' new,
    Upsert s r = Some (s', true) /\ wf s' /\
    byID s' = byID s /\ byDom s' = byDom s /\ count s' = count s /\
    rule <$> deref s' p = Some new /\
    ID new = ID (rule cur) /\ Domain new = Domain (rule cur) /\
    (Permanent (rule cur) = false -> Permanent r = true ->
       new = mkRule (ID (rule cur)) (Domain (rule cur)) (IPs (rule cur))
                    zeroTime true (ResolvedAt (rule cur)) /\
       p ∉ expH s') /\
    (Permanent (rule cur) = true \/ Permanent r = false ->
       new = mkRule (ID (rule cur)) (Domain (rule cur)) (IPs r) (Expires r)
                    (Permanent (rule cur)) (ResolvedAt r) /\
       (p ∈ expH s' <-> p ∈ expH s)) /\
    (forall q, q <> p -> rule <$> deref s' q = rule <$> deref s q).
Proof.
  intros Hwf Hd He.
  destruct (Upsert_existing s r p cur Hwf Hd He)
    as (s' & Hup & Hwf' & HbI & HbD & Hc & Hnew & Hold & Hm).
  exists s'. eexists. split; [done|]. split; [done|].
  split; [done|]. split; [done|]. split; [done|]. split; [exact Hnew|].
  destruct (Permanent (rule cur)) eqn:Hpc, (Permanent r) eqn:Hpr; cbn;
    (split; [done|]); (split; [done|]); (split; [|split; [|done]]);
    try (intros; discriminate); try (intros [?|?]; discriminate).
  - intros _. split; [done|]. rewrite Hm. cbn. intuition.
  - intros _. split; [done|]. rewrite Hm. cbn. intuition.
  - intros _ _. split; [done|]. rewrite Hm. cbn. intros [_ H].
    specialize (H eq_refl). discriminate H.
  - intros _. split; [done|]. rewrite Hm. cbn. intuition.
Qed.

Lemma Upsert_known_domain_witness :
  exists s',
    Upsert (default NewStore (run NewStore [OpUpsert rule_a10])) rule_a_perm
      = Some (s', true) /\
    rule <$> deref s' 0%nat = Some (mkRule "1" "a.com" [] zeroTime true 1) /\
    0%nat ∉ expH s'.
Proof.
  destruct (Upsert_known_domain
              (default NewStore (run NewStore [OpUpsert rule_a10]))
              rule_a_perm 0%nat (mkEntry rule_a10 0))
    as (s' & new & Hup & _ & _ & _ & _ & Hnew & _ & _ & Hupg & _).
  - apply wf_of_run.
  - reflexivity.
  - reflexivity.
  - exists s'. destruct (Hupg eq_refl eq_refl) as [-> Hnin]. done.
Defined.

(** [Remove] of the id of a stored rule returns the rule; its id and its
    lower-cased domain are free afterwards, the counter goes down by one,
    and the rules under other ids are as before. *)
Theorem Remove_stored s r :
  wf s -> stored s r ->
  exists s',
    Remove s (ID r) = Some (s', Some r) /\ wf s' /\
    byID s' !! ID r = None /\
    byDom s' !! ToLower (Domain r) = None /\
    count s' = count s - 1 /\
    (forall r2, ID r2 <> ID r -> stored s' r2 <-> stored s r2).
Proof.
  intros Hwf (p & e & Hid & He & <-).
  destruct (Remove_found s _ p e Hwf Hid He)
    as (s' & Hrm & Hwf' & _ & HbI & HbD & Hc & Hrules & _).
  exists s'. split; [done|]. split; [done|].
  split; [by rewrite HbI, lookup_delete_eq|].
  split; [by rewrite HbD, lookup_delete_eq|]. split; [done|].
  intros r2 Hne. split.
  - apply stored_transfer_back; [done| |by intros].
    by rewrite HbI, lookup_delete_ne.
  - apply stored_transfer; [done| |by intros].
    by rewrite HbI, lookup_delete_ne.
Qed.

Lemma Remove_stored_witness :
  exists s',
    Remove (default NewStore (run NewStore [OpUpsert rule_a10])) "1"
      = Some (s', Some rule_a10) /\
    byID s' !! "1" = None.
Proof.
  destruct (Remove_stored (default NewStore (run NewStore [OpUpsert rule_a10]))
              rule_a10) as (s' & Hrm & _ & Hid & _).
  - apply wf_of_run.
  - exists 0%nat, (mkEntry rule_a10 0). by vm_compute.
  - exists s'. done.
Defined.

Lemma Upsert_Remove_back s r :
  wf s -> byDom s !! ToLower (Domain r) = None -> byID s !! ID r = None ->
  exists s1 s2,
    Upsert s r = Some (s1, true) /\
    Remove s1 (ID r) = Some (s2, Some r) /\ wf s2 /\
    byID s2 = byID s /\ byDom s2 = byDom s /\ count s2 = count s /\
    (forall q, q ∈ expH s2 <-> q ∈ expH s) /\
    (forall q e, deref s q = Some e -> rule <$> deref s2 q = Some (rule e)).
Proof.
  intros Hwf Hd Hi.
  destruct (Upsert_insert s r Hwf Hd)
    as (s1 & Hup & Hwf1 & HbI & HbD & Hc & Hnew & Hold & Hm).
  destruct (deref s1 (length (mem s))) as [e1|] eqn:He1; [|done].
  assert (Hr1 : rule e1 = r) by (cbn in Hnew; congruence).
  assert (Hid1 : byID s1 !! ID r = Some (length (mem s)))
    by (by rewrite HbI, lookup_insert_eq).
  destruct (Remove_found s1 _ _ e1 Hwf1 Hid1 He1)
    as (s2 & Hrm & Hwf2 & _ & HbI2 & HbD2 & Hc2 & Hrules & Hm2).
  rewrite Hr1 in Hrm, HbD2.
  exists s1, s2. split; [done|]. split; [done|]. split; [done|].
  split; [by rewrite HbI2, HbI, delete_insert_id|].
  split; [by rewrite HbD2, HbD, delete_insert_id|].
  split; [lia|]. split.
  - intros q. rewrite Hm2, Hm. split.
    + intros [[[_ ->]|Hq] Hne]; done.
    + intros Hq. split; [by right|]. intros ->.
      apply list_elem_of_lookup_1 in Hq as [i Hq].
      destruct (wf_slots s Hwf _ _ Hq) as (e & He & _).
      apply lookup_lt_Some in He. lia.
  - intros q e He. rewrite Hrules, Hold, He; [done|].
    apply lookup_lt_Some in He. lia.
Qed.


(** Storing a rule under a new id and a new domain and removing it by its
    id gives the rule back and leaves the two maps, the counter, the
    members of the heap and every earlier record as they were. *)
Theorem Upsert_Remove_round_trip s r :
  wf s -> byDom s !! ToLower (Domain r) = None -> byID s !! ID r = None ->
  exists s1 s2,
    Upsert s r = Some (s1, true) /\
    Remove s1 (ID r) = Some (s2, Some r) /\ wf s2 /\
    byID s2 = byID s /\ byDom s2 = byDom s /\ count s2 = count s /\
    (forall q, q ∈ expH s2 <-> q ∈ expH s) /\
    (forall q e, deref s q = Some e -> rule <$> deref s2 q = Some (rule e)).
Proof. apply Upsert_Remove_back. Qed.

Lemma Upsert_Remove_round_trip_witness :
  exists s1 s2,
    Upsert NewStore rule_b20 = Some (s1, true) /\
    Remove s1 "2" = Some (s2, Some rule_b20) /\
    byID s2 = byID NewStore /\ byDom s2 = byDom NewStore.
Proof.
  destruct (Upsert_Remove_round_trip NewStore rule_b20)
    as (s1 & s2 & Hup & Hrm & _ & HbI & HbD & _).
  - apply wf_NewStore.
  - reflexivity.
  - reflexivity.
  - exists s1, s2. done.
Defined.

(** One round of the loop of [ExpireNow] and the rounds after it. *)
Lemma expire_loop_sound fuel : forall s now acc,
  wf s -> (length (expH s) < fuel)%nat ->
  exists s' l,
    expire_loop fuel s now acc = Some (s', acc ++ l) /\ wf s' /\
    count s' = count s - Z.of_nat (length l) /\
    (length (expH s') + length l = length (expH s))%nat /\
    byID s' ⊆ byID s /\ byDom s' ⊆ byDom s /\
    (forall q, rule <$> deref s' q = rule <$> deref s q) /\
    (forall q, q ∈ expH s' -> q ∈ expH s) /\
    Forall (fun r =>
      Permanent r = false /\ Expires r <= now /\
      byID s' !! ID r = None /\ byDom s' !! ToLower (Domain r) = None /\
      exists p e, byDom s !! ToLower (Domain r) = Some p /\
                  deref s p = Some e /\ rule e = r /\
                  p ∈ expH s /\ p ∉ expH s') l /\
    (forall p e, expH s' !! 0%nat = Some p -> deref s' p = Some e ->
                 now < Expires (rule e)) /\
    (forall d, is_Some (byDom s !! d) -> byDom s' !! d = None ->
               exists r, r ∈ l /\ ToLower (Domain r) = d).
Proof.
  induction fuel as [|f IH]; intros s now acc Hwf Hf; [lia|].
  cbn [expire_loop].
  destruct (decide (Len s > 0)) as [Hlen|Hlen].
  2:{ exists s, []. rewrite app_nil_r. split; [done|]. split; [done|].
      split; [cbn; lia|]. split; [cbn; lia|]. split; [done|]. split; [done|].
      split; [done|]. split; [done|]. split; [constructor|]. split.
      - intros p e Hp. apply lookup_lt_Some in Hp. unfold Len in Hlen. lia.
      - intros d [x Hx] Hn. congruence. }
  assert (Hpos : (0 < length (expH s))%nat) by (unfold Len in Hlen; lia).
  destruct (heap_Pop_ok s (wf_slots s Hwf) Hpos) as (s1 & p & Hpop & Hp0 & Hpp).
  change 0 with (Z.of_nat 0). rewrite slot_of_nat, Hp0, bind_Some.
  destruct (wf_slots s Hwf _ _ Hp0) as (e0 & He0 & _).
  rewrite He0, bind_Some.
  destruct (After (Expires (rule e0)) now) eqn:Haft.
  { exists s, []. rewrite app_nil_r. split; [done|]. split; [done|].
    split; [cbn; lia|]. split; [cbn; lia|]. split; [done|]. split; [done|].
    split; [done|]. split; [done|]. split; [constructor|]. split.
    - intros p' e' Hp' He'. assert (p' = p) by congruence. subst p'.
      assert (e' = e0) by congruence. subst e'.
      unfold After in Haft. lia.
    - intros d [x Hx] Hn. congruence. }
  rewrite Hpop, bind_Some.
  destruct Hpp as (Hr & Hs1 & Hl & Hm & Hnin).
  destruct (same_rules_deref_rev _ _ _ _ Hr He0) as (e & He & Hrule).
  rewrite He, bind_Some.
  pose proof Hr as (HbI & HbD & Hcnt & Hrules).
  destruct (wf_slots_temp s Hwf _ _ _ Hp0 He0) as [Hperm Hkey].
  set (s4 := set_count (set_byDom (set_byID s1 (delete (ID (rule e)) (byID s1)))
                          (delete (ToLower (Domain (rule e))) (byDom s1)))
                       (count s1 - 1)).
  change (set_count _ _) with s4.
  assert (Hwf4 : wf s4).
  { apply wf_set_count. rewrite Hrule.
    eapply (wf_drop s _ p e0 (ID (rule e0))); try done.
    + intros id' Hid'.
      destruct (wf_byID s Hwf _ _ Hid') as (e' & He' & Hide' & _). congruence.
    + simpl. by rewrite HbI.
    + simpl. by rewrite HbD.
    + intros q Hq. simpl in Hq. split; [apply (Hm q); by right|]. by intros ->.
    + intros q Hq. simpl. by apply (Hm q). }
  destruct (IH s4 now (acc ++ [rule e]) Hwf4) as
    (s' & l & Hloop & Hwf' & Hc' & Hlen' & HsI & HsD & Hr' & Hh' & Hall & Hroot
     & Hgone).
  { change (expH s4) with (expH s1). lia. }
  exists s', (rule e :: l). rewrite Hloop, <- app_assoc.
  split; [done|]. split; [done|].
  change (count s4) with (count s1 - 1) in Hc'.
  change (expH s4) with (expH s1) in Hlen', Hh'.
  change (byID s4) with (delete (ID (rule e)) (byID s1)) in HsI.
  change (byDom s4) with (delete (ToLower (Domain (rule e))) (byDom s1)) in HsD.
  assert (Hr4 : forall q, rule <$> deref s4 q = rule <$> deref s q)
    by (intros q; apply Hrules).
  split; [cbn [length]; lia|]. split; [cbn [length]; lia|].
  split; [etrans; [exact HsI|]; rewrite HbI; apply delete_subseteq|].
  split; [etrans; [exact HsD|]; rewrite HbD; apply delete_subseteq|].
  split; [intros q; by rewrite Hr', Hr4|].
  split; [intros q Hq; apply Hm; right; by apply Hh'|].
  split; [|split; [done|]].
  2:{ intros d Hd Hn.
      destruct (decide (d = ToLower (Domain (rule e)))) as [->|Hne].
      - exists (rule e). split; [by left|done].
      - destruct (Hgone d) as (r & Hr0 & Hd0); [|done|].
        + change (byDom s4) with (delete (ToLower (Domain (rule e))) (byDom s1)).
          rewrite lookup_delete_ne by done. by rewrite HbD.
        + exists r. split; [by right|done]. }
  constructor.
  - rewrite Hrule. split; [done|].
    split; [unfold After in Haft; lia|].
    split; [eapply lookup_weaken_None; [|exact HsI];
            rewrite Hrule; apply lookup_delete_eq|].
    split; [eapply lookup_weaken_None; [|exact HsD];
            rewrite Hrule; apply lookup_delete_eq|].
    exists p, e0. split; [done|]. split; [done|]. split; [done|].
    split; [by eapply list_elem_of_lookup_2|].
    intros Hin. apply Hnin. by apply Hh'.
  - eapply Forall_impl; [exact Hall|].
    intros r (H1 & H2 & H3 & H4 & q & e4 & Hq & He4 & Hre & Hin & Hout).
    split; [done|]. split; [done|]. split; [done|]. split; [done|].
    change (byDom s4) with (delete (ToLower (Domain (rule e))) (byDom s1)) in Hq.
    apply lookup_delete_Some in Hq as [_ Hq]. rewrite HbD in Hq.
    destruct (rules_deref _ _ _ _ Hr4 He4) as (e5 & He5 & Hr5).
    exists q, e5. split; [done|]. split; [done|]. split; [congruence|].
    split; [apply Hm; by right|done].
Qed.

(** [ExpireNow] returns temporary rules whose expiry is not after [now];
    each of them was the store's record for its domain and is gone from
    both maps afterwards; the counter goes down by one for each; no other
    rule changes; and what [NextExpiry] reports afterwards, if anything, is
    after [now]. *)
Theorem ExpireNow_sound s now :
  wf s ->
  exists s' l,
    ExpireNow s now = Some (s', l) /\ wf s' /\
    count s' = count s - Z.of_nat (length l) /\
    Forall (fun r =>
      Permanent r = false /\ Expires r <= now /\
      byID s' !! ID r = None /\ byDom s' !! ToLower (Domain r) = None /\
      exists p e, byDom s !! ToLower (Domain r) = Some p /\
                  deref s p = Some e /\ rule e = r) l /\
    (forall r2, stored s' r2 -> stored s r2) /\
    (forall t, NextExpiry s' = Some (t, true) -> now < t).
Proof.
  intros Hwf.
  destruct (expire_loop_sound (S (length (expH s))) s now [] Hwf)
    as (s' & l & Hloop & Hwf' & Hc & _ & HsI & HsD & Hr & _ & Hall & Hroot & _);
    [lia|].
  exists s', l. split; [exact Hloop|]. split; [done|]. split; [done|].
  split; [|split].
  - eapply Forall_impl; [exact Hall|].
    intros r (H1 & H2 & H3 & H4 & p & e & H5 & H6 & H7 & _). eauto 10.
  - intros r2 (q & e' & Hq & He' & Hre).
    destruct (rules_deref _ _ _ _ Hr He') as (e & He & Hrule).
    exists q, e. split; [by eapply lookup_weaken|]. split; [done|congruence].
  - intros t Hne. unfold NextExpiry in Hne.
    destruct (expH s') as [|p h] eqn:Hh; [discriminate Hne|].
    destruct (deref s' p) as [e|] eqn:He; [|discriminate Hne].
    cbn in Hne. injection Hne as <-.
    apply (Hroot p e); [reflexivity|done].
Qed.

Lemma ExpireNow_sound_witness :
  exists s' l,
    ExpireNow (default NewStore
                 (run NewStore [OpUpsert rule_a10; OpUpsert rule_b20; OpUpsert rule_c5]))
              15 = Some (s', l) /\
    l = [rule_c5; rule_a10] /\
    Forall (fun r => Permanent r = false /\ Expires r <= 15 /\
                     byID s' !! ID r = None) l /\
    NextExpiry s' = Some (20, true).
Proof.
  destruct (ExpireNow_sound
              (default NewStore
                 (run NewStore [OpUpsert rule_a10; OpUpsert rule_b20; OpUpsert rule_c5]))
              15)
    as (s' & l & Hex & _ & _ & Hall & _).
  - apply wf_of_run.
  - exists s', l. split; [exact Hex|].
    vm_compute in Hex. injection Hex as Hs Hl.
    split; [by rewrite <- Hl|]. split.
    + eapply Forall_impl; [exact Hall|]. intros r (H1 & H2 & H3 & _). done.
    + rewrite <- Hs. vm_compute. reflexivity.
Defined.




Lemma NoDup_fmap_transfer {A B C} (f : A -> B) (g : A -> C) (l : list A) :
  NoDup (g <$> l) ->
  (forall x y, x ∈ l -> y ∈ l -> f x = f y -> g x = g y) ->
  NoDup (f <$> l).
Proof.
  induction l as [|a l IH]; intros Hnd Hinj; [constructor|].
  cbn [fmap list_fmap] in *. apply NoDup_cons in Hnd as [Hnin Hnd].
  constructor.
  - intros Hin. apply list_elem_of_fmap in Hin as (y & Hfy & Hy).
    apply Hnin. apply list_elem_of_fmap. exists y. split; [|done].
    apply Hinj; [by left|by right|done].
  - apply IH; [done|]. intros x y Hx Hy. apply Hinj; by right.
Qed.

(** Whatever calls were made on a new store, a [Snapshot] shows no id twice
    and no domain twice, upper and lower case taken as the same. *)
Theorem Snapshot_unique (ops : list op) s l :
  run NewStore ops = Some s -> is_snapshot s l ->
  NoDup (ID <$> l) /\ NoDup ((fun r => ToLower (Domain r)) <$> l).
Proof.
  intros Hrun Hsnap.
  assert (Hwf : wf s).
  { destruct (run_wf ops NewStore wf_NewStore) as (s' & Hrun' & Hwf').
    congruence. }
  destruct (snapshot_stored s l Hwf Hsnap) as [Hnd Hst].
  split; [done|].
  apply (NoDup_fmap_transfer _ ID); [done|].
  intros x y Hx Hy Hxy.
  destruct (Hst x Hx) as (px & ex & Hpx & Hex & Hrx).
  destruct (Hst y Hy) as (py & ey & Hpy & Hey & Hry).
  destruct (wf_byID s Hwf _ _ Hpx) as (ex' & Hex' & _ & Hdx).
  destruct (wf_byID s Hwf _ _ Hpy) as (ey' & Hey' & _ & Hdy).
  assert (ex' = ex) by congruence. assert (ey' = ey) by congruence.
  subst ex' ey'. rewrite Hrx in Hdx. rewrite Hry in Hdy.
  rewrite Hxy in Hdx. assert (px = py) by congruence. subst py.
  congruence.
Qed.

Lemma Snapshot_unique_witness :
  NoDup (ID <$> Snapshot (default NewStore (run NewStore reblock_ops))) /\
  NoDup ((fun r => ToLower (Domain r)) <$>
           Snapshot (default NewStore (run NewStore reblock_ops))).
Proof.
  apply (Snapshot_unique reblock_ops
           (default NewStore (run NewStore reblock_ops))).
  - reflexivity.
  - apply Snapshot_is_snapshot, wf_of_run.
Defined.

(** [UpdateResolvedAt] for a stored rule whose domain is in lower case
    gives [true]; the rule is then stored with the new time of resolution
    and all its other fields, and the maps and the rules under other ids
    are as before. *)
Theorem UpdateResolvedAt_stored s r ts :
  wf s -> stored s r -> ToLower (Domain r) = Domain r ->
  exists s',
    UpdateResolvedAt s (ID r) ts = Some (s', true) /\ wf s' /\
    byID s' = byID s /\ byDom s' = byDom s /\
    stored s' (mkRule (ID r) (Domain r) (IPs r) (Expires r) (Permanent r) ts) /\
    (forall r2, ID r2 <> ID r -> stored s' r2 <-> stored s r2).
Proof.
  intros Hwf (p & cur & Hid & He & <-) Hlow.
  destruct (UpdateResolvedAt_ok s (ID (rule cur)) ts Hwf)
    as (s' & b & Hup & Hwf' & HbI & HbD & Hrules).
  assert (Hb : b = true).
  { destruct (wf_byID s Hwf _ _ Hid) as (cur' & He' & _ & Hkey).
    assert (cur' = cur) by congruence. subst cur'.
    unfold UpdateResolvedAt in Hup. rewrite Hid, He, bind_Some in Hup.
    rewrite (upd_entry_Some _ _ _ _ He), bind_Some in Hup.
    match type of Hup with
    | (?m ≫= _) = _ => destruct m as [s2|] eqn:Hs2; [|discriminate Hup]
    end.
    rewrite bind_Some in Hup.
    assert (HbD2 : byDom s2 = byDom s).
    { destruct (Permanent (rule cur)) eqn:Hperm; cbn [negb] in Hs2.
      - by injection Hs2 as <-.
      - destruct (wf_heap_index s _ p cur Hwf Hkey He Hperm) as (i & Hidx & Hi).
        rewrite Hidx in Hs2.
        match type of Hs2 with
        | heap_Fix ?s1 _ = _ =>
            destruct (heap_Fix_ok s1 i) as (s2' & Hfix & (_ & HbD1 & _) & _)
        end.
        { apply slots_ok_upd_rule; [apply Hwf|done]. }
        { apply lookup_lt_Some in Hi. exact Hi. }
        rewrite Hfix in Hs2. injection Hs2 as <-. exact HbD1. }
    rewrite HbD2, <- Hlow, Hkey in Hup.
    match type of Hup with
    | (?m ≫= _) = _ => destruct m as [s3|]; [|discriminate Hup]
    end.
    rewrite bind_Some in Hup. by injection Hup as _ <-. }
  subst b. exists s'. split; [done|]. split; [done|]. split; [done|].
  split; [done|]. split.
  - specialize (Hrules p). rewrite He in Hrules. cbn in Hrules.
    rewrite decide_True in Hrules by done.
    destruct (deref s' p) as [e'|] eqn:He'; [|done].
    exists p, e'. cbn [ID]. split; [by rewrite HbI|]. split; [done|].
    cbn in Hrules. congruence.
  - intros r2 Hne.
    assert (Hother : forall q, byID s !! ID r2 = Some q ->
               rule <$> deref s' q = rule <$> deref s q).
    { intros q Hq. rewrite Hrules. destruct (deref s q) as [e|]; [|done].
      cbn. rewrite decide_False; [done|]. intros Hpq.
      assert (q = p) by congruence. subst q.
      destruct (wf_byID s Hwf _ _ Hq) as (e2 & He2 & Hid2 & _).
      destruct (wf_byID s Hwf _ _ Hid) as (e3 & He3 & Hid3 & _).
      congruence. }
    split.
    + intros (q & e' & Hq & He' & Hre). rewrite HbI in Hq.
      specialize (Hother q Hq). rewrite He' in Hother.
      destruct (deref s q) as [e|] eqn:Heq; [|done].
      exists q, e. split; [done|]. split; [done|]. cbn in Hother. congruence.
    + intros (q & e & Hq & Heq & Hre).
      specialize (Hother q Hq). rewrite Heq in Hother.
      destruct (deref s' q) as [e'|] eqn:He'; [|done].
      exists q, e'. split; [by rewrite HbI|]. split; [done|].
      cbn in Hother. congruence.
Qed.

Lemma UpdateResolvedAt_stored_witness :
  exists s',
    UpdateResolvedAt (default NewStore (run NewStore [OpUpsert rule_a10])) "1" 7
      = Some (s', true) /\
    stored s' (mkRule "1" "a.com" [] 10 false 7).
Proof.
  destruct (UpdateResolvedAt_stored
              (default NewStore (run NewStore [OpUpsert rule_a10])) rule_a10 7)
    as (s' & Hup & _ & _ & _ & Hst & _).
  - apply wf_of_run.
  - exists 0%nat, (mkEntry rule_a10 0). by vm_compute.
  - reflexivity.
  - exists s'. done.
Defined.

(** ** The engine: address lists, the handlers and the initial load *)

Section EngineFacts.

Variable IPString : IP -> string.

Lemma consume_keys_enough b : forall (c : gmap string Z),
  (forall k, Z.of_nat (length (filter (fun x => x = k) (ipKey IPString <$> b)))
             <= default 0 (c !! k)) ->
  consume_keys IPString c b = true.
Proof.
  induction b as [|ip rest IH]; intros c Hc; [done|].
  cbn [consume_keys].
  pose proof (Hc (ipKey IPString ip)) as H0.
  cbn [fmap list_fmap] in H0. rewrite filter_cons_True in H0 by done.
  cbn [length] in H0.
  destruct (decide (default 0 (c !! ipKey IPString ip) = 0)) as [Hz|_]; [lia|].
  apply IH. intros k. specialize (Hc k). cbn [fmap list_fmap] in Hc.
  destruct (decide (ipKey IPString ip = k)) as [<-|Hne].
  - rewrite lookup_insert_eq.
    change (default 0 (Some ?x)) with x. lia.
  - rewrite lookup_insert_ne by done.
    rewrite filter_cons_False in Hc by done. done.
Qed.

(** [ipsEqual] holds exactly when the two lists have the same addresses
    with the same number of copies of each, in whatever order; an address
    is told by its [ipKey]. *)
Theorem ipsEqual_iff_perm (a b : list IPAddr) :
  ipsEqual IPString a b = true <->
  (ipKey IPString <$> a) ≡ₚ (ipKey IPString <$> b).
Proof.
  split.
  - intros H. symmetry. by apply ipsEqual_true_perm.
  - intros Hp. unfold ipsEqual.
    assert (Hlen : length a = length b).
    { apply Permutation_length in Hp. by rewrite !length_fmap in Hp. }
    rewrite decide_False by (intros Hne; by apply Hne).
    destruct (decide (length a = 0%nat)); [done|].
    apply consume_keys_enough. intros k.
    pose proof (count_keys_spec IPString a ∅ k) as Hk.
    rewrite lookup_empty in Hk. change (default 0 None) with 0 in Hk.
    unfold count_keys. rewrite Hk.
    assert (Hf : filter (fun x => x = k) (ipKey IPString <$> a)
                 ≡ₚ filter (fun x => x = k) (ipKey IPString <$> b))
      by (by rewrite Hp).
    apply Permutation_length in Hf. lia.
Qed.

Lemma refresh_loop_idle dnsRefresh w : forall snap i acc,
  (forall (k : nat) r, snap !! k = Some r ->
     needs_refresh dnsRefresh (w_clock w (i + k)) r = false) ->
  refresh_loop IPString dnsRefresh w i snap acc = Some acc.
Proof.
  induction snap as [|r rest IH]; intros i acc H; [done|].
  cbn [refresh_loop].
  pose proof (H 0%nat r eq_refl) as H0. rewrite Nat.add_0_r in H0.
  rewrite H0. apply IH. intros k r' Hk.
  specialize (H (S k) r' Hk). by rewrite Nat.add_succ_r in H.
Qed.

(** A tick at which the heap is empty or its root expires after [now], and
    at which no rule of the snapshot needs a refresh, leaves the store as it
    is, asks the resolver nothing and asks for no sync. *)
Theorem tick_idle dnsRefresh w s t b :
  NextExpiry s = Some (t, b) -> (b = true -> w_now w < t) ->
  (forall (k : nat) r, w_order w s !! k = Some r ->
     needs_refresh dnsRefresh (w_clock w k) r = false) ->
  handleRefreshExpire IPString dnsRefresh w s = Some (mkTick s false [] []).
Proof.
  intros Hne Hlate Hfresh. unfold handleRefreshExpire.
  assert (Hex : ExpireNow s (w_now w) = Some (s, [])).
  { unfold ExpireNow, NextExpiry in *. cbn [expire_loop].
    destruct (expH s) as [|p0 h] eqn:Hh.
    - unfold Len. rewrite Hh. cbn. by rewrite decide_False by lia.
    - destruct (deref s p0) as [e0|] eqn:He0; [|discriminate Hne].
      cbn in Hne. injection Hne as <- <-.
      unfold Len. rewrite Hh. cbn [length].
      rewrite decide_True by lia.
      change 0 with (Z.of_nat 0). rewrite slot_of_nat.
      change ((p0 :: h) !! 0%nat) with (Some p0).
      rewrite bind_Some, He0, bind_Some.
      unfold After. specialize (Hlate eq_refl).
      destruct (Z.ltb_spec (w_now w) (Expires (rule e0))); [done|lia]. }
  rewrite Hex, bind_Some. cbn [length bool_decide].
  rewrite bool_decide_eq_false_2 by (cbn; lia).
  apply refresh_loop_idle. intros k r. rewrite Nat.add_0_l. apply Hfresh.
Qed.

End EngineFacts.

Lemma ipsEqual_iff_perm_witness :
  ipsEqual IPString_bytes
    [mkIPAddr [10; 0; 0; 1]%N ""; mkIPAddr [10; 0; 0; 2]%N ""]
    [mkIPAddr [10; 0; 0; 2]%N ""; mkIPAddr [10; 0; 0; 1]%N ""] = true.
Proof.
  apply (ipsEqual_iff_perm IPString_bytes). apply perm_swap.
Defined.

Lemma tick_idle_witness :
  handleRefreshExpire IPString_bytes minute
    (mkWorld 5 (fun _ => 5) (fun _ _ => LookupErr "unused") Snapshot)
    (default NewStore (run NewStore [OpUpsert rule_a10]))
  = Some (mkTick (default NewStore (run NewStore [OpUpsert rule_a10])) false [] []).
Proof.
  apply (tick_idle IPString_bytes minute _ _ 10 true).
  - reflexivity.
  - intros _. reflexivity.
  - intros k r Hk. destruct k as [|k]; [|discriminate Hk].
    vm_compute in Hk. injection Hk as <-. reflexivity.
Defined.

(** ** The block handler *)

(** C6. When the resolver fails or answers no address, [handleBlock]
    leaves the store as it is, asks for no sync and reports an error.
    Otherwise it upserts one rule: its id is the new UUID, its domain and
    addresses those of the command and of the answer, [ResolvedAt] is
    [now]; for [ttl > 0] it expires at [now + ttl] and is temporary,
    else it is permanent and [Expires] is the zero instant.  On a
    well-formed store, as every store reached from the new one is, the
    handler then returns without error and asks for a sync.  For a domain
    the store does not have, the rule is stored afterwards under its id and
    its lower-cased domain, it is in the heap exactly when it is temporary,
    the counter is one up and the rules under other ids are as before.  For
    a domain the store has, the two maps and the counter stay, and the
    record of the domain is rewritten as [Upsert] does it: upgraded to
    permanent when it was temporary and the rule is permanent, else given
    the addresses, the expiry and the time of resolution of the rule. *)
Theorem C6_handleBlock_spec s lookup now uuid cmd :
  (match lookup with LookupErr _ => True | LookupOk ips => ips = [] end ->
   exists err, handleBlock s lookup now uuid cmd = Some (s, false, Some err)) /\
  (forall ips, lookup = LookupOk ips -> ips <> [] ->
   exists r,
     ID r = uuid /\ Domain r = bc_domain cmd /\ IPs r = ips /\
     ResolvedAt r = now /\
     (bc_ttl cmd > 0 -> Expires r = now + bc_ttl cmd /\ Permanent r = false) /\
     (bc_ttl cmd <= 0 -> Permanent r = true /\ Expires r = zeroTime) /\
     handleBlock s lookup now uuid cmd =
       ('(s1, changed) ← Upsert s r; Some (s1, changed, None)) /\
     (wf s ->
      exists s1,
        handleBlock s lookup now uuid cmd = Some (s1, true, None) /\
        Upsert s r = Some (s1, true) /\ wf s1 /\
        (byDom s !! ToLower (bc_domain cmd) = None ->
           stored s1 r /\
           (exists p, byID s1 !! uuid = Some p /\
                      byDom s1 !! ToLower (bc_domain cmd) = Some p /\
                      rule <$> deref s1 p = Some r /\
                      (p ∈ expH s1 <-> Permanent r = false)) /\
           count s1 = count s + 1 /\
           (forall r2, ID r2 <> uuid -> stored s1 r2 <-> stored s r2)) /\
        (forall p cur,
           byDom s !! ToLower (bc_domain cmd) = Some p -> deref s p = Some cur ->
           byID s1 = byID s /\ byDom s1 = byDom s /\ count s1 = count s /\
           rule <$> deref s1 p =
             Some (if negb (Permanent (rule cur)) && Permanent r
                   then mkRule (ID (rule cur)) (Domain (rule cur)) (IPs (rule cur))
                               zeroTime true (ResolvedAt (rule cur))
                   else mkRule (ID (rule cur)) (Domain (rule cur)) ips
                               (Expires r) (Permanent (rule cur)) now) /\
           (forall q, q <> p -> rule <$> deref s1 q = rule <$> deref s q)))).
Proof.
  split.
  - destruct lookup as [err|ips]; simpl.
    + eauto.
    + intros ->. simpl. eauto.
  - intros ips -> Hne. set (r := block_rule now uuid cmd ips).
    assert (Hri : ID r = uuid)
      by (unfold r, block_rule; by destruct (decide (bc_ttl cmd > 0))).
    assert (Hrd : Domain r = bc_domain cmd)
      by (unfold r, block_rule; by destruct (decide (bc_ttl cmd > 0))).
    assert (Hrp : IPs r = ips)
      by (unfold r, block_rule; by destruct (decide (bc_ttl cmd > 0))).
    assert (Hrr : ResolvedAt r = now)
      by (unfold r, block_rule; by destruct (decide (bc_ttl cmd > 0))).
    assert (Hrun : handleBlock s (LookupOk ips) now uuid cmd =
                   ('(s1, changed) ← Upsert s r; Some (s1, changed, None))).
    { unfold handleBlock. rewrite decide_False by (by destruct ips). done. }
    exists r. split; [done|]. split; [done|]. split; [done|]. split; [done|].
    split; [|split; [|split; [exact Hrun|]]].
    { intros Httl. unfold r, block_rule. by rewrite decide_True. }
    { intros Httl. unfold r, block_rule. by rewrite decide_False by lia. }
    intros Hwf. destruct (byDom s !! ToLower (bc_domain cmd)) as [p|] eqn:Hd.
    + destruct (wf_byDom s Hwf _ _ Hd) as (cur & He & _).
      rewrite <- Hrd in Hd.
      destruct (Upsert_existing s r p cur Hwf Hd He)
        as (s1 & Hup & Hwf1 & HbI & HbD & Hc & Hnew & Hold & _).
      exists s1. rewrite Hrun, Hup, bind_Some.
      split; [done|]. split; [done|]. split; [done|]. split; [done|].
      intros p' cur' Hp' He'. injection Hp' as <-.
      assert (cur' = cur) by congruence. subst cur'.
      rewrite <- Hrp, <- Hrr. done.
    + rewrite <- Hrd in Hd.
      destruct (Upsert_fresh s r Hwf Hd)
        as (s1 & p & Hup & Hwf1 & Hst & HbI & HbD & Hnew & Hh & Hc & Hfr & _).
      exists s1. rewrite Hrun, Hup, bind_Some.
      split; [done|]. split; [done|]. split; [done|]. split; [|done].
      intros _. split; [done|]. split; [|split; [done|]].
      * exists p. rewrite HbI, HbD, <- Hri, <- Hrd, !lookup_insert_eq. done.
      * intros r2 Hr2. apply Hfr. by rewrite Hri.
Qed.

Lemma C6_handleBlock_witness :
  exists s1,
    handleBlock (default NewStore (run NewStore [OpUpsert rule_a10]))
                (LookupOk [mkIPAddr [1; 2; 3; 4]%N ""]) 100 "u-1"
                (mkBlockCmd "b.com" 50) = Some (s1, true, None) /\
    stored s1 (mkRule "u-1" "b.com" [mkIPAddr [1; 2; 3; 4]%N ""] 150 false 100) /\
    stored s1 rule_a10 /\
    count s1 = 2.
Proof.
  destruct (C6_handleBlock_spec (default NewStore (run NewStore [OpUpsert rule_a10]))
              (LookupOk [mkIPAddr [1; 2; 3; 4]%N ""])
              100 "u-1" (mkBlockCmd "b.com" 50)) as [_ H].
  destruct (H _ eq_refl ltac:(discriminate))
    as (r & Hid & Hdom & Hips & Hres & Hpos & _ & _ & Hwf).
  destruct (Hpos ltac:(simpl; lia)) as [He Hp].
  destruct (Hwf (wf_of_run _)) as (s1 & Hrun & _ & _ & Hnew & _).
  destruct (Hnew eq_refl) as (Hst & _ & Hc & Hfr).
  exists s1. split; [exact Hrun|].
  assert (Hr : r = mkRule "u-1" "b.com" [mkIPAddr [1; 2; 3; 4]%N ""] 150 false 100).
  { destruct r; cbn in *; subst; reflexivity. }
  rewrite <- Hr. split; [exact Hst|]. split; [|exact Hc].
  apply (Hfr rule_a10); [discriminate|].
  exists 0%nat, (mkEntry rule_a10 0). by vm_compute.
Defined.

(** [handleUnblock] never fails; it asks for a sync exactly when the id
    named a rule; the id names no rule afterwards; and an unknown id leaves
    the store as it is. *)
Theorem handleUnblock_spec s id :
  wf s ->
  exists s' b,
    handleUnblock s id = Some (s', b, None) /\ wf s' /\
    (b = true <-> is_Some (byID s !! id)) /\
    byID s' !! id = None /\
    (b = false -> s' = s).
Proof.
  intros Hwf. unfold handleUnblock.
  destruct (byID s !! id) as [p|] eqn:Hid.
  - destruct (wf_byID s Hwf _ _ Hid) as (cur & He & _).
    destruct (Remove_found s id p cur Hwf Hid He)
      as (s' & Hrm & Hwf' & _ & HbI & _).
    rewrite Hrm, bind_Some. exists s', true.
    split; [done|]. split; [done|]. split; [done|].
    split; [by rewrite HbI, lookup_delete_eq|done].
  - unfold Remove. rewrite Hid, bind_Some. exists s, false.
    split; [done|]. split; [done|]. split; [|done].
    split; [done|]. by intros [? ?].
Qed.

Lemma handleUnblock_spec_witness :
  exists s' b,
    handleUnblock (default NewStore (run NewStore [OpUpsert rule_a10])) "1"
      = Some (s', b, None) /\ b = true.
Proof.
  destruct (handleUnblock_spec
              (default NewStore (run NewStore [OpUpsert rule_a10])) "1")
    as (s' & b & Hun & _ & Hb & _).
  - apply wf_of_run.
  - exists s', b. split; [done|]. apply Hb. by eexists.
Defined.

(** A block command for a domain that is blocked already, upper and lower
    case taken as the same: the handler asks for a sync, but the stored
    rule keeps its id and its domain, the two maps and the counter are as
    before, so the id made for the command names nothing new.  A temporary
    rule that meets a command without a lifetime becomes permanent and
    keeps its addresses; otherwise the rule takes the addresses, the time
    of resolution and the expiry of the command and keeps its own
    [Permanent]. *)
Theorem handleBlock_known_domain s ips now uuid cmd c :
  wf s -> ips <> [] -> stored s c ->
  ToLower (Domain c) = ToLower (bc_domain cmd) ->
  exists s' c',
    handleBlock s (LookupOk ips) now uuid cmd = Some (s', true, None) /\
    wf s' /\
    byID s' = byID s /\ byDom s' = byDom s /\ count s' = count s /\
    stored s' c' /\ ID c' = ID c /\ Domain c' = Domain c /\
    (Permanent c = false -> bc_ttl cmd <= 0 ->
       c' = mkRule (ID c) (Domain c) (IPs c) zeroTime true (ResolvedAt c)) /\
    (Permanent c = false -> bc_ttl cmd > 0 ->
       c' = mkRule (ID c) (Domain c) ips (now + bc_ttl cmd) false now) /\
    (Permanent c = true ->
       c' = mkRule (ID c) (Domain c) ips
                   (if decide (bc_ttl cmd > 0) then now + bc_ttl cmd else zeroTime)
                   true now).
Proof.
  intros Hwf Hips (p & cur & Hid & He & <-) Hdom.
  destruct (wf_byID s Hwf _ _ Hid) as (cur' & He' & _ & Hkey).
  assert (cur' = cur) by congruence. subst cur'.
  set (r := block_rule now uuid cmd ips).
  assert (Hrd : Domain r = bc_domain cmd)
    by (unfold r, block_rule; by destruct (decide (bc_ttl cmd > 0))).
  assert (Hd : byDom s !! ToLower (Domain r) = Some p) by (by rewrite Hrd, <- Hdom).
  destruct (Upsert_existing s r p cur Hwf Hd He)
    as (s' & Hup & Hwf' & HbI & HbD & Hc & Hnew & Hold & Hm).
  unfold handleBlock. rewrite decide_False by (by destruct ips).
  fold r. rewrite Hup, bind_Some.
  destruct (deref s' p) as [e'|] eqn:He2; [|done].
  cbn in Hnew. injection Hnew as Hnew.
  exists s', (rule e'). split; [done|]. split; [done|].
  split; [done|]. split; [done|]. split; [done|].
  assert (Hst : ID (rule e') = ID (rule cur) -> stored s' (rule e')).
  { intros Hi. exists p, e'. rewrite Hi, HbI. done. }
  unfold r, block_rule in Hnew.
  destruct (decide (bc_ttl cmd > 0)) as [Httl|Httl],
           (Permanent (rule cur)) eqn:Hperm;
    cbn in Hnew; rewrite Hnew in *; cbn [ID Domain] in *;
    (split; [by apply Hst|]); (split; [done|]); (split; [done|]);
    repeat split; try done; intros; try lia; try done.
Qed.

Lemma handleBlock_known_domain_witness :
  exists s',
    handleBlock (default NewStore (run NewStore [OpUpsert rule_a10]))
                (LookupOk [mkIPAddr [10; 0; 0; 1]%N ""]) 5 "fresh-id"
                (mkBlockCmd "A.COM" 0)
      = Some (s', true, None) /\
    byID s' = byID (default NewStore (run NewStore [OpUpsert rule_a10])) /\
    stored s' (mkRule "1" "a.com" [] zeroTime true 1).
Proof.
  destruct (handleBlock_known_domain
              (default NewStore (run NewStore [OpUpsert rule_a10]))
              [mkIPAddr [10; 0; 0; 1]%N ""] 5 "fresh-id"
              (mkBlockCmd "A.COM" 0) rule_a10)
    as (s' & c' & Hb & _ & HbI & _ & _ & Hst & _ & _ & Hupg & _).
  - apply wf_of_run.
  - discriminate.
  - exists 0%nat, (mkEntry rule_a10 0). by vm_compute.
  - reflexivity.
  - exists s'. split; [done|]. split; [done|].
    rewrite (Hupg eq_refl) in Hst by (cbn; lia). exact Hst.
Defined.

(** A block command for a new domain under a new id, followed by the
    unblock command for that id: both ask for a sync, and afterwards the two
    maps, the counter and the stored rules are what they were. *)
Theorem block_then_unblock s ips now uuid cmd :
  wf s -> ips <> [] ->
  byDom s !! ToLower (bc_domain cmd) = None -> byID s !! uuid = None ->
  exists s1 s2,
    handleBlock s (LookupOk ips) now uuid cmd = Some (s1, true, None) /\
    stored s1 (block_rule now uuid cmd ips) /\
    handleUnblock s1 uuid = Some (s2, true, None) /\ wf s2 /\
    byID s2 = byID s /\ byDom s2 = byDom s /\ count s2 = count s /\
    (forall r, stored s2 r <-> stored s r).
Proof.
  intros Hwf Hips Hd Hi.
  set (r := block_rule now uuid cmd ips).
  assert (Hrd : Domain r = bc_domain cmd)
    by (unfold r, block_rule; by destruct (decide (bc_ttl cmd > 0))).
  assert (Hri : ID r = uuid)
    by (unfold r, block_rule; by destruct (decide (bc_ttl cmd > 0))).
  rewrite <- Hrd in Hd. rewrite <- Hri in Hi.
  destruct (Upsert_Remove_back s r Hwf Hd Hi)
    as (s1 & s2 & Hup & Hrm & Hwf2 & HbI & HbD & Hc & _ & Hrules).
  destruct (Upsert_fresh s r Hwf Hd) as (s1' & p & Hup' & _ & Hst & _).
  assert (s1' = s1) by congruence. subst s1'.
  exists s1, s2. unfold handleBlock. rewrite decide_False by (by destruct ips).
  fold r. rewrite Hup, bind_Some. split; [done|]. split; [done|].
  unfold handleUnblock. rewrite <- Hri, Hrm, bind_Some.
  split; [done|]. split; [done|]. split; [done|]. split; [done|].
  split; [done|]. intros r2. split.
  - intros (q & e2 & Hq & He2 & Hre). rewrite HbI in Hq.
    destruct (wf_byID s Hwf _ _ Hq) as (e & He & _).
    specialize (Hrules q e He). rewrite He2 in Hrules.
    exists q, e. split; [done|]. split; [done|]. cbn in Hrules. congruence.
  - intros (q & e & Hq & He & Hre).
    specialize (Hrules q e He).
    destruct (deref s2 q) as [e2|] eqn:He2; [|done].
    exists q, e2. rewrite HbI. split; [done|]. split; [done|].
    cbn in Hrules. congruence.
Qed.

Lemma block_then_unblock_witness :
  exists s1 s2,
    handleBlock NewStore (LookupOk [mkIPAddr [10; 0; 0; 1]%N ""]) 5 "id-1"
                (mkBlockCmd "a.com" 60) = Some (s1, true, None) /\
    handleUnblock s1 "id-1" = Some (s2, true, None) /\
    byID s2 = byID NewStore.
Proof.
  destruct (block_then_unblock NewStore [mkIPAddr [10; 0; 0; 1]%N ""] 5 "id-1"
              (mkBlockCmd "a.com" 60))
    as (s1 & s2 & Hb & _ & Hu & _ & HbI & _).
  - apply wf_NewStore.
  - discriminate.
  - reflexivity.
  - reflexivity.
  - exists s1, s2. done.
Defined.

Lemma ruleToLoad_ID now r : ID (ruleToLoad now r) = ID r.
Proof. unfold ruleToLoad. by destruct (IsZero (ResolvedAt r)). Qed.

Lemma ruleToLoad_Domain now r : Domain (ruleToLoad now r) = Domain r.
Proof. unfold ruleToLoad. by destruct (IsZero (ResolvedAt r)). Qed.

Lemma load_loop_fresh clock : forall rs s i n,
  wf s ->
  NoDup (ID <$> rs) -> NoDup ((fun r => ToLower (Domain r)) <$> rs) ->
  (forall r, r ∈ rs -> byDom s !! ToLower (Domain r) = None) ->
  exists s',
    load_loop s clock i rs n = Some (s', n + Z.of_nat (length rs)) /\ wf s' /\
    count s' = count s + Z.of_nat (length rs) /\
    (forall (k : nat) r, rs !! k = Some r ->
       stored s' (ruleToLoad (clock (i + k)%nat) r)) /\
    (forall r2, stored s r2 -> ID r2 ∉ ID <$> rs -> stored s' r2) /\
    (forall r2, stored s' r2 ->
       stored s r2 \/
       exists (k : nat) r, rs !! k = Some r /\ r2 = ruleToLoad (clock (i + k)%nat) r).
Proof.
  induction rs as [|r rest IH]; intros s i n Hwf Hni Hnd Hnew.
  - exists s. cbn. split; [f_equal; f_equal; lia|]. split; [done|].
    split; [lia|]. split; [intros k r Hk; by rewrite lookup_nil in Hk|].
    split; [done|]. intros r2 ?. by left.
  - cbn [fmap list_fmap] in Hni, Hnd.
    apply NoDup_cons in Hni as [Hi1 Hni].
    apply NoDup_cons in Hnd as [Hd1 Hnd].
    set (r0 := ruleToLoad (clock i) r).
    assert (Hd0 : byDom s !! ToLower (Domain r0) = None).
    { unfold r0. rewrite ruleToLoad_Domain. apply Hnew. by left. }
    destruct (Upsert_fresh s r0 Hwf Hd0)
      as (s1 & p & Hup & Hwf1 & Hst & HbI & HbD & _ & _ & Hc & Hfr & Hinv).
    cbn [load_loop]. fold r0. rewrite Hup, bind_Some.
    destruct (IH s1 (S i) (n + 1) Hwf1 Hni Hnd)
      as (s' & Hloop & Hwf' & Hc' & Hall & Hkeep & Hback).
    { intros r' Hr'. rewrite HbD, lookup_insert_ne; [apply Hnew; by right|].
      unfold r0. rewrite ruleToLoad_Domain. intros Heq. apply Hd1.
      apply list_elem_of_fmap. exists r'. split; [done|done]. }
    exists s'. rewrite Hloop. cbn [length].
    split; [f_equal; f_equal; lia|]. split; [done|]. split; [lia|].
    assert (Hid0 : ID r0 = ID r) by apply ruleToLoad_ID.
    split; [|split].
    + intros k r' Hk. destruct k as [|k].
      * cbn in Hk. injection Hk as <-. rewrite Nat.add_0_r. fold r0.
        apply Hkeep; [done|]. by rewrite Hid0.
      * cbn in Hk. rewrite Nat.add_succ_r. by apply (Hall k r').
    + intros r2 Hr2 Hnin. apply Hkeep.
      * apply Hfr; [|done]. rewrite Hid0. intros Heq. apply Hnin.
        cbn [fmap list_fmap]. rewrite Heq. by left.
      * intros Hin. apply Hnin. cbn [fmap list_fmap]. by right.
    + intros r2 Hr2. destruct (Hback r2 Hr2) as [H1|(k & r' & Hk & Hre)].
      * destruct (Hinv r2 H1) as [->|H0]; [|by left].
        right. exists 0%nat, r. rewrite Nat.add_0_r. done.
      * right. exists (S k), r'. rewrite Nat.add_succ_r. done.
Qed.

(** The initial load into a new store of rules with pairwise distinct ids
    and pairwise distinct domains (upper and lower case taken as the same):
    no error, every rule is counted as loaded, and the store holds exactly
    the loaded rules, each with the clock's reading as its time of
    resolution if it had none. *)
Theorem loadInitialRules_fresh (rs : list Rule) (clock : nat -> Time) :
  NoDup (ID <$> rs) -> NoDup ((fun r => ToLower (Domain r)) <$> rs) ->
  exists s',
    loadInitialRules NewStore (CurRules rs) clock
      = Some (s', Z.of_nat (length rs), None) /\
    wf s' /\ count s' = Z.of_nat (length rs) /\
    forall r2, stored s' r2 <->
      exists (k : nat) r, rs !! k = Some r /\ r2 = ruleToLoad (clock k) r.
Proof.
  intros Hni Hnd. unfold loadInitialRules.
  destruct (decide (length rs = 0%nat)) as [Hz|Hz].
  - destruct rs; [|done]. exists NewStore.
    split; [done|]. split; [apply wf_NewStore|]. split; [done|].
    intros r2. split.
    + intros (p & e & Hp & _). cbn [byID NewStore] in Hp.
      by rewrite lookup_empty in Hp.
    + intros (k & r & Hk & _). by rewrite lookup_nil in Hk.
  - destruct (load_loop_fresh clock rs NewStore 0 0 wf_NewStore Hni Hnd)
      as (s' & Hloop & Hwf' & Hc & Hall & _ & Hback).
    { intros r _. apply lookup_empty. }
    rewrite Hloop, bind_Some. exists s'.
    split; [done|]. split; [done|]. split; [cbn in Hc; lia|].
    intros r2. split.
    + intros Hst. destruct (Hback r2 Hst) as [(p & e & Hp & _)|H]; [|done].
      cbn [byID NewStore] in Hp. by rewrite lookup_empty in Hp.
    + intros (k & r & Hk & ->). by apply (Hall k r).
Qed.

Lemma loadInitialRules_fresh_witness :
  exists s',
    loadInitialRules NewStore (CurRules [rule_perm_fixture; rule_temp_fixture])
                     (fun _ => 7)
      = Some (s', 2, None) /\
    stored s' (ruleToLoad 7 rule_temp_fixture).
Proof.
  destruct (loadInitialRules_fresh [rule_perm_fixture; rule_temp_fixture]
              (fun _ => 7)) as (s' & Hl & _ & _ & Hst).
  - apply (bool_decide_unpack _). vm_compute. reflexivity.
  - apply (bool_decide_unpack _). vm_compute. reflexivity.
  - exists s'. split; [exact Hl|]. apply Hst.
    exists 1%nat, rule_temp_fixture. done.
Defined.

Lemma snapshot_has_stored s l r :
  is_snapshot s l -> stored s r -> r ∈ l.
Proof.
  intros (ids & Hperm & Hall) (p & e & Hp & He & Hr).
  assert (Hin : ID r ∈ ids).
  { rewrite Hperm. apply list_elem_of_fmap. exists (ID r, p).
    split; [done|]. by apply elem_of_map_to_list. }
  apply list_elem_of_lookup_1 in Hin as [i Hi].
  destruct (Forall2_lookup_l _ _ _ _ _ Hall Hi) as (r' & Hl & Hsm).
  unfold snapshot_map in Hsm. rewrite lookup_omap, Hp in Hsm.
  cbn in Hsm. rewrite He in Hsm. cbn in Hsm.
  assert (r' = r) by congruence. subst r'.
  by eapply list_elem_of_lookup_2.
Qed.

Lemma next_refresh_loop_min rr l : forall soonest,
  next_refresh_loop rr soonest l <= soonest /\
  Forall (fun r => next_refresh_loop rr soonest l <= ResolvedAt r + rr) l /\
  (next_refresh_loop rr soonest l = soonest \/
   Exists (fun r => next_refresh_loop rr soonest l = ResolvedAt r + rr) l).
Proof.
  induction l as [|r rest IH]; intros soonest; cbn [next_refresh_loop].
  - split; [lia|]. split; [constructor|by left].
  - cbv zeta.
    assert (Hs1 : exists s1 : Time,
      s1 = (if Before (ResolvedAt r + rr) soonest
            then ResolvedAt r + rr else soonest) /\
      s1 <= soonest /\ s1 <= ResolvedAt r + rr /\
      (s1 = soonest \/ s1 = ResolvedAt r + rr)).
    { eexists. split; [reflexivity|]. unfold Before.
      destruct (Z.ltb_spec (ResolvedAt r + rr) soonest) as [Hlt|Hge].
      - split; [apply Z.lt_le_incl, Hlt|]. split; [apply Z.le_refl|by right].
      - split; [apply Z.le_refl|]. split; [exact Hge|by left]. }
    destruct Hs1 as (s1 & <- & Ha & Hb & Hc).
    destruct (IH s1) as (H1 & H2 & H3).
    split; [by etrans|]. split; [constructor; [by etrans|done]|].
    destruct H3 as [H3|H3]; [|right; by constructor 2].
    destruct Hc as [Hc|Hc]; [left; congruence|].
    right. constructor 1. congruence.
Qed.

(** [NextRefresh] returns the earliest of [now + rr] and the instants
    [ResolvedAt + rr] of the stored rules, whatever order the range over
    the map takes. *)
Theorem NextRefresh_min s now rr l :
  wf s -> is_snapshot s l ->
  NextRefresh now rr l <= now + rr /\
  (forall r, stored s r -> NextRefresh now rr l <= ResolvedAt r + rr) /\
  (NextRefresh now rr l = now + rr \/
   exists r, stored s r /\ NextRefresh now rr l = ResolvedAt r + rr).
Proof.
  intros Hwf Hsnap. unfold NextRefresh.
  destruct (next_refresh_loop_min rr l (now + rr)) as (H1 & H2 & H3).
  split; [done|]. split.
  - intros r Hr. rewrite Forall_forall in H2. apply H2.
    by eapply snapshot_has_stored.
  - destruct H3 as [H3|H3]; [by left|]. right.
    apply Exists_exists in H3 as (r & Hin & Hr). exists r. split; [|done].
    destruct (snapshot_stored s l Hwf Hsnap) as [_ Hst]. by apply Hst.
Qed.

Lemma NextRefresh_min_witness :
  NextRefresh 100 60 (Snapshot (default NewStore (run NewStore reblock_ops)))
  <= 100 + 60.
Proof.
  destruct (NextRefresh_min (default NewStore (run NewStore reblock_ops)) 100 60
              (Snapshot (default NewStore (run NewStore reblock_ops))))
    as (H & _).
  - apply wf_of_run.
  - apply Snapshot_is_snapshot, wf_of_run.
  - exact H.
Defined.

(** ** The resolver: retries and the two address families *)

Lemma lookup_loop_bounds env host qtype : forall n attempt lastErr tr,
  exists ext,
    (lookup_loop env host qtype n attempt lastErr tr).2 = tr ++ ext /\
    (length ext <= n)%nat /\
    Forall (fun q => q = (host, qtype)) ext /\
    forall ips, (lookup_loop env host qtype n attempt lastErr tr).1 = LookupOk ips ->
                ips <> [].
Proof.
  induction n as [|n IH]; intros attempt lastErr tr; cbn [lookup_loop].
  - exists []. rewrite app_nil_r. split; [done|]. split; [done|].
    split; [constructor|]. intros ips H. discriminate H.
  - destruct (d_ctxErr env qtype attempt) as [err|].
    { exists []. rewrite app_nil_r. split; [done|]. split; [cbn; lia|].
      split; [constructor|]. intros ips H. discriminate H. }
    assert (Hrec : forall le, exists ext,
      (lookup_loop env host qtype n (S attempt) le (tr ++ [(host, qtype)])).2
        = tr ++ ext /\
      (length ext <= S n)%nat /\
      Forall (fun q => q = (host, qtype)) ext /\
      forall ips,
        (lookup_loop env host qtype n (S attempt) le (tr ++ [(host, qtype)])).1
          = LookupOk ips -> ips <> []).
    { intros le. destruct (IH (S attempt) le (tr ++ [(host, qtype)]))
        as (ext & H1 & H2 & H3 & H4).
      exists ((host, qtype) :: ext). rewrite H1, <- app_assoc.
      split; [done|]. split; [cbn; lia|]. split; [by constructor|done]. }
    assert (Hone : forall res,
      (forall ips, res = LookupOk ips -> ips <> []) ->
      exists ext,
        (res, tr ++ [(host, qtype)]).2 = tr ++ ext /\
        (length ext <= S n)%nat /\
        Forall (fun q => q = (host, qtype)) ext /\
        forall ips, (res, tr ++ [(host, qtype)]).1 = LookupOk ips -> ips <> []).
    { intros res Hres. exists [(host, qtype)]. split; [done|].
      split; [cbn; lia|]. split; [by repeat constructor|done]. }
    destruct (d_exchange env host qtype attempt) as [err| |answer].
    + apply Hrec.
    + apply Hone. intros ips H. discriminate H.
    + unfold parseIPs.
      destruct (decide (length (answer_ips answer) = 0%nat)) as [Hz|Hz].
      * apply Hrec.
      * apply Hone. intros ips [= <-]. by destruct (answer_ips answer).
Qed.

(** [Client.lookup] sends at most [Retries + 1] queries, each for the host
    and the type it was asked for, and a successful lookup never gives an
    empty address list. *)
Theorem lookup_bounds env (retries : nat) host qtype :
  (length (lookup env retries host qtype).2 <= S retries)%nat /\
  Forall (fun q => q = (host, qtype)) (lookup env retries host qtype).2 /\
  forall ips, (lookup env retries host qtype).1 = LookupOk ips -> ips <> [].
Proof.
  unfold lookup.
  destruct (lookup_loop_bounds env host qtype (S retries) 0 None [])
    as (ext & H1 & H2 & H3 & H4).
  rewrite H1. cbn [app]. done.
Qed.

Lemma lookup_bounds_witness :
  (length (lookup (mkDnsEnv (fun _ _ _ => ExchErr "timeout") (fun _ _ => None) true)
                  2 "a.com" TypeA).2 <= 3)%nat.
Proof.
  apply (proj1 (lookup_bounds
                  (mkDnsEnv (fun _ _ _ => ExchErr "timeout") (fun _ _ => None) true)
                  2 "a.com" TypeA)).
Defined.

Lemma lookup_loop_skip env host qtype : forall (k : nat) n attempt lastErr tr,
  (forall i, (i < k)%nat ->
     d_ctxErr env qtype (attempt + i) = None /\
     retried (d_exchange env host qtype (attempt + i))) ->
  exists lastErr',
    lookup_loop env host qtype (k + n) attempt lastErr tr =
    lookup_loop env host qtype n (attempt + k) lastErr'
                (tr ++ replicate k (host, qtype)) /\
    (k = 0%nat -> lastErr' = lastErr).
Proof.
  induction k as [|k IH]; intros n attempt lastErr tr H.
  - exists lastErr. rewrite Nat.add_0_r. cbn. by rewrite app_nil_r.
  - destruct (H 0%nat ltac:(lia)) as [Hc Hx]. rewrite Nat.add_0_r in Hc, Hx.
    assert (Hrest : forall i, (i < k)%nat ->
              d_ctxErr env qtype (S attempt + i) = None /\
              retried (d_exchange env host qtype (S attempt + i))).
    { intros i Hi. specialize (H (S i) ltac:(lia)).
      by rewrite Nat.add_succ_r in H. }
    change (S k + n)%nat with (S (k + n)). cbn [lookup_loop]. rewrite Hc.
    assert (Hgo : forall le, exists lastErr',
      lookup_loop env host qtype (k + n) (S attempt) le (tr ++ [(host, qtype)]) =
      lookup_loop env host qtype n (attempt + S k) lastErr'
                  (tr ++ replicate (S k) (host, qtype)) /\
      (S k = 0%nat -> lastErr' = lastErr)).
    { intros le. destruct (IH n (S attempt) le (tr ++ [(host, qtype)]) Hrest)
        as (le' & Heq & _).
      exists le'. rewrite Heq, Nat.add_succ_r, <- app_assoc. done. }
    destruct (d_exchange env host qtype attempt) as [err| |answer];
      cbn [retried] in Hx; [apply Hgo|done|].
    unfold parseIPs. rewrite Hx. cbn. apply Hgo.
Qed.

(** [Client.lookup] tries again after an exchange error and after a message
    without an address, and returns the addresses of the first message that
    has some, provided the context is alive up to that attempt and the
    attempt is within [Retries]; it has then sent one query per attempt. *)
Theorem lookup_first_answer env (retries k : nat) host qtype answer :
  (k <= retries)%nat ->
  (forall i, (i < k)%nat ->
     d_ctxErr env qtype i = None /\ retried (d_exchange env host qtype i)) ->
  d_ctxErr env qtype k = None ->
  d_exchange env host qtype k = ExchMsg answer ->
  answer_ips answer <> [] ->
  lookup env retries host qtype =
    (LookupOk (answer_ips answer), replicate (S k) (host, qtype)).
Proof.
  intros Hk Hfail Hc Hx Hne. unfold lookup.
  replace (S retries) with (k + S (retries - k))%nat by lia.
  destruct (lookup_loop_skip env host qtype k (S (retries - k)) 0 None [] Hfail)
    as (le & -> & _).
  cbn [lookup_loop Nat.add app]. rewrite Hc, Hx. unfold parseIPs.
  rewrite decide_False by (by destruct (answer_ips answer)).
  f_equal. rewrite <- (Nat.add_1_r k), replicate_add. done.
Qed.

Lemma lookup_first_answer_witness :
  lookup (mkDnsEnv (fun _ _ i => match i with
                                 | O => ExchErr "timeout"
                                 | _ => ExchMsg [RR_A [10; 0; 0; 1]%N]
                                 end)
                   (fun _ _ => None) true)
         2 "a.com" TypeA
  = (LookupOk [mkIPAddr [10; 0; 0; 1]%N ""], [("a.com", TypeA); ("a.com", TypeA)]).
Proof.
  apply (lookup_first_answer _ 2 1 "a.com" TypeA [RR_A [10; 0; 0; 1]%N]).
  - lia.
  - intros i Hi. assert (i = 0%nat) by lia. subst i. done.
  - reflexivity.
  - reflexivity.
  - discriminate.
Defined.

(** [Client.lookup] stops at once when the context is done or when the
    exchanger hands back no message and no error: after [k] attempts that it
    tried again, it returns the context's error with [k] queries sent, or
    [ErrEmptyMsg] with [k + 1]. *)
Theorem lookup_stops env (retries k : nat) host qtype :
  (k <= retries)%nat ->
  (forall i, (i < k)%nat ->
     d_ctxErr env qtype i = None /\ retried (d_exchange env host qtype i)) ->
  (forall err, d_ctxErr env qtype k = Some err ->
     lookup env retries host qtype = (LookupErr err, replicate k (host, qtype))) /\
  (d_ctxErr env qtype k = None -> d_exchange env host qtype k = ExchNil ->
     lookup env retries host qtype =
       (LookupErr ErrEmptyMsg, replicate (S k) (host, qtype))).
Proof.
  intros Hk Hfail. unfold lookup.
  replace (S retries) with (k + S (retries - k))%nat by lia.
  destruct (lookup_loop_skip env host qtype k (S (retries - k)) 0 None [] Hfail)
    as (le & -> & _).
  cbn [lookup_loop Nat.add app]. split.
  - intros err ->. done.
  - intros -> ->. f_equal. rewrite <- (Nat.add_1_r k), replicate_add. done.
Qed.

Lemma lookup_stops_witness :
  lookup (mkDnsEnv (fun _ _ _ => ExchErr "timeout")
                   (fun _ i => match i with O => None | _ => Some "context canceled" end)
                   true)
         3 "a.com" TypeA
  = (LookupErr "context canceled", [("a.com", TypeA)]).
Proof.
  destruct (lookup_stops
              (mkDnsEnv (fun _ _ _ => ExchErr "timeout")
                 (fun _ i => match i with O => None | _ => Some "context canceled" end)
                 true) 3 1 "a.com" TypeA) as [H _].
  - lia.
  - intros i Hi. assert (i = 0%nat) by lia. subst i. done.
  - apply (H "context canceled"). reflexivity.
Defined.

(** [Client.lookupIPs] succeeds as soon as one of the two lookups does: it
    returns the addresses of the lookups that succeeded, in the order the
    two goroutines took the lock, and fails only when both failed; the
    queries sent are those of the two lookups. *)
Theorem lookupIPs_spec env (retries : nat) host :
  (lookupIPs env retries host).2 =
    (lookup env retries host TypeA).2 ++ (lookup env retries host TypeAAAA).2 /\
  match (lookup env retries host TypeA).1, (lookup env retries host TypeAAAA).1 with
  | LookupOk a, LookupOk b =>
      (lookupIPs env retries host).1 =
        LookupOk (if d_a_first env then a ++ b else b ++ a)
  | LookupOk a, LookupErr _ => (lookupIPs env retries host).1 = LookupOk a
  | LookupErr _, LookupOk b => (lookupIPs env retries host).1 = LookupOk b
  | LookupErr _, LookupErr _ =>
      exists err, (lookupIPs env retries host).1 = LookupErr err
  end.
Proof.
  pose proof (lookup_bounds env retries host TypeA) as (_ & _ & Ha).
  pose proof (lookup_bounds env retries host TypeAAAA) as (_ & _ & Hb).
  unfold lookupIPs.
  destruct (lookup env retries host TypeA) as [ra ta].
  destruct (lookup env retries host TypeAAAA) as [r6 t6].
  cbn [fst snd] in *.
  destruct ra as [ea|a], r6 as [e6|b], (d_a_first env); cbn [fst snd app];
    try (specialize (Ha a eq_refl)); try (specialize (Hb b eq_refl)).
  all: try (rewrite decide_True by done; split; [done|]; by eexists).
  all: rewrite ?app_nil_r; rewrite decide_False; [done|].
  all: try (by destruct a); try (by destruct b).
Qed.

Lemma lookupIPs_spec_witness :
  (lookupIPs (mkDnsEnv (fun _ qt _ => if qt =? TypeA then ExchErr "timeout"
                                      else ExchMsg [RR_AAAA [32; 1]%N])
                       (fun _ _ => None) true)
             0 "a.com").1
  = LookupOk [mkIPAddr [32; 1]%N ""].
Proof.
  pose proof (proj2 (lookupIPs_spec
    (mkDnsEnv (fun _ qt _ => if qt =? TypeA then ExchErr "timeout"
                             else ExchMsg [RR_AAAA [32; 1]%N])
              (fun _ _ => None) true) 0 "a.com")) as H.
  exact H.
Defined.

Section ResolverMore.

Variable ParseIP : string -> option IP.

Lemma trim_left_space (h : string) :
  Forall (fun c => is_space c = true) (list_ascii_of_string h) ->
  trim_left h = EmptyString.
Proof.
  induction h as [|c h IH]; [done|].
  cbn [list_ascii_of_string trim_left]. intros H.
  apply Forall_cons in H as [Hc Hh]. rewrite Hc. by apply IH.
Qed.

(** [LookupHost] sends at most [2 * (Retries + 1)] queries, each of them
    for the host name it was given; for a name of white space only it sends
    none and returns [ErrEmptyHostname]. *)
Theorem LookupHost_queries env (retries : nat) h :
  (length (LookupHost ParseIP env retries h).2 <= 2 * S retries)%nat /\
  Forall (fun q => q.1 = h) (LookupHost ParseIP env retries h).2 /\
  (Forall (fun c => is_space c = true) (list_ascii_of_string h) ->
   LookupHost ParseIP env retries h = (LookupErr ErrEmptyHostname, [])).
Proof.
  unfold LookupHost. split; [|split].
  - destruct (decide (TrimSpace h = EmptyString)); [cbn; lia|].
    destruct (ParseIP h); [cbn; lia|].
    destruct (lookupIPs_spec env retries h) as [-> _].
    pose proof (lookup_bounds env retries h TypeA) as (Ha & _).
    pose proof (lookup_bounds env retries h TypeAAAA) as (Hb & _).
    rewrite length_app. lia.
  - destruct (decide (TrimSpace h = EmptyString)); [constructor|].
    destruct (ParseIP h); [constructor|].
    destruct (lookupIPs_spec env retries h) as [-> _].
    pose proof (lookup_bounds env retries h TypeA) as (_ & Ha & _).
    pose proof (lookup_bounds env retries h TypeAAAA) as (_ & Hb & _).
    apply Forall_app_2; (eapply Forall_impl; [eassumption|]); by intros q ->.
  - intros Hsp. unfold TrimSpace. rewrite (trim_left_space h Hsp).
    by rewrite decide_True.
Qed.

End ResolverMore.

Lemma LookupHost_queries_witness :
  LookupHost ParseIP_1111
    (mkDnsEnv (fun _ _ _ => ExchNil) (fun _ _ => None) true) 1 "  "
  = (LookupErr ErrEmptyHostname, []).
Proof.
  apply (proj2 (proj2 (LookupHost_queries ParseIP_1111
    (mkDnsEnv (fun _ _ _ => ExchNil) (fun _ _ => None) true) 1 "  "))).
  repeat constructor.
Defined.

(** [getResolver] never indexes out of range: whatever [rand.Int] gives
    within its bound, the result is the default resolver when the list is
    empty and a member of the list otherwise. *)
Theorem getResolver_member (resolvers : list string) (rnd : option nat) :
  (forall n, rnd = Some n -> (n < length resolvers)%nat) ->
  exists r, getResolver resolvers rnd = Some r /\
    (resolvers = [] /\ r = "1.1.1.1:53" \/ r ∈ resolvers).
Proof.
  intros Hrnd. unfold getResolver.
  destruct (decide (length resolvers = 0%nat)) as [Hz|Hz].
  - exists "1.1.1.1:53". split; [done|]. left. by destruct resolvers.
  - destruct rnd as [n|].
    + destruct (lookup_lt_is_Some_2 resolvers n (Hrnd n eq_refl)) as [r Hr].
      exists r. split; [done|]. right. by eapply list_elem_of_lookup_2.
    + destruct resolvers as [|r rest]; [done|]. exists r.
      split; [done|]. right. by left.
Qed.

Lemma getResolver_member_witness :
  exists r, getResolver ["9.9.9.9:53"; "8.8.8.8:53"] (Some 1%nat) = Some r /\
    (["9.9.9.9:53"; "8.8.8.8:53"] = [] /\ r = "1.1.1.1:53" \/
     r ∈ ["9.9.9.9:53"; "8.8.8.8:53"]).
Proof.
  apply (getResolver_member ["9.9.9.9:53"; "8.8.8.8:53"] (Some 1%nat)).
  intros n [= <-]. cbn. lia.
Defined.

(** ** The configuration *)

(** A configuration that [FSProvider.Load] returns has passed [Validate],
    also when it is the default one: its socket path is not blank, its
    refresh interval is at least a minute and its DNS timeout at least a
    second. *)
Theorem FSProvider_Load_valid (parsed : parse_result) (cfg : Config) :
  FSProvider_Load parsed = inl cfg ->
  Validate cfg = None /\
  TrimSpace (SocketPath cfg) <> EmptyString /\
  minute <= RefreshInterval cfg /\ second <= DNSTimeout cfg.
Proof.
  intros HL.
  assert (Hv : Validate cfg = None).
  { destruct parsed as [|err|c]; cbn in HL.
    - injection HL as <-. reflexivity.
    - discriminate HL.
    - destruct (Validate c) eqn:Hc; [discriminate HL|]. by injection HL as <-. }
  split; [done|]. unfold Validate in Hv.
  destruct (decide (TrimSpace (SocketPath cfg) = EmptyString)); [discriminate Hv|].
  destruct (decide (RefreshInterval cfg < minute)); [discriminate Hv|].
  destruct (decide (DNSTimeout cfg < second)); [discriminate Hv|].
  split; [done|]. lia.
Qed.

Lemma FSProvider_Load_valid_witness :
  Validate Default = None /\
  TrimSpace (SocketPath Default) <> EmptyString /\
  minute <= RefreshInterval Default /\ second <= DNSTimeout Default.
Proof.
  apply (FSProvider_Load_valid ParseNoConfig Default). reflexivity.
Defined.

(** ** The atomic write: success and frame *)

(** [AtomicWrite] returns nil exactly when the temp file was made, all the
    data was written, and sync, close, chmod and rename went through,
    whatever happens to the sync of the directory; the file system is then
    the one before the call with [dst] holding the data and the mode, and
    nothing else changed: the temp name is gone. *)
Theorem AtomicWrite_success (fs : filesystem) ft (dst : string) data perm :
  (wr_ok (AtomicWrite fs ft dst data perm) = true <->
     (exists tmp, mk_temp ft = Some tmp /\ fs !! tmp = None) /\
     wr_short ft = None /\ sync_fails ft = false /\ close_fails ft = false /\
     chmod_fails ft = false /\ rename_fails ft = false) /\
  (wr_ok (AtomicWrite fs ft dst data perm) = true ->
     wr_fs (AtomicWrite fs ft dst data perm) = <[dst := mkFile data perm]> fs).
Proof.
  unfold AtomicWrite, CreateTemp.
  destruct (mk_temp ft) as [tmp|] eqn:Htmp.
  2:{ cbn. split; [|done]. split; [done|]. by intros [(t & Ht & _) _]. }
  destruct (fs !! tmp) as [f0|] eqn:Hfs.
  { cbn. split; [|done]. split; [done|].
    intros [(t & Ht & Hn) _]. congruence. }
  unfold fWrite, fChmod, fRename, fRemove.
  destruct (wr_short ft) as [n|] eqn:Hw.
  { cbn. destruct (remove_fails ft); cbn; (split; [|done]);
      (split; [done|]); by intros (_ & Hx & _). }
  destruct (sync_fails ft) eqn:Hs.
  { cbn. destruct (remove_fails ft); cbn; (split; [|done]);
      (split; [done|]); by intros (_ & _ & Hx & _). }
  destruct (close_fails ft) eqn:Hc.
  { cbn. destruct (remove_fails ft); cbn; (split; [|done]);
      (split; [done|]); by intros (_ & _ & _ & Hx & _). }
  cbn [negb andb].
  destruct (chmod_fails ft) eqn:Hch.
  { cbn. destruct (remove_fails ft); cbn; (split; [|done]);
      (split; [done|]); by intros (_ & _ & _ & _ & Hx & _). }
  cbn [negb].
  destruct (rename_fails ft) eqn:Hrn.
  { cbn. destruct (remove_fails ft); cbn; (split; [|done]);
      (split; [done|]); by intros (_ & _ & _ & _ & _ & Hx). }
  rewrite !lookup_alter_eq, lookup_insert_eq. cbn.
  split.
  - split; [|done]. intros _. split; [by exists tmp|done].
  - intros _. by rewrite (temp_removed2 fs tmp _ _ _ Hfs).
Qed.

Lemma AtomicWrite_success_witness :
  wr_fs (AtomicWrite ∅ faults_none "/etc/pf.anchors/void" [1%N] 420)
  = <["/etc/pf.anchors/void" := mkFile [1%N] 420]> (∅ : filesystem).
Proof.
  apply (proj2 (AtomicWrite_success ∅ faults_none "/etc/pf.anchors/void" [1%N] 420)).
  reflexivity.
Defined.

(** [AtomicWrite] touches two names only: whatever goes wrong, every path
    other than [dst] and the name of the temp file holds what it held. *)
Theorem AtomicWrite_frame (fs : filesystem) ft (dst : string) data perm (p : string) :
  p <> dst -> mk_temp ft <> Some p ->
  wr_fs (AtomicWrite fs ft dst data perm) !! p = fs !! p.
Proof.
  intros Hd Ht. unfold AtomicWrite, CreateTemp.
  destruct (mk_temp ft) as [tmp|] eqn:Htmp; [|done].
  assert (Hne : tmp <> p) by congruence.
  assert (Hd' : dst <> p) by congruence.
  destruct (fs !! tmp) as [f0|] eqn:Hfs; [done|].
  unfold fWrite, fChmod, fRename, fRemove.
  destruct (wr_short ft) as [n|] eqn:Hw.
  { cbn. destruct (remove_fails ft); cbn;
      rewrite ?lookup_delete_ne, ?lookup_alter_ne, ?lookup_insert_ne by done;
      done. }
  destruct (sync_fails ft) eqn:Hs.
  { cbn. destruct (remove_fails ft); cbn;
      rewrite ?lookup_delete_ne, ?lookup_alter_ne, ?lookup_insert_ne by done;
      done. }
  destruct (close_fails ft) eqn:Hc.
  { cbn. destruct (remove_fails ft); cbn;
      rewrite ?lookup_delete_ne, ?lookup_alter_ne, ?lookup_insert_ne by done;
      done. }
  cbn [negb andb].
  destruct (chmod_fails ft) eqn:Hch.
  { cbn. destruct (remove_fails ft); cbn;
      rewrite ?lookup_delete_ne, ?lookup_alter_ne, ?lookup_insert_ne by done;
      done. }
  cbn [negb].
  destruct (rename_fails ft) eqn:Hrn.
  { cbn. destruct (remove_fails ft); cbn;
      rewrite ?lookup_delete_ne, ?lookup_alter_ne, ?lookup_insert_ne by done;
      done. }
  rewrite !lookup_alter_eq, lookup_insert_eq. cbn.
  rewrite lookup_insert_ne, lookup_delete_ne, !lookup_alter_ne,
          lookup_insert_ne by done.
  done.
Qed.

Lemma AtomicWrite_frame_witness :
  wr_fs (AtomicWrite {["/etc/hosts" := mkFile [1%N] 420]} faults_write_and_remove
           "/etc/pf.anchors/void" [2%N] 420) !! "/etc/hosts"
  = ({["/etc/hosts" := mkFile [1%N] 420]} : filesystem) !! "/etc/hosts".
Proof.
  apply AtomicWrite_frame.
  - discriminate.
  - discriminate.
Defined.

(** ** Heap order: the steps of [up] and [down] on the keys *)

Lemma up_inv_step (K K' : nat -> option Z) (i j n : nat) ki kj :
  up_inv K j n -> child_of i j ->
  K i = Some ki -> K j = Some kj -> kj < ki ->
  K' i = K j -> K' j = K i ->
  (forall k, k <> i -> k <> j -> K' k = K k) ->
  up_inv K' i n.
Proof.
  intros [U1 U2] Hij Hi Hj Hlt Hi' Hj' Hk'. split.
  - intros a b Hb Hab Hbi ka kb Ha' Hb'.
    destruct (decide (b = j)) as [->|Hbj].
    + assert (a = i) by (unfold child_of in *; lia). subst a.
      rewrite Hi', Hj in Ha'. rewrite Hj', Hi in Hb'.
      injection Ha' as <-. injection Hb' as <-. lia.
    + rewrite Hk' in Hb' by done.
      destruct (decide (a = i)) as [->|Hai].
      * rewrite Hi', Hj in Ha'. injection Ha' as <-.
        pose proof (U1 i b Hb Hab Hbj ki kb Hi Hb'). lia.
      * destruct (decide (a = j)) as [->|Haj].
        -- rewrite Hj', Hi in Ha'. injection Ha' as <-.
           exact (U2 i b Hij Hab Hb ki kb Hi Hb').
        -- rewrite Hk' in Ha' by done. exact (U1 a b Hb Hab Hbj ka kb Ha' Hb').
  - intros g c Hgi Hic Hc kg kc Hg' Hc'.
    assert (Hgne : g <> i /\ g <> j) by (unfold child_of in *; lia).
    rewrite Hk' in Hg' by tauto.
    assert (Hgi_le : kg <= ki).
    { apply (U1 g i); [unfold child_of in *; lia|done|unfold child_of in *; lia|done|done]. }
    destruct (decide (c = j)) as [->|Hcj].
    + rewrite Hj', Hi in Hc'. injection Hc' as <-. done.
    + rewrite Hk' in Hc' by (unfold child_of in *; lia).
      pose proof (U1 i c Hc Hic Hcj ki kc Hi Hc'). lia.
Qed.

Lemma up_inv_exit (K : nat -> option Z) (j n : nat) :
  up_inv K j n ->
  (forall i, child_of i j -> le_at K i j) ->
  heap_upto K n.
Proof.
  intros [U1 _] Hp a b Hb Hab.
  destruct (decide (b = j)) as [->|Hbj]; [by apply Hp|by apply U1].
Qed.

Lemma heap_upto_up_inv (K : nat -> option Z) (j n : nat) :
  heap_upto K n ->
  (forall c, child_of j c -> (c < n)%nat -> False) ->
  up_inv K j n.
Proof.
  intros H Hc. split.
  - intros a b Hb Hab _. by apply H.
  - intros g c _ Hjc Hcn. destruct (Hc c Hjc Hcn).
Qed.

Lemma down_inv_step (K K' : nat -> option Z) (i j n : nat) ki kj :
  down_inv K i n -> child_of i j -> (j < n)%nat ->
  K i = Some ki -> K j = Some kj -> kj < ki ->
  (forall c, child_of i c -> (c < n)%nat -> c <> j -> le_at K j c) ->
  K' i = K j -> K' j = K i ->
  (forall k, k <> i -> k <> j -> K' k = K k) ->
  down_inv K' j n /\ le_at K' i j.
Proof.
  intros [D1 D2] Hij Hjn Hi Hj Hlt Hmin Hi' Hj' Hk'. split; [split|].
  - intros a b Hb Hab Haj Hbj ka kb Ha' Hb'.
    destruct (decide (a = i)) as [->|Hai].
    + rewrite Hi', Hj in Ha'. injection Ha' as <-.
      rewrite Hk' in Hb' by (unfold child_of in *; lia).
      exact (Hmin b Hab Hb Hbj kj kb Hj Hb').
    + rewrite Hk' in Ha' by done.
      destruct (decide (b = i)) as [->|Hbi].
      * rewrite Hi', Hj in Hb'. injection Hb' as <-.
        exact (D2 a j Hab Hij Hjn ka kj Ha' Hj).
      * rewrite Hk' in Hb' by done.
        exact (D1 a b Hb Hab Hai Hbi ka kb Ha' Hb').
  - intros g c Hgj Hjc Hc kg kc Hg' Hc'.
    assert (g = i) by (unfold child_of in *; lia). subst g.
    rewrite Hi', Hj in Hg'. injection Hg' as <-.
    rewrite Hk' in Hc' by (unfold child_of in *; lia).
    apply (D1 j c Hc Hjc); [unfold child_of in *; lia|unfold child_of in *; lia|done|done].
  - intros ka kb Ha' Hb'. rewrite Hi', Hj in Ha'. rewrite Hj', Hi in Hb'.
    injection Ha' as <-. injection Hb' as <-. lia.
Qed.

Lemma down_inv_exit (K : nat -> option Z) (i n : nat) :
  down_inv K i n ->
  (forall c, child_of i c -> (c < n)%nat -> le_at K i c) ->
  up_inv K i n.
Proof.
  intros [D1 D2] Hc. split; [|done].
  intros a b Hb Hab Hbi.
  destruct (decide (a = i)) as [->|Hai]; [by apply Hc|by apply D1].
Qed.

Lemma heap_upto_down_inv (K K' : nat -> option Z) (i n m : nat) :
  heap_upto K m -> (n <= m)%nat -> (i < m)%nat ->
  (forall k, (k < n)%nat -> k <> i -> K' k = K k) ->
  (forall k, (k < m)%nat -> is_Some (K k)) ->
  down_inv K' i n.
Proof.
  intros H Hnm Him Hk Hsome. split.
  - intros a b Hb Hab Hai Hbi ka kb Ha' Hb'.
    rewrite Hk in Ha' by (unfold child_of in *; lia).
    rewrite Hk in Hb' by done.
    apply (H a b); [lia|done..].
  - intros g c Hgi Hic Hc kg kc Hg' Hc'.
    rewrite Hk in Hg' by (unfold child_of in *; lia).
    rewrite Hk in Hc' by (unfold child_of in *; lia).
    destruct (Hsome i Him) as [ki Hi].
    pose proof (H g i Him Hgi kg ki Hg' Hi).
    pose proof (H i c ltac:(lia) Hic ki kc Hi Hc'). lia.
Qed.

(** ** Heap order: [Less], [Swap], [up] and [down] on the store *)

Lemma ekey_same_rules s s' p : same_rules s s' -> ekey s' p = ekey s p.
Proof.
  intros (_ & _ & _ & Hr). specialize (Hr p). unfold ekey.
  destruct (deref s' p) as [e'|], (deref s p) as [e|]; cbn in Hr;
    congruence.
Qed.

Lemma hkey_is_Some s (i : nat) :
  (i < length (expH s))%nat -> is_Some (hkey s i).
Proof.
  intros Hi. unfold hkey.
  destruct (lookup_lt_is_Some_2 _ _ Hi) as [p ->]. by eexists.
Qed.

Lemma hkey_moved n s s' (i j : nat) :
  heap_moved n s s' -> expH s' !! i = expH s !! j -> hkey s' i = hkey s j.
Proof.
  intros (Hr & _) Hij. unfold hkey. rewrite Hij.
  destruct (expH s !! j) as [p|]; [|done]. cbn.
  by rewrite (ekey_same_rules _ _ _ Hr).
Qed.

Lemma Less_val s (i j : nat) ki kj :
  slots_ok s -> hkey s i = Some ki -> hkey s j = Some kj ->
  Less s (Z.of_nat i) (Z.of_nat j) = Some (ki <? kj).
Proof.
  intros Hs Hi Hj. unfold hkey in Hi, Hj. unfold Less. rewrite !slot_of_nat.
  destruct (expH s !! i) as [pi|] eqn:Hpi; [|done].
  destruct (expH s !! j) as [pj|] eqn:Hpj; [|done].
  cbn in Hi, Hj. injection Hi as <-. injection Hj as <-.
  destruct (Hs _ _ Hpi) as (ei & Hei & _).
  destruct (Hs _ _ Hpj) as (ej & Hej & _).
  rewrite !bind_Some, Hei, bind_Some, Hej, bind_Some.
  unfold ekey. by rewrite Hei, Hej.
Qed.

Lemma upd_entry_expH s p f s' :
  upd_entry s p f = Some s' -> expH s' = expH s.
Proof.
  unfold upd_entry. destruct (deref s p); [|done].
  rewrite bind_Some. by intros [= <-].
Qed.

Lemma Swap_others s (i j : nat) s' :
  Swap s (Z.of_nat i) (Z.of_nat j) = Some s' ->
  forall k, k <> i -> k <> j -> expH s' !! k = expH s !! k.
Proof.
  unfold Swap. rewrite !slot_of_nat.
  destruct (expH s !! i) as [pi|]; [|done].
  destruct (expH s !! j) as [pj|]; [|done].
  rewrite !bind_Some, !Nat2Z.id.
  destruct (upd_entry _ pj _) as [s1|] eqn:H1; [|done].
  rewrite bind_Some. intros H2 k Hki Hkj.
  rewrite (upd_entry_expH _ _ _ _ H2), (upd_entry_expH _ _ _ _ H1).
  cbn [expH set_expH]. by rewrite !list_lookup_insert_ne.
Qed.

(** [Swap] on the keys. *)
Lemma Swap_keys n s (i j : nat) :
  slots_ok s -> (i < length (expH s))%nat -> (j < length (expH s))%nat ->
  (i < n)%nat -> (j < n)%nat ->
  exists s', Swap s (Z.of_nat i) (Z.of_nat j) = Some s' /\ heap_moved n s s' /\
    hkey s' i = hkey s j /\ hkey s' j = hkey s i /\
    (forall k, k <> i -> k <> j -> hkey s' k = hkey s k).
Proof.
  intros Hs Hi Hj Hin Hjn.
  destruct (Swap_ok n s i j Hs Hi Hj Hin Hjn) as (s' & Hsw & Hmv & Hi' & Hj').
  exists s'. split; [done|]. split; [done|].
  split; [by eapply hkey_moved|]. split; [by eapply hkey_moved|].
  intros k Hki Hkj. eapply hkey_moved; [done|].
  by eapply Swap_others.
Qed.

Lemma parent_child (j : nat) : (0 < j)%nat -> child_of ((j - 1) / 2) j.
Proof.
  intros Hj. unfold child_of.
  pose proof (Nat.div_mod_eq (j - 1) 2) as Hdm.
  pose proof (Nat.mod_upper_bound (j - 1) 2). lia.
Qed.

Lemma up_heap fuel : forall s (j n : nat),
  slots_ok s -> (j < length (expH s))%nat -> (j < fuel)%nat ->
  up_inv (hkey s) j n ->
  exists s', up fuel s (Z.of_nat j) = Some s' /\ heap_moved (S j) s s' /\
             heap_upto (hkey s') n.
Proof.
  induction fuel as [|f IH]; intros s j n Hs Hj Hf Hinv; [lia|].
  cbn [up]. destruct (decide (j = 0%nat)) as [->|Hj0].
  { cbn. exists s. split; [done|]. split; [by apply heap_moved_refl|].
    eapply up_inv_exit; [done|]. intros i Hi. unfold child_of in Hi. lia. }
  rewrite parent_of_nat by lia.
  set (i := ((j - 1) / 2)%nat).
  assert (Hc : child_of i j) by (apply parent_child; lia).
  assert (Hij : (i < j)%nat) by (unfold child_of in Hc; lia).
  destruct (decide (Z.of_nat i = Z.of_nat j)) as [Heq|_]; [lia|].
  destruct (hkey_is_Some s j Hj) as [kj Hkj].
  destruct (hkey_is_Some s i ltac:(lia)) as [ki Hki].
  rewrite (Less_val s j i kj ki Hs Hkj Hki), bind_Some.
  destruct (Z.ltb_spec kj ki) as [Hlt|Hge]; cbn [negb].
  2:{ exists s. split; [done|]. split; [by apply heap_moved_refl|].
      eapply up_inv_exit; [done|]. intros i' Hi' ka kb Ha Hb.
      assert (i' = i) by (unfold child_of in *; lia). subst i'.
      rewrite Hki in Ha. rewrite Hkj in Hb.
      injection Ha as <-. injection Hb as <-. lia. }
  destruct (Swap_keys (S j) s i j Hs ltac:(lia) Hj ltac:(lia) ltac:(lia))
    as (s1 & Hsw & Hmv & Hi1 & Hj1 & Hk1).
  rewrite Hsw, bind_Some.
  pose proof Hmv as (Hr & Hs1 & Hl & Hm & Hk).
  destruct (IH s1 i n Hs1 ltac:(lia) ltac:(lia)) as (s' & Hup & Hmv' & Hheap).
  { eapply (up_inv_step (hkey s) (hkey s1) i j n ki kj); done. }
  exists s'. split; [done|]. split; [|done].
  eapply heap_moved_trans; [exact Hmv|].
  eapply heap_moved_mono; [|done]. lia.
Qed.

Lemma down_heap fuel : forall s (i0 i n : nat),
  slots_ok s -> (n <= length (expH s))%nat -> (n - i < fuel)%nat ->
  (i0 <= i)%nat ->
  down_inv (hkey s) i n ->
  (i <> i0 -> forall g, child_of g i -> le_at (hkey s) g i) ->
  exists s' b,
    down fuel s (Z.of_nat i0) (Z.of_nat i) (Z.of_nat n) = Some (s', b) /\
    heap_moved n s s' /\
    (b = true -> heap_upto (hkey s') n) /\
    (b = false -> up_inv (hkey s') i0 n).
Proof.
  induction fuel as [|f IH]; intros s i0 i n Hs Hn Hf Hi0 Hinv Hpar; [lia|].
  cbn [down].
  assert (Hexit : (forall c, child_of i c -> (c < n)%nat -> le_at (hkey s) i c) ->
    exists s' b, Some (s, Z.of_nat i0 <? Z.of_nat i) = Some (s', b) /\
      heap_moved n s s' /\
      (b = true -> heap_upto (hkey s') n) /\
      (b = false -> up_inv (hkey s') i0 n)).
  { intros Hch. exists s, (Z.of_nat i0 <? Z.of_nat i).
    split; [done|]. split; [by apply heap_moved_refl|].
    pose proof (down_inv_exit _ _ _ Hinv Hch) as Hup.
    split.
    - intros Hb. apply Z.ltb_lt in Hb.
      eapply up_inv_exit; [exact Hup|]. apply Hpar. lia.
    - intros Hb. apply Z.ltb_ge in Hb.
      assert (i = i0) by lia. by subst i. }
  destruct (decide (2 * Z.of_nat i + 1 >= Z.of_nat n \/ 2 * Z.of_nat i + 1 < 0))
    as [Hout|Hin].
  { apply Hexit. intros c Hc Hcn. unfold child_of in Hc. lia. }
  assert (Hj1 : (2 * i + 1 < n)%nat) by lia.
  replace (2 * Z.of_nat i + 1) with (Z.of_nat (2 * i + 1)) by lia.
  replace (Z.of_nat (2 * i + 1) + 1) with (Z.of_nat (2 * i + 2)) by lia.
  destruct (hkey_is_Some s (2 * i + 1) ltac:(lia)) as [k1 Hk1].
  destruct (hkey_is_Some s i ltac:(lia)) as [ki Hki].
  assert (Hb2 : exists (j : nat) kj,
    (if decide (Z.of_nat (2 * i + 2) < Z.of_nat n)
     then Less s (Z.of_nat (2 * i + 2)) (Z.of_nat (2 * i + 1))
     else Some false) ≫=
      (fun b2 : bool =>
         Less s (if b2 then Z.of_nat (2 * i + 2) else Z.of_nat (2 * i + 1))
              (Z.of_nat i) ≫=
         fun b : bool =>
           if negb b then Some (s, Z.of_nat i0 <? Z.of_nat i)
           else Swap s (Z.of_nat i)
                  (if b2 then Z.of_nat (2 * i + 2) else Z.of_nat (2 * i + 1)) ≫=
                fun s1 => down f s1 (Z.of_nat i0)
                  (if b2 then Z.of_nat (2 * i + 2) else Z.of_nat (2 * i + 1))
                  (Z.of_nat n))
    = (if negb (kj <? ki) then Some (s, Z.of_nat i0 <? Z.of_nat i)
       else Swap s (Z.of_nat i) (Z.of_nat j) ≫=
            fun s1 => down f s1 (Z.of_nat i0) (Z.of_nat j) (Z.of_nat n)) /\
    child_of i j /\ (j < n)%nat /\ hkey s j = Some kj /\
    (forall c, child_of i c -> (c < n)%nat -> c <> j -> le_at (hkey s) j c)).
  { destruct (decide (Z.of_nat (2 * i + 2) < Z.of_nat n)) as [Hlt|Hge].
    - destruct (hkey_is_Some s (2 * i + 2) ltac:(lia)) as [k2 Hk2].
      rewrite (Less_val s _ _ k2 k1 Hs Hk2 Hk1), bind_Some.
      destruct (Z.ltb_spec k2 k1) as [H21|H12].
      + exists (2 * i + 2)%nat, k2.
        rewrite (Less_val s _ _ k2 ki Hs Hk2 Hki), bind_Some.
        split; [done|]. split; [by right|]. split; [lia|]. split; [done|].
        intros c Hc Hcn Hne ka kb Ha Hb.
        assert (c = (2 * i + 1)%nat) by (unfold child_of in Hc; lia). subst c.
        rewrite Hk2 in Ha. rewrite Hk1 in Hb.
        injection Ha as <-. injection Hb as <-. lia.
      + exists (2 * i + 1)%nat, k1.
        rewrite (Less_val s _ _ k1 ki Hs Hk1 Hki), bind_Some.
        split; [done|]. split; [by left|]. split; [lia|]. split; [done|].
        intros c Hc Hcn Hne ka kb Ha Hb.
        assert (c = (2 * i + 2)%nat) by (unfold child_of in Hc; lia). subst c.
        rewrite Hk1 in Ha. rewrite Hk2 in Hb.
        injection Ha as <-. injection Hb as <-. lia.
    - rewrite bind_Some. exists (2 * i + 1)%nat, k1.
      rewrite (Less_val s _ _ k1 ki Hs Hk1 Hki), bind_Some.
      split; [done|]. split; [by left|]. split; [lia|]. split; [done|].
      intros c Hc Hcn Hne. unfold child_of in Hc. lia. }
  destruct Hb2 as (j & kj & -> & Hcj & Hjn & Hkj & Hmin).
  assert (Hij : (i < j)%nat) by (unfold child_of in Hcj; lia).
  destruct (Z.ltb_spec kj ki) as [Hlt|Hge]; cbn [negb].
  2:{ apply Hexit. intros c Hc Hcn ka kb Ha Hb.
      rewrite Hki in Ha. injection Ha as <-.
      destruct (decide (c = j)) as [->|Hne].
      - rewrite Hkj in Hb. injection Hb as <-. lia.
      - pose proof (Hmin c Hc Hcn Hne kj kb Hkj Hb). lia. }
  destruct (Swap_keys n s i j Hs ltac:(lia) ltac:(lia) ltac:(lia) Hjn)
    as (s1 & Hsw & Hmv & Hi1 & Hj1' & Hk1').
  rewrite Hsw, bind_Some.
  pose proof Hmv as (Hr & Hs1 & Hl & Hm & Hk).
  destruct (down_inv_step (hkey s) (hkey s1) i j n ki kj
              Hinv Hcj Hjn Hki Hkj Hlt Hmin Hi1 Hj1' Hk1') as [Hinv1 Hle1].
  destruct (IH s1 i0 j n Hs1 ltac:(lia) ltac:(lia) ltac:(lia) Hinv1)
    as (s' & b' & Hdn & Hmv' & Ht & Hf').
  { intros _ g Hg. assert (g = i) by (unfold child_of in *; lia). by subst g. }
  exists s', b'. split; [done|].
  split; [eapply heap_moved_trans; [exact Hmv|done]|].
  split; [done|]. intros Hb'. (* the element moved: [b'] is true *)
  exfalso.
  clear -Hdn Hb' Hi0 Hij. subst b'.
  revert Hdn. generalize (Z.of_nat n). intros zn.
  assert (Hlt : Z.of_nat i0 < Z.of_nat j) by lia.
  revert Hlt. generalize (Z.of_nat j). generalize (Z.of_nat i0).
  clear. revert s1 s'.
  induction f as [|f IHf]; intros s1 s' z0 zj zlt Hdn; [discriminate Hdn|].
  cbn [down] in Hdn.
  destruct (decide (2 * zj + 1 >= zn \/ 2 * zj + 1 < 0)).
  { injection Hdn as _ Hb. apply Z.ltb_ge in Hb. lia. }
  destruct (if decide (2 * zj + 1 + 1 < zn)
            then Less s1 (2 * zj + 1 + 1) (2 * zj + 1) else Some false)
    as [b2|]; [|discriminate Hdn].
  rewrite bind_Some in Hdn.
  destruct (Less s1 (if b2 then 2 * zj + 1 + 1 else 2 * zj + 1) zj) as [b|];
    [|discriminate Hdn].
  rewrite bind_Some in Hdn. destruct b; cbn [negb] in Hdn.
  - destruct (Swap s1 zj (if b2 then 2 * zj + 1 + 1 else 2 * zj + 1)) as [s2|];
      [|discriminate Hdn].
    rewrite bind_Some in Hdn.
    eapply (IHf s2 s' z0); [|exact Hdn].
    assert (0 <= zj) by lia. destruct b2; lia.
  - injection Hdn as _ Hb. apply Z.ltb_ge in Hb. lia.
Qed.

(** ** Heap order: the operations of [container/heap] *)

Lemma min_heap_iff s :
  slots_ok s -> (min_heap s <-> heap_upto (hkey s) (length (expH s))).
Proof.
  intros Hs. split.
  - intros Hmin a b Hb Hab ka kb Ha Hkb. unfold hkey in Ha, Hkb.
    destruct (expH s !! a) as [pa|] eqn:Hpa; [|done].
    destruct (expH s !! b) as [pb|] eqn:Hpb; [|done].
    cbn in Ha, Hkb. injection Ha as <-. injection Hkb as <-.
    destruct (Hs _ _ Hpa) as (ea & Hea & _).
    destruct (Hs _ _ Hpb) as (eb & Heb & _).
    unfold ekey. rewrite Hea, Heb.
    exact (Hmin a b pa pb ea eb Hab Hpa Hpb Hea Heb).
  - intros Hh i j pi pj ei ej Hij Hpi Hpj Hei Hej.
    apply (Hh i j); [by eapply lookup_lt_Some|done| |].
    + unfold hkey, ekey. rewrite Hpi. cbn. by rewrite Hei.
    + unfold hkey, ekey. rewrite Hpj. cbn. by rewrite Hej.
Qed.





Lemma heap_Fix_heap s (i : nat) :
  slots_ok s -> (i < length (expH s))%nat ->
  heap_upto (hkey s) (length (expH s)) ->
  exists s', heap_Fix s (Z.of_nat i) = Some s' /\
             heap_moved (length (expH s)) s s' /\
             heap_upto (hkey s') (length (expH s')).
Proof.
  intros Hs Hi Hh. unfold heap_Fix, Len.
  assert (Hinv : down_inv (hkey s) i (length (expH s))).
  { apply (heap_upto_down_inv (hkey s) (hkey s) i _ (length (expH s)));
      [done|lia|done|done|]. intros k Hk. by apply hkey_is_Some. }
  destruct (down_heap (heap_fuel s) s i i (length (expH s)) Hs ltac:(lia)
              ltac:(unfold heap_fuel; lia) ltac:(lia) Hinv ltac:(done))
    as (s1 & b & Hdn & Hmv1 & Ht & Hf).
  rewrite Hdn, bind_Some.
  pose proof Hmv1 as (_ & Hs1 & Hl1 & _ & _).
  destruct b.
  - exists s1. split; [done|]. split; [done|]. rewrite Hl1. by apply Ht.
  - destruct (up_heap (heap_fuel s1) s1 i (length (expH s)) Hs1 ltac:(lia)
                ltac:(unfold heap_fuel; lia) (Hf eq_refl))
      as (s2 & Hup & Hmv2 & Hh2).
    exists s2. split; [done|].
    pose proof Hmv2 as (_ & _ & Hl2 & _).
    split; [|by rewrite Hl2, Hl1].
    eapply heap_moved_trans; [exact Hmv1|].
    eapply heap_moved_mono; [|done]. lia.
Qed.


(** ** Heap order: the store operations *)

Lemma hkey_ext s s' :
  expH s' = expH s ->
  (forall q, q ∈ expH s -> ekey s' q = ekey s q) ->
  forall k, hkey s' k = hkey s k.
Proof.
  intros Hh Hk k. unfold hkey. rewrite Hh.
  destruct (expH s !! k) as [q|] eqn:Hq; [|done]. cbn.
  rewrite Hk; [done|]. by eapply list_elem_of_lookup_2.
Qed.

Lemma heap_upto_ext (K K' : nat -> option Z) n :
  (forall k, K' k = K k) -> heap_upto K n -> heap_upto K' n.
Proof.
  intros Hk Hh a b Hb Hab ka kb Ha Hkb. rewrite Hk in Ha, Hkb.
  by apply (Hh a b).
Qed.

Lemma ekey_upd_rule s p f e q :
  deref s p = Some e ->
  (q = p -> Expires (f (rule e)) = Expires (rule e)) ->
  ekey (set_mem s (<[p := with_rule f e]> (mem s))) q = ekey s q.
Proof.
  intros He Hx. unfold ekey. rewrite (upd_rule_deref _ _ _ _ _ He).
  destruct (decide (q = p)) as [->|Hq]; [|done].
  rewrite He. cbn. by apply Hx.
Qed.







Lemma UpdateResolvedAt_ordered s id ts :
  wf s -> min_heap s ->
  exists s' b, UpdateResolvedAt s id ts = Some (s', b) /\ wf s' /\ min_heap s'.
Proof.
  intros Hwf Hmin.
  destruct (UpdateResolvedAt_ok s id ts Hwf) as (s' & b & Hup & Hwf' & _).
  exists s', b. split; [done|]. split; [done|].
  apply (min_heap_iff s' (wf_slots s' Hwf')).
  apply (min_heap_iff s (wf_slots s Hwf)) in Hmin.
  unfold UpdateResolvedAt in Hup.
  destruct (byID s !! id) as [p|] eqn:Hid; [|by injection Hup as <- _].
  destruct (wf_byID s Hwf _ _ Hid) as (cur & He & Hidc & Hkey).
  set (f := fun c => mkRule (ID c) (Domain c) (IPs c) (Expires c) (Permanent c) ts) in *.
  rewrite He, bind_Some, (upd_entry_Some _ _ _ _ He), bind_Some in Hup.
  set (s1 := set_mem s (<[p := with_rule f cur]> (mem s))) in *.
  assert (Hs1 : slots_ok s1) by (apply slots_ok_upd_rule; [apply Hwf|done]).
  assert (Hh1 : heap_upto (hkey s1) (length (expH s1))).
  { eapply heap_upto_ext; [|exact Hmin]. apply hkey_ext; [done|].
    intros q _. by apply ekey_upd_rule. }
  assert (Hstep : exists s2,
    (if negb (Permanent (rule cur)) then heap_Fix s1 (heapIdx cur) else Some s1)
      = Some s2 /\ slots_ok s2 /\ heap_upto (hkey s2) (length (expH s2))).
  { destruct (Permanent (rule cur)) eqn:Hperm; cbn [negb].
    - by exists s1.
    - destruct (wf_heap_index s _ p cur Hwf Hkey He Hperm) as (i & Hidx & Hi).
      rewrite Hidx.
      destruct (heap_Fix_heap s1 i Hs1) as (s2 & Hfix & Hmv & Hh2); [|done|].
      { apply lookup_lt_Some in Hi. exact Hi. }
      exists s2. split; [done|]. split; [apply Hmv|done]. }
  destruct Hstep as (s2 & Hs2eq & Hs2 & Hh2). rewrite Hs2eq, bind_Some in Hup.
  destruct (byDom s2 !! Domain (rule cur)) as [q|]; [|by injection Hup as <- _].
  unfold upd_entry in Hup.
  destruct (deref s2 q) as [e2|] eqn:He2; [|discriminate Hup].
  rewrite !bind_Some in Hup. injection Hup as <- _.
  cbn [expH set_mem]. eapply heap_upto_ext; [|exact Hh2].
  apply hkey_ext; [done|]. intros q' _.
  by apply (ekey_upd_rule s2 q _ e2 q').
Qed.

(** [UpdateResolvedAt] keeps the heap in order. *)
Theorem UpdateResolvedAt_min_heap s id ts :
  wf s -> min_heap s ->
  exists s' b, UpdateResolvedAt s id ts = Some (s', b) /\ wf s' /\ min_heap s'.
Proof. apply UpdateResolvedAt_ordered. Qed.

Lemma four_ops_min_heap : min_heap (default NewStore (run NewStore four_ops)).
Proof.
  intros i j pi pj ei ej Hj Hi Hj' Hei Hej.
  pose proof (lookup_lt_Some _ _ _ Hj') as Hlt. vm_compute in Hlt.
  assert (Hc : (i = 0 /\ (j = 1 \/ j = 2) \/ i = 1 /\ j = 3)%nat) by lia.
  destruct Hc as [[-> [-> | ->]] | [-> ->]];
    vm_compute in Hi, Hj'; injection Hi as <-; injection Hj' as <-;
    vm_compute in Hei, Hej; injection Hei as <-; injection Hej as <-;
    vm_compute; discriminate.
Qed.

Lemma UpdateResolvedAt_min_heap_witness :
  exists s',
    UpdateResolvedAt (default NewStore (run NewStore four_ops)) "2" 9
      = Some (s', true) /\
    min_heap s' /\ expH s' = [0; 1; 2; 3]%nat /\
    rule <$> deref s' 1%nat = Some (mkRule "2" "b.com" [] 20 false 9).
Proof.
  destruct (UpdateResolvedAt_min_heap
              (default NewStore (run NewStore four_ops)) "2" 9)
    as (s' & b & Hup & _ & Hmin).
  - apply wf_of_run.
  - exact four_ops_min_heap.
  - exists s'. pose proof Hup as Hup0.
    vm_compute in Hup0. injection Hup0 as Hs Hb.
    rewrite <- Hb in Hup. split; [exact Hup|]. split; [exact Hmin|].
    rewrite <- Hs. split; reflexivity.
Defined.






